(** * ldap2pg: the synchronisation manager ([ldap2pg/manager.py])

    A shallow embedding of [SyncManager] and the properties of its
    directory fetcher, join resolver, rule engines, aggregator and
    orchestrator.

    Conventions of the embedding.
    - A Python [dict] whose iteration order is observable is an
      association list with unique keys ([pydict]); the join cache and the
      table of aggregated roles, which are only looked up and updated, are
      [gmap]s.
    - External collaborators (directory transport, text codec, template
      expansion, inspector, statement runner) are type classes over an
      abstract world [W]; every call returns the new world.
    - Every function returns, next to its result and the new world, the
      chronological list of [event]s it caused: calls to collaborators and
      log records.
    - A Python generator is a finite lazy stream [gen]: a sequence of yields
      and log records that ends normally or by raising. *)

From Stdlib Require Import String Ascii List ZArith Lia Bool.
From stdpp Require Import gmap strings list fin_maps.

Open Scope string_scope.
Open Scope list_scope.

#[global] Arguments String.eqb : simpl never.

(** ** Python values *)

Abbreviation bytes := (list Byte.byte).

(** [str.lower()], on the ASCII letters. *)
Definition ascii_lower (c : ascii) : ascii :=
  let n := nat_of_ascii c in
  if (65 <=? n)%nat && (n <=? 90)%nat then ascii_of_nat (n + 32) else c.

Fixpoint str_lower (s : string) : string :=
  match s with
  | EmptyString => EmptyString
  | String c r => String (ascii_lower c) (str_lower r)
  end.

(** The precision of a ["%.Ns"] conversion: at most [n] characters. *)
Fixpoint str_take (n : nat) (s : string) : string :=
  match n, s with
  | S m, String c r => String c (str_take m r)
  | _, _ => EmptyString
  end.

(** [s.replace('\n', '')]. *)
Fixpoint remove_newlines (s : string) : string :=
  match s with
  | EmptyString => EmptyString
  | String c r =>
      if Ascii.eqb c "010"%char then remove_newlines r
      else String c (remove_newlines r)
  end.

(** [', '.join(l)]. *)
Definition join_comma (l : list string) : string := String.concat ", " l.

(** *** Insertion-ordered dictionaries *)

Definition pydict (V : Type) := list (string * V).

Fixpoint dict_get {V} (k : string) (d : pydict V) : option V :=
  match d with
  | [] => None
  | (k', v) :: r => if String.eqb k k' then Some v else dict_get k r
  end.

(** [d[k] = v]: an existing key keeps its position, a new one goes last. *)
Fixpoint dict_set {V} (k : string) (v : V) (d : pydict V) : pydict V :=
  match d with
  | [] => [(k, v)]
  | (k', v') :: r =>
      if String.eqb k k' then (k, v) :: r else (k', v') :: dict_set k v r
  end.

(** [d.update(other)]. *)
Definition dict_update {V} (d other : pydict V) : pydict V :=
  fold_left (fun acc kv => dict_set (fst kv) (snd kv) acc) other d.

Definition dict_keys {V} (d : pydict V) : list string := map fst d.

(** ** Grants

    A configuration value as the YAML loader leaves it. *)
Inductive pyval :=
| PNone
| PStr (s : string)
| PList (l : list string).

(** The [databases] of a grant: the sentinel [Grant.ALL_DATABASES], or what
    the rule gave. *)
Inductive dbsel :=
| ALL_DATABASES
| Databases (v : pyval).

(** Modelled from the spec: [privilege.Grant] is not in this module. The
    positional arguments of [Grant(privilege, databases, schemas, role)];
    [schemas = None] is Python's [None]. *)
Record Grant := {
  privilege : option string;
  databases : dbsel;
  schemas : option pyval;
  role : string;
}.

(** ** Exceptions, log records, events *)

(** The messages of [UserError], one constructor per format string. *)
Inductive user_msg :=
| FailedQuery (e : string)
    (* "Failed to query LDAP: %s." *)
| FailedDecode (dn : bytes) (e : string)
    (* "Failed to decode data from %r: %s." *)
| MsgUnexpectedDN (dn : string)
    (* "Unexpected DN: %s" *)
| FailedProcessRole (dn48 : string) (e : string)
    (* "Failed to process %.48s: %s" *)
| FailedProcessGrant (e : string)
    (* "Failed to process %.32s: %s" *)
| RoleRedefined (role : string)
    (* "Role %s redefined with different options." *)
| MsgOther (e : string).

(** The exception classes this module raises, catches or lets through.
    [ValueError] stands for the class and its subclasses; [TypeError] and
    [RuntimeError] are raised by the interpreter ([None[0]], a
    [StopIteration] leaving a generator body). *)
Inductive exn :=
| RDNError (dn : string)
| ValueError (msg : string)
| UserError (m : user_msg)
| TypeError
| RuntimeError.

Inductive result (A : Type) :=
| Return (a : A)
| Raise (e : exn).
Arguments Return {A} a.
Arguments Raise {A} e.

Inductive level := Debug | Info | Warning.

Inductive logmsg :=
| GotEntries (n : nat)                       (* "Got %d entries from LDAP." *)
| DiscardingRef                              (* "Discarding ref: %.40s." *)
| IgnoringJoin (value : string) (e : user_msg)   (* "Ignoring %s: %s" *)
| FoundRole (name source : string)           (* "Found role %s%s." *)
| RoleMembers (name members : string)        (* "Role %s must have members %s." *)
| RoleParents (name parents : string)        (* "Role %s is member of %s." *)
| LogUnexpectedDN (dn : string)              (* "Unexpected DN: %s" *)
| DontGrant (privilege : option string) (role pattern : string)
                                 (* "Don't grant %s to %s not matching %s." *)
| QueryingLDAP (base24 filter12 : string)    (* "Querying LDAP %.24s... %.12s..." *)
| FoundGrant (grant : Grant) (source : string)   (* "Found GRANT %s %s." *)
| InspectingRoles | NonSuperuser | RolesInspectionDone | LdapInspectionDone
| InspectingGrants | DryOwnersWarning | NoPrivileges
| GeneratedQueries (n : Z) | NothingToDo.

(** How a nested fetch of the join resolver ended. *)
Inductive join_outcome := JoinResolved | JoinEmpty | JoinFailed.

Inductive event :=
| EvSearch (base : string) (scope : Z) (filter : string) (attributes : list string)
    (* a call of [ldapconn.search_s] *)
| EvJoin (attr value : string) (o : join_outcome)
    (* the nested [_query_ldap] issued by [query_ldap] for [(attr, value)] *)
| EvLog (lvl : level) (m : logmsg)
| EvFetchMe | EvFetchRoles | EvFilterRoles
| EvRunRoleQueries (count : result Z)
    (* [psql.run_queries] on the diff of the roles, and what it returned *)
| EvFetchSchemas | EvFetchGrants
| EvRunGrantQueries (count : result Z).
    (* [psql.run_queries] on the diff of the grants, and what it returned *)

(** ** Directory data *)

(** What the transport returns: a DN ([None] or empty for a referral) and
    the raw attribute map. *)
Definition raw_entry : Type := option bytes * pydict (list bytes).

(** A fetched entry: decoded DN, lower-cased attribute names. *)
Definition Entry : Type := string * pydict (list string).

Definition subattrs : Type := pydict (list string).

(** An entry after join resolution: every value carries its sub-attributes. *)
Definition JEntry : Type := string * pydict (list (string * subattrs)).

Record Join := {
  j_filter : string;
  j_attributes : list string;
  j_scope : Z;
}.

(** The directory transport, [ldapconn.search_s(base, scope, filter,
    attributes)]; [inl e] is an [LDAPError] with text [e]. *)
Class LdapConn (W : Type) := {
  search_s : string -> Z -> string -> list string -> W ->
             (string + list raw_entry) * W;
}.

(** The text codec behind [decode_value]; [inl e] is a
    [UnicodeDecodeError] with text [e]. *)
Class Codec := {
  decode : bytes -> string + string;
}.

Section Fetcher.
Context {W : Type} `{!LdapConn W} `{!Codec}.

Fixpoint decode_list (l : list bytes) : string + list string :=
  match l with
  | [] => inr []
  | b :: r =>
      match decode b with
      | inl e => inl e
      | inr s =>
          match decode_list r with
          | inl e => inl e
          | inr ss => inr (s :: ss)
          end
      end
  end.

Fixpoint decode_attrs (d : pydict (list bytes)) : string + pydict (list string) :=
  match d with
  | [] => inr []
  | (k, vs) :: r =>
      match decode_list vs with
      | inl e => inl e
      | inr ss =>
          match decode_attrs r with
          | inl e => inl e
          | inr d' => inr ((k, ss) :: d')
          end
      end
  end.

(** Modelled from the spec: [utils.decode_value] is not in this module.
    The fetcher "decodes text": the DN and every attribute value go through
    the codec, the first failure is the [UnicodeDecodeError]. *)
Definition decode_value (e : bytes * pydict (list bytes)) : string + Entry :=
  match decode (fst e) with
  | inl err => inl err
  | inr dn =>
      match decode_attrs (snd e) with
      | inl err => inl err
      | inr attrs => inr (dn, attrs)
      end
  end.

(** One item of [lower_attributes]: the value filed under the lower-cased
    name. *)
Definition lower_step (acc : pydict (list string)) (kv : string * list string)
  : pydict (list string) :=
  dict_set (str_lower (fst kv)) (snd kv) acc.

(** Modelled from the spec: [ldap.lower_attributes] is not in this module.
    The fetcher "lower-cases attribute names": a dictionary rebuilt from
    the items with lower-cased keys. *)
Definition lower_attributes (e : Entry) : Entry :=
  (fst e, fold_left lower_step (snd e) []).

(** [not dn] is false: the DN is there and not empty. *)
Definition has_dn (dn : option bytes) : option bytes :=
  match dn with
  | Some (b :: r) => Some (b :: r)
  | _ => None
  end.

(** The loop of [_query_ldap] over [raw_entries]. *)
Fixpoint collect_entries (raw_entries : list raw_entry) (entries : list Entry)
  : result (list Entry) * list event :=
  match raw_entries with
  | [] => (Return entries, [])
  | (dn, attributes) :: rest =>
      match has_dn dn with
      | None =>
          let '(r, evs) := collect_entries rest entries in
          (r, EvLog Debug DiscardingRef :: evs)
      | Some dn =>
          let attributes := dict_set "dn" [dn] attributes in
          match decode_value (dn, attributes) with
          | inl e => (Raise (UserError (FailedDecode dn e)), [])
          | inr entry =>
              collect_entries rest (entries ++ [lower_attributes entry])
          end
      end
  end.

Definition _query_ldap (base filter : string) (attributes : list string)
    (scope : Z) (w : W) : result (list Entry) * W * list event :=
  match search_s base scope filter attributes w with
  | (inl e, w') =>
      (Raise (UserError (FailedQuery e)), w',
       [EvSearch base scope filter attributes])
  | (inr raw_entries, w') =>
      let '(r, evs) := collect_entries raw_entries [] in
      (r, w',
       EvSearch base scope filter attributes
         :: EvLog Debug (GotEntries (length raw_entries)) :: evs)
  end.

End Fetcher.

(** ** Join resolver *)

(** [sub_attrs_cache], keyed by [(attr, value)]. *)
Abbreviation join_cache :=
  (@gmap (string * string)
     (@prod_eq_dec string String.eq_dec string String.eq_dec)
     (@prod_countable string String.eq_dec String.countable
        string String.eq_dec String.countable)
     subattrs).

Section JoinResolver.
Context {W : Type} `{!LdapConn W} `{!Codec}.

(** The body of the innermost loop of [query_ldap], for one [value] of the
    attribute [attr]: what is appended to [values_with_attrs] (nothing when
    the value is dropped), the cache and the world afterwards. The cached
    dictionary and the one attached to the first occurrence are one object
    in the source; nothing in [query_ldap] mutates it afterwards, so the
    embedding shares its value. *)
Definition resolve_value (joins : pydict Join) (attr value : string)
    (cache : join_cache) (w : W)
  : result (option (string * subattrs)) * join_cache * W * list event :=
  match dict_get attr joins with
  | None => (Return (Some (value, [])), cache, w, [])
  | Some join =>
      match cache !! (attr, value) with
      | Some (kv :: more) => (Return (Some (value, kv :: more)), cache, w, [])
      | _ =>
          let sub_attrs : subattrs := [("dn", [value])] in
          match j_attributes join with
          | [] =>
              (Return (Some (value, sub_attrs)),
               <[(attr, value) := sub_attrs]> cache, w, [])
          | _ :: _ =>
              match _query_ldap value (j_filter join) (j_attributes join)
                      (j_scope join) w with
              | (Return (first :: _), w', evs) =>
                  let sub_attrs := dict_update sub_attrs (snd first) in
                  (Return (Some (value, sub_attrs)),
                   <[(attr, value) := sub_attrs]> cache, w',
                   EvJoin attr value JoinResolved :: evs)
              | (Return [], w', evs) =>
                  (Return None, cache, w', EvJoin attr value JoinEmpty :: evs)
              | (Raise (UserError e), w', evs) =>
                  (Return None, cache, w',
                   EvJoin attr value JoinFailed
                     :: evs ++ [EvLog Warning (IgnoringJoin value e)])
              | (Raise e, w', evs) =>
                  (Raise e, cache, w', EvJoin attr value JoinFailed :: evs)
              end
          end
      end
  end.

(** [for value in values]. *)
Fixpoint resolve_values (joins : pydict Join) (attr : string)
    (values : list string) (cache : join_cache) (w : W)
  : result (list (string * subattrs)) * join_cache * W * list event :=
  match values with
  | [] => (Return [], cache, w, [])
  | value :: rest =>
      match resolve_value joins attr value cache w with
      | (Raise e, cache', w', evs) => (Raise e, cache', w', evs)
      | (Return o, cache', w', evs) =>
          match resolve_values joins attr rest cache' w' with
          | (Raise e, cache'', w'', evs') => (Raise e, cache'', w'', evs ++ evs')
          | (Return vs, cache'', w'', evs') =>
              (Return (match o with Some p => p :: vs | None => vs end),
               cache'', w'', evs ++ evs')
          end
      end
  end.

(** [for attr, values in list(entry[1].items())], ending each round with
    [entry[1][attr] = values_with_attrs]. The keys of a dictionary are
    unique, so replacing the value of every key of the snapshot in turn maps
    the items in place. *)
Fixpoint resolve_attrs (joins : pydict Join) (items : pydict (list string))
    (cache : join_cache) (w : W)
  : result (pydict (list (string * subattrs))) * join_cache * W * list event :=
  match items with
  | [] => (Return [], cache, w, [])
  | (attr, values) :: rest =>
      match resolve_values joins attr values cache w with
      | (Raise e, cache', w', evs) => (Raise e, cache', w', evs)
      | (Return values_with_attrs, cache', w', evs) =>
          match resolve_attrs joins rest cache' w' with
          | (Raise e, cache'', w'', evs') => (Raise e, cache'', w'', evs ++ evs')
          | (Return d, cache'', w'', evs') =>
              (Return ((attr, values_with_attrs) :: d), cache'', w'', evs ++ evs')
          end
      end
  end.

(** [for entry in entries]. *)
Fixpoint resolve_entries (joins : pydict Join) (entries : list Entry)
    (cache : join_cache) (w : W)
  : result (list JEntry) * join_cache * W * list event :=
  match entries with
  | [] => (Return [], cache, w, [])
  | entry :: rest =>
      match resolve_attrs joins (snd entry) cache w with
      | (Raise e, cache', w', evs) => (Raise e, cache', w', evs)
      | (Return d, cache', w', evs) =>
          match resolve_entries joins rest cache' w' with
          | (Raise e, cache'', w'', evs') => (Raise e, cache'', w'', evs ++ evs')
          | (Return es, cache'', w'', evs') =>
              (Return ((fst entry, d) :: es), cache'', w'', evs ++ evs')
          end
      end
  end.

Definition query_ldap (base filter : string) (attributes : list string)
    (joins : pydict Join) (scope : Z) (w : W)
  : result (list JEntry) * W * list event :=
  match _query_ldap base filter attributes scope w with
  | (Raise e, w', evs) => (Raise e, w', evs)
  | (Return entries, w', evs) =>
      let '(r, _, w'', evs') := resolve_entries joins entries ∅ w' in
      (r, w'', evs ++ evs')
  end.

End JoinResolver.

(** ** Generators *)

(** A generator that ends: yields and log records, then a normal end or an
    exception. *)
Inductive gen (A : Type) :=
| GDone
| GYield (a : A) (k : gen A)
| GLog (lvl : level) (m : logmsg) (k : gen A)
| GRaise (e : exn).
Arguments GDone {A}.
Arguments GYield {A} a k.
Arguments GLog {A} lvl m k.
Arguments GRaise {A} e.

(** One generator body followed by another. *)
Fixpoint gen_app {A} (g k : gen A) : gen A :=
  match g with
  | GDone => k
  | GYield a g' => GYield a (gen_app g' k)
  | GLog l m g' => GLog l m (gen_app g' k)
  | GRaise e => GRaise e
  end.

(** [for x in g: body(x)] inside a generator body, followed by [k]. *)
Fixpoint gen_for {A B} (g : gen A) (body : A -> gen B) (k : gen B) : gen B :=
  match g with
  | GDone => k
  | GYield a g' => gen_app (body a) (gen_for g' body k)
  | GLog l m g' => GLog l m (gen_for g' body k)
  | GRaise e => GRaise e
  end.

(** [for x in l: body(x)] over a list. *)
Fixpoint gen_for_list {A B} (l : list A) (body : A -> gen B) : gen B :=
  match l with
  | [] => GDone
  | x :: r => gen_app (body x) (gen_for_list r body)
  end.

(** [x = next(g)], then [k x]. A [StopIteration] that leaves a generator
    body is a [RuntimeError] (PEP 479). *)
Fixpoint gen_next {A C} (g : gen A) (k : A -> gen C) : gen C :=
  match g with
  | GDone => GRaise RuntimeError
  | GYield a _ => k a
  | GLog l m g' => GLog l m (gen_next g' k)
  | GRaise e => GRaise e
  end.

(** [try: <g> except ...: <handler>]: the handler runs in place of the
    exception that ends [g]; what it raises is not handled again. *)
Fixpoint gen_catch {A} (g : gen A) (handler : exn -> gen A) : gen A :=
  match g with
  | GDone => GDone
  | GYield a g' => GYield a (gen_catch g' handler)
  | GLog l m g' => GLog l m (gen_catch g' handler)
  | GRaise e => handler e
  end.

(** What a consumer that runs the generator to its end has seen. *)
Fixpoint yields {A} (g : gen A) : list A :=
  match g with
  | GYield a g' => a :: yields g'
  | GLog _ _ g' => yields g'
  | _ => []
  end.

Fixpoint gen_logs {A} (g : gen A) : list event :=
  match g with
  | GYield _ g' => gen_logs g'
  | GLog l m g' => EvLog l m :: gen_logs g'
  | _ => []
  end.

Fixpoint gen_end {A} (g : gen A) : option exn :=
  match g with
  | GDone => None
  | GYield _ g' => gen_end g'
  | GLog _ _ g' => gen_end g'
  | GRaise e => Some e
  end.

(** A generator body that yields the elements of a list. *)
Definition gen_of_list {A} (l : list A) : gen A :=
  fold_right GYield GDone l.

(** [try: xs = [f(x) for x in g] except ...: <handler>], then [k xs]:
    only the run of [g] is protected, the continuation is not. With
    [GRaise] as the handler this is the bare comprehension. *)
Fixpoint gen_collect_try {A B C} (g : gen A) (f : A -> B) (acc : list B)
    (handler : exn -> gen C) (k : list B -> gen C) : gen C :=
  match g with
  | GDone => k acc
  | GYield a g' => gen_collect_try g' f (acc ++ [f a]) handler k
  | GLog l m g' => GLog l m (gen_collect_try g' f acc handler k)
  | GRaise e => handler e
  end.

(** ** Roles *)

Inductive opt_value :=
| OBool (b : bool)
| OStr (s : string).

#[global] Instance opt_value_eq_dec : EqDecision opt_value.
Proof. solve_decision. Defined.

(** Modelled from the spec: [role.Role] is not in this module. The data
    model of the spec: a name, sets of members and parents, a mapping of
    options, an optional comment. *)
Record Role := {
  name : string;
  members : gset string;
  options : gmap string opt_value;
  parents : gset string;
  comment : option string;
}.

(** Modelled from the spec: the constructor of [role.Role] is not in this
    module. [Role(name=..., members=..., options=..., parents=...,
    comment=...)] makes sets of the lists the rule engine passes. *)
Definition mkRole (n : string) (ms : list string)
    (os : gmap string opt_value) (ps : list string) (c : option string) : Role :=
  {| name := n; members := list_to_set ms; options := os;
     parents := list_to_set ps; comment := c |}.

(** Modelled from the spec: [Role.merge] is not in this module. "Two
    declarations with the same name merge: member/parent sets union; options
    must be structurally equal or merge fails with a conflict error; comment
    is inherited from either side if only one defines it." The conflict is
    the [ValueError] that [inspect_ldap] catches. *)
Definition merge (self other : Role) : result Role :=
  if decide (options self = options other) then
    Return {| name := name self;
              members := members self ∪ members other;
              options := options self;
              parents := parents self ∪ parents other;
              comment := match comment self with
                         | Some c => Some c
                         | None => comment other
                         end |}
  else Raise (ValueError "Two roles have different options.").

(** The collection of roles, keyed by name ([RoleSet], and the [ldaproles]
    dictionary, whose keys are roles compared by name). *)
Abbreviation RoleSet := (@gmap string String.eq_dec String.countable Role).

(** A role rule of the sync map: the keyword arguments of
    [process_ldap_entry], and [on_unexpected_dn]. An absent [members] or
    [parents] is the empty list, an absent [options] the empty mapping. *)
Record RoleRule := {
  rule_names : list string;
  rule_members : list string;
  rule_parents : list string;
  rule_options : gmap string opt_value;
  rule_comment : option string;
  rule_on_unexpected_dn : option string;
}.

(** Template expansion, [ldap.expand_attributes(entry, formats)]: a
    generator of strings, over an entry or over [None] when the mapping has
    no directory query. It is not in this module. *)
Class Templates := {
  expand_attributes : option JEntry -> list string -> gen string;
}.

Section RoleRules.
Context `{!Templates}.

(** [if comment: comment = next(expand_attributes(entry, [comment]))]. *)
Definition expand_comment {C} (entry : option JEntry) (c : option string)
    (k : option string -> gen C) : gen C :=
  match c with
  | Some (String a r) =>
      gen_next (expand_attributes entry [String a r]) (fun x => k (Some x))
  | _ => k c
  end.

(** [if l: logger.debug(...)]. *)
Definition log_unless_empty {A} (l : list string) (m : logmsg) (g : gen A)
  : gen A :=
  match l with
  | [] => g
  | _ :: _ => GLog Debug m g
  end.

(** The body of [for name in expand_attributes(entry, names)]. The source
    of the log line reads [entry[0]] when the name is not a literal of the
    rule, which raises on the [None] entry. *)
Definition yield_role (entry : option JEntry) (rule : RoleRule)
    (ms ps : list string) (c : option string) (n : string) : gen Role :=
  match (if existsb (String.eqb n) (rule_names rule) then Some "YAML"
         else option_map fst entry) with
  | None => GRaise TypeError
  | Some source =>
      let log_source := (" from " ++ source)%string in
      let n := str_lower n in
      GLog Debug (FoundRole n log_source)
        (log_unless_empty ms (RoleMembers n (join_comma ms))
           (log_unless_empty ps (RoleParents n (join_comma ps))
              (GYield (mkRole n ms (rule_options rule) ps c) GDone)))
  end.

Definition process_ldap_entry (entry : option JEntry) (rule : RoleRule)
  : gen Role :=
  gen_collect_try (expand_attributes entry (rule_members rule)) str_lower []
    GRaise (fun ms =>
  gen_collect_try (expand_attributes entry (rule_parents rule)) str_lower []
    GRaise (fun ps =>
  expand_comment entry (rule_comment rule) (fun c =>
  gen_for (expand_attributes entry (rule_names rule))
    (yield_role entry rule ms ps c) GDone))).

(** The [except] clauses of [apply_role_rules]. *)
Definition on_expansion_error (on_unexpected_dn : string)
    (entry : option JEntry) (e : exn) : gen Role :=
  match e with
  | RDNError dn =>
      if String.eqb "ignore" on_unexpected_dn then GDone
      else if String.eqb "warn" on_unexpected_dn then
        GLog Warning (LogUnexpectedDN dn) GDone
      else GRaise (UserError (MsgUnexpectedDN dn))
  | ValueError msg =>
      match entry with
      | Some en => GRaise (UserError (FailedProcessRole (str_take 48 (fst en)) msg))
      | None => GRaise TypeError
      end
  | _ => GRaise e
  end.

Definition apply_role_rules (rules : list RoleRule)
    (entries : list (option JEntry)) : gen Role :=
  gen_for_list rules (fun rule =>
    let on_unexpected_dn :=
      match rule_on_unexpected_dn rule with Some p => p | None => "fail" end in
    gen_for_list entries (fun entry =>
      gen_catch (process_ldap_entry entry rule)
        (on_expansion_error on_unexpected_dn entry))).

End RoleRules.

(** ** Grant rules *)

(** A grant rule of the sync map; [None] is an absent key. *)
Record GrantRule := {
  grant_privilege : option string;
  grant_databases : option pyval;
  grant_schemas : option pyval;
  grant_role_match : option string;
  grant_roles : list string;
}.

(** [fnmatch.fnmatch(name, pattern)] of the standard library. *)
Class Glob := {
  fnmatch : string -> string -> bool;
}.

Section GrantRules.
Context `{!Templates} `{!Glob}.

(** [databases = rule.get('databases', '__all__')], the sentinel for
    ['__all__']. *)
Definition resolve_databases (rule : GrantRule) : dbsel :=
  let databases :=
    match grant_databases rule with Some v => v | None => PStr "__all__" end in
  match databases with
  | PStr "__all__" => ALL_DATABASES
  | v => Databases v
  end.

(** [schemas = rule.get('schemas', '__all__')], [None] when it is in
    [(None, '__all__', '__any__')]. *)
Definition resolve_schemas (rule : GrantRule) : option pyval :=
  let schemas :=
    match grant_schemas rule with Some v => v | None => PStr "__all__" end in
  match schemas with
  | PNone => None
  | PStr "__all__" => None
  | PStr "__any__" => None
  | v => Some v
  end.

(** [if pattern and not fnmatch(role, pattern)]: an absent or empty pattern
    filters nothing. *)
Definition skipped_by (pattern : option string) (r : string) : option string :=
  match pattern with
  | Some (String a p) =>
      if fnmatch r (String a p) then None else Some (String a p)
  | _ => None
  end.

(** The body of [for role in roles]. *)
Definition yield_grant (rule : GrantRule) (r : string) : gen Grant :=
  let r := str_lower r in
  match skipped_by (grant_role_match rule) r with
  | Some pattern =>
      GLog Debug (DontGrant (grant_privilege rule) r pattern) GDone
  | None =>
      GYield {| privilege := grant_privilege rule;
                databases := resolve_databases rule;
                schemas := resolve_schemas rule;
                role := r |} GDone
  end.

Definition on_grant_expansion_error (e : exn) : gen Grant :=
  match e with
  | ValueError msg => GRaise (UserError (FailedProcessGrant msg))
  | _ => GRaise e
  end.

Definition apply_grant_rules (grant : list GrantRule)
    (entries : list (option JEntry)) : gen Grant :=
  gen_for_list grant (fun rule =>
    gen_for_list entries (fun entry =>
      gen_collect_try (expand_attributes entry (grant_roles rule))
        (fun x => x) [] on_grant_expansion_error
        (fun roles => gen_for_list roles (yield_grant rule)))).

End GrantRules.

(** ** Desired-state aggregator *)

(** The access-control collection, the inspector, the statement runner and
    the diffing of [role.py], [privilege.py] and [psql.py]: none is in this
    module. [Privilege] is what the configured [privileges] map a name to. *)
Class Cluster (W : Type) := {
  Acl : Type;
  Dbs : Type;
  Schemas : Type;
  Queries : Type;
  Privilege : Type;
  new_acl : Acl;
  acl_add : Grant -> Acl -> result Acl;
  fill_with_defaults : gmap string opt_value -> gmap string opt_value;
  fetch_me : W -> result (string * bool) * W;
  roles_blacklist : W -> list string;
  roles_blacklist_append : string -> W -> W;
  match_ : string -> list string -> bool;
  filter_super_columns : W -> W;
  fetch_roles : W -> result (Dbs * RoleSet * RoleSet) * W;
  filter_roles : RoleSet -> RoleSet -> W -> result (RoleSet * RoleSet) * W;
  resolve_membership : RoleSet -> result RoleSet;
  roles_diff : RoleSet -> RoleSet -> RoleSet -> Queries;
  expandqueries : forall {T}, Queries -> T -> Queries;
  run_queries : Queries -> W -> result Z * W;
  dry : W -> bool;
  fetch_schemas : Dbs -> RoleSet -> W -> result Schemas * W;
  fetch_grants : Schemas -> RoleSet -> W -> result Acl * W;
  expandgrants : Acl -> pydict (list string) -> pydict Privilege -> Schemas ->
                 gen Grant;
  acl_diff : Acl -> Acl -> pydict Privilege -> Queries;
}.

(** The [ldap] key of a mapping: the arguments of [query_ldap]. *)
Record LdapQuery := {
  q_base : string;
  q_filter : string;
  q_attributes : list string;
  q_joins : pydict Join;
  q_scope : Z;
}.

(** A mapping of the sync map. *)
Record Mapping := {
  map_ldap : option LdapQuery;
  map_roles : list RoleRule;
  map_grant : list GrantRule;
}.

Section Aggregator.
Context {W : Type} `{!LdapConn W} `{!Codec} `{!Templates} `{!Glob} `{!Cluster W}.

(** [for role in self.apply_role_rules(...)] of [inspect_ldap], consuming
    the generator: a role already known is merged with the stored one (the
    incoming role is [self]) and replaces it. *)
Fixpoint aggregate_roles (g : gen Role) (ldaproles : RoleSet)
  : result RoleSet * list event :=
  match g with
  | GDone => (Return ldaproles, [])
  | GRaise e => (Raise e, [])
  | GLog l m k =>
      let '(r, evs) := aggregate_roles k ldaproles in (r, EvLog l m :: evs)
  | GYield r k =>
      match ldaproles !! name r with
      | Some known =>
          match merge r known with
          | Raise (ValueError _) => (Raise (UserError (RoleRedefined (name r))), [])
          | Raise e => (Raise e, [])
          | Return r' => aggregate_roles k (<[name r' := r']> ldaproles)
          end
      | None => aggregate_roles k (<[name r := r]> ldaproles)
      end
  end.

(** [for grant in grants] of [inspect_ldap]. *)
Fixpoint aggregate_grants (g : gen Grant) (log_source : string) (ldapacl : Acl)
  : result Acl * list event :=
  match g with
  | GDone => (Return ldapacl, [])
  | GRaise e => (Raise e, [])
  | GLog l m k =>
      let '(r, evs) := aggregate_grants k log_source ldapacl in
      (r, EvLog l m :: evs)
  | GYield grant k =>
      match acl_add grant ldapacl with
      | Raise e => (Raise e, [EvLog Debug (FoundGrant grant log_source)])
      | Return ldapacl' =>
          let '(r, evs) := aggregate_grants k log_source ldapacl' in
          (r, EvLog Debug (FoundGrant grant log_source) :: evs)
      end
  end.

(** The entries of a mapping and the source named in its log lines. *)
Definition mapping_entries (mapping : Mapping) (w : W)
  : result (list (option JEntry) * string) * W * list event :=
  match map_ldap mapping with
  | Some q =>
      match query_ldap (q_base q) (q_filter q) (q_attributes q) (q_joins q)
              (q_scope q) w with
      | (Raise e, w', evs) =>
          (Raise e, w',
           EvLog Info (QueryingLDAP (str_take 24 (q_base q))
                         (str_take 12 (remove_newlines (q_filter q)))) :: evs)
      | (Return entries, w', evs) =>
          (Return (map Some entries, "in LDAP"), w',
           EvLog Info (QueryingLDAP (str_take 24 (q_base q))
                         (str_take 12 (remove_newlines (q_filter q)))) :: evs)
      end
  | None => (Return ([None], "from YAML"), w, [])
  end.

(** [for mapping in syncmap]. *)
Fixpoint inspect_mappings (syncmap : list Mapping) (ldaproles : RoleSet)
    (ldapacl : Acl) (w : W) : result (RoleSet * Acl) * W * list event :=
  match syncmap with
  | [] => (Return (ldaproles, ldapacl), w, [])
  | mapping :: rest =>
      match mapping_entries mapping w with
      | (Raise e, w1, evs1) => (Raise e, w1, evs1)
      | (Return (entries, log_source), w1, evs1) =>
          match aggregate_roles
                  (apply_role_rules (map_roles mapping) entries) ldaproles with
          | (Raise e, evs2) => (Raise e, w1, evs1 ++ evs2)
          | (Return ldaproles', evs2) =>
              match aggregate_grants
                      (apply_grant_rules (map_grant mapping) entries)
                      log_source ldapacl with
              | (Raise e, evs3) => (Raise e, w1, evs1 ++ evs2 ++ evs3)
              | (Return ldapacl', evs3) =>
                  let '(r, w2, evs4) :=
                    inspect_mappings rest ldaproles' ldapacl' w1 in
                  (r, w2, evs1 ++ evs2 ++ evs3 ++ evs4)
              end
          end
      end
  end.

(** [role.options.fill_with_defaults()]. *)
Definition with_defaults (r : Role) : Role :=
  {| name := name r; members := members r;
     options := fill_with_defaults (options r);
     parents := parents r; comment := comment r |}.

Definition inspect_ldap (syncmap : list Mapping) (w : W)
  : result (RoleSet * Acl) * W * list event :=
  match inspect_mappings syncmap ∅ new_acl w with
  | (Raise e, w', evs) => (Raise e, w', evs)
  | (Return (ldaproles, ldapacl), w', evs) =>
      (Return (with_defaults <$> ldaproles, ldapacl), w', evs)
  end.

End Aggregator.

(** ** Reconciliation orchestrator *)

(** Computations of the orchestrator: a result, the new world and the
    events caused, in order. *)
Definition M (W A : Type) : Type := W -> result A * W * list event.

Definition ret {W A} (a : A) : M W A := fun w => (Return a, w, []).

Definition bind {W A B} (m : M W A) (f : A -> M W B) : M W B :=
  fun w =>
    match m w with
    | (Raise e, w', evs) => (Raise e, w', evs)
    | (Return a, w', evs) =>
        let '(r, w'', evs') := f a w' in (r, w'', evs ++ evs')
    end.

Declare Scope sync_scope.
Delimit Scope sync_scope with sync.
Notation "'let*' p ':=' m 'in' k" := (bind m (fun x => let 'p := x in k))
  (at level 10, p pattern, m at level 100, k at level 200) : sync_scope.

(** [logger.<lvl>(...)]. *)
Definition log {W} (lvl : level) (m : logmsg) : M W unit :=
  fun w => (Return tt, w, [EvLog lvl m]).

(** A call of a collaborator, recorded as [ev]. *)
Definition call {W A} (ev : event) (f : W -> result A * W) : M W A :=
  fun w => let '(r, w') := f w in (r, w', [ev]).

(** A call of [psql.run_queries], recorded with what it returned. *)
Definition ran {W} (ev : result Z -> event) (f : W -> result Z * W) : M W Z :=
  fun w => let '(r, w') := f w in (r, w', [ev r]).

Definition modify {W} (f : W -> W) : M W unit :=
  fun w => (Return tt, f w, []).

Definition read {W A} (f : W -> A) : M W A :=
  fun w => (Return (f w), w, []).

Definition lift {W A} (r : result A) : M W A := fun w => (r, w, []).

(** [try: <m> except ValueError as e: raise UserError(e)]. *)
Definition value_error_is_user_error {W A} (m : M W A) : M W A :=
  fun w =>
    match m w with
    | (Raise (ValueError msg), w', evs) => (Raise (UserError (MsgOther msg)), w', evs)
    | other => other
    end.

(** The constructor arguments of [SyncManager] that are configuration. *)
Record Config {W} `{!Cluster W} := {
  privileges : pydict Privilege;
  privilege_aliases : pydict (list string);
}.
Arguments Config W {_}.

Section Orchestrator.
Context {W : Type} `{!LdapConn W} `{!Codec} `{!Templates} `{!Glob} `{!Cluster W}.
Variable self : Config W.

Open Scope sync_scope.

(** [for grant in expanded_grants: acl.add(grant)]. *)
Fixpoint add_grants (g : gen Grant) (acl : Acl) : result Acl * list event :=
  match g with
  | GDone => (Return acl, [])
  | GRaise e => (Raise e, [])
  | GLog l m k => let '(r, evs) := add_grants k acl in (r, EvLog l m :: evs)
  | GYield grant k =>
      match acl_add grant acl with
      | Raise e => (Raise e, [])
      | Return acl' => add_grants k acl'
      end
  end.

Definition postprocess_acl (acl : Acl) (schemas : Schemas) : M W Acl :=
  let expanded_grants :=
    expandgrants acl (privilege_aliases self) (privileges self) schemas in
  value_error_is_user_error
    (fun w => let '(r, evs) := add_grants expanded_grants new_acl in (r, w, evs)).

(** The [if self.privileges:] branch of [sync]. *)
Definition sync_grants (databases : Dbs) (pgmanagedroles ldaproles : RoleSet)
    (ldapacl : Acl) (count : Z) : M W Z :=
  let* _ := log Info InspectingGrants in
  (* [pgmanagedroles.update(ldaproles)]: a role already there stays *)
  let pgmanagedroles := pgmanagedroles ∪ ldaproles in
  let* is_dry := read dry in
  let* _ := (if is_dry && negb (count =? 0)%Z
             then log Warning DryOwnersWarning else ret tt) in
  let* schemas := call EvFetchSchemas (fetch_schemas databases ldaproles) in
  let* pgacl := call EvFetchGrants (fetch_grants schemas pgmanagedroles) in
  let* ldapacl := postprocess_acl ldapacl schemas in
  let* n := ran EvRunGrantQueries
              (run_queries
                 (expandqueries (acl_diff pgacl ldapacl (privileges self))
                    schemas)) in
  ret (count + n)%Z.

(** The non-superuser branch: a warning, then
    [RoleOptions.filter_super_columns()]. *)
Definition downgrade_options : M W unit :=
  let* _ := log Warning NonSuperuser in modify filter_super_columns.

(** [sync] up to the first [count +=]: the inspection of the cluster and
    of the directory, and the queries of the diff of the roles. *)
Definition sync_roles (syncmap : list Mapping)
  : M W (Dbs * RoleSet * RoleSet * Acl * Z) :=
  let* _ := log Info InspectingRoles in
  let* (me, issuper) := call EvFetchMe fetch_me in
  let* blacklist := read roles_blacklist in
  let* _ := (if match_ me blacklist then ret tt
             else modify (roles_blacklist_append me)) in
  let* _ := (if issuper then ret tt else downgrade_options) in
  let* (databases, pgallroles, pgmanagedroles) :=
    call EvFetchRoles fetch_roles in
  let* (pgallroles, pgmanagedroles) :=
    call EvFilterRoles (filter_roles pgallroles pgmanagedroles) in
  let* _ := log Debug RolesInspectionDone in
  let* (ldaproles, ldapacl) := inspect_ldap syncmap in
  let* _ := log Debug LdapInspectionDone in
  let* ldaproles :=
    value_error_is_user_error (lift (resolve_membership ldaproles)) in
  let* n := ran EvRunRoleQueries
              (run_queries
                 (expandqueries (roles_diff pgmanagedroles ldaproles pgallroles)
                    databases)) in
  ret (databases, pgmanagedroles, ldaproles, ldapacl, (0 + n)%Z).

(** The end of [sync]: the report of the count. *)
Definition report (count : Z) : M W Z :=
  let* _ := (if negb (count =? 0)%Z then
               log (if (count <? 20)%Z then Debug else Info)
                 (GeneratedQueries count)
             else log Info NothingToDo) in
  ret count.

Definition sync (syncmap : list Mapping) : M W Z :=
  let* (databases, pgmanagedroles, ldaproles, ldapacl, count) :=
    sync_roles syncmap in
  let* count :=
    match privileges self with
    | _ :: _ => sync_grants databases pgmanagedroles ldaproles ldapacl count
    | [] => let* _ := log Debug NoPrivileges in ret count
    end in
  report count.

End Orchestrator.

(** ** Reading event lists *)

(** The nested fetches issued for the pair [(attr, value)]. *)
Definition is_join_of (attr value : string) (ev : event) : bool :=
  match ev with
  | EvJoin a v _ => String.eqb a attr && String.eqb v value
  | _ => false
  end.

Definition is_resolved_join_of (attr value : string) (ev : event) : bool :=
  match ev with
  | EvJoin a v JoinResolved => String.eqb a attr && String.eqb v value
  | _ => false
  end.

Definition nested_fetches (attr value : string) (evs : list event) : nat :=
  length (List.filter (is_join_of attr value) evs).

Definition resolved_fetches (attr value : string) (evs : list event) : nat :=
  length (List.filter (is_resolved_join_of attr value) evs).

(** The events of the privilege phase of [sync]. *)
Definition is_grant_event (ev : event) : bool :=
  match ev with
  | EvFetchSchemas | EvFetchGrants | EvRunGrantQueries _ => true
  | _ => false
  end.

(** ** A small directory, codec, template language and cluster

    Concrete collaborators on which the functions above can be run. *)

(** A codec that decodes 7-bit text and rejects every other byte. *)
Definition decode_7bit (b : bytes) : string + string :=
  if forallb (fun x => (Byte.to_nat x <? 128)%nat) b
  then inr (string_of_list_byte b)
  else inl "invalid start byte".

(** A directory that answers a search by its base alone. *)
Record Directory := {
  dir_tree : pydict (string + list raw_entry);
  dir_blacklist : list string;
  dir_super_columns : bool;
}.

Definition directory_search (base : string) (scope : Z) (filter : string)
    (attributes : list string) (w : Directory)
  : (string + list raw_entry) * Directory :=
  (match dict_get base (dir_tree w) with
   | Some answer => answer
   | None => inl "No such object"
   end, w).

(** [fnmatch] for patterns made of literal characters, [?] and [*]. *)
Fixpoint glob_match_fuel (fuel : nat) (s p : string) : bool :=
  match fuel with
  | O => false
  | S fuel =>
      match p with
      | EmptyString => match s with EmptyString => true | _ => false end
      | String "*"%char p' =>
          glob_match_fuel fuel s p' ||
          match s with
          | EmptyString => false
          | String _ s' => glob_match_fuel fuel s' p
          end
      | String "?"%char p' =>
          match s with
          | EmptyString => false
          | String _ s' => glob_match_fuel fuel s' p'
          end
      | String c p' =>
          match s with
          | EmptyString => false
          | String d s' => Ascii.eqb c d && glob_match_fuel fuel s' p'
          end
      end
  end.

Definition glob_match (s p : string) : bool :=
  glob_match_fuel (S (String.length s + String.length p)) s p.

(** The text of [s] after the prefix [p], when [s] starts with [p]. *)
Fixpoint strip_prefix (p s : string) : option string :=
  match p, s with
  | EmptyString, _ => Some s
  | String a p', String b s' =>
      if Ascii.eqb a b then strip_prefix p' s' else None
  | _, _ => None
  end.

(** The text of [s] before the suffix [q], when [s] ends with [q]. *)
Fixpoint strip_suffix (q s : string) : option string :=
  if String.eqb s q then Some EmptyString
  else match s with
       | EmptyString => None
       | String a s' => option_map (String a) (strip_suffix q s')
       end.

(** The text of [s] up to the first comma. *)
Fixpoint before_comma (s : string) : string :=
  match s with
  | EmptyString => EmptyString
  | String c r => if Ascii.eqb c ","%char then EmptyString
                  else String c (before_comma r)
  end.

(** The values of one format of the small template language:
    ["{attr}"] gives the values of the attribute, ["{attr.cn}"] the [cn] of
    each value read as a DN (an unexpected DN when it does not start with
    [cn=]), any other text is static. An unknown attribute is a
    [ValueError], a field on the [None] entry a [TypeError]. *)
Fixpoint cn_of_values (vs : list (string * subattrs)) : gen string :=
  match vs with
  | [] => GDone
  | (v, _) :: r =>
      match strip_prefix "cn=" v with
      | Some rest => GYield (before_comma rest) (cn_of_values r)
      | None => GRaise (RDNError v)
      end
  end.

Definition expand_format (entry : option JEntry) (f : string) : gen string :=
  match strip_prefix "{" f with
  | None => GYield f GDone
  | Some body =>
      match strip_suffix "}" body with
      | None => GYield f GDone
      | Some field =>
          match entry with
          | None => GRaise TypeError
          | Some en =>
              match strip_suffix ".cn" field with
              | Some attr =>
                  match dict_get (str_lower attr) (snd en) with
                  | None => GRaise (ValueError ("Unknown attribute " ++ attr))
                  | Some vs => cn_of_values vs
                  end
              | None =>
                  match dict_get (str_lower field) (snd en) with
                  | None => GRaise (ValueError ("Unknown attribute " ++ field))
                  | Some vs => gen_of_list (map fst vs)
                  end
              end
          end
      end
  end.

Definition expand_formats (entry : option JEntry) (formats : list string)
  : gen string :=
  gen_for_list formats (expand_format entry).

(** A cluster of lists: a query is a line of text, running a batch counts
    its lines. *)
Definition run_lines (qs : list string) (w : Directory)
  : result Z * Directory := (Return (Z.of_nat (length qs)), w).

Definition role_lines (managed desired available : RoleSet) : list string :=
  map (fun n => "CREATE ROLE " ++ n)%string
    (List.filter (fun n => bool_decide (managed !! n = None))
       (map fst (map_to_list desired))).

Definition grant_lines (actual desired : list Grant) (ps : pydict unit)
  : list string :=
  map (fun g => "GRANT TO " ++ role g)%string desired.

Definition directory_conn : LdapConn Directory :=
  {| search_s := directory_search |}.

Definition codec_7bit : Codec := {| decode := decode_7bit |}.

Definition small_templates : Templates :=
  {| expand_attributes := expand_formats |}.

Definition small_glob : Glob := {| fnmatch := glob_match |}.

Definition list_cluster : Cluster Directory :=
  {| Acl := list Grant;
     Dbs := list string;
     Schemas := pydict (list string);
     Queries := list string;
     Privilege := unit;
     new_acl := [];
     acl_add := fun g acl => Return (acl ++ [g]);
     fill_with_defaults := fun o => o;
     fetch_me := fun w => (Return ("postgres", true), w);
     roles_blacklist := dir_blacklist;
     roles_blacklist_append := fun me w =>
       {| dir_tree := dir_tree w;
          dir_blacklist := dir_blacklist w ++ [me];
          dir_super_columns := dir_super_columns w |};
     match_ := fun me l => existsb (String.eqb me) l;
     filter_super_columns := fun w =>
       {| dir_tree := dir_tree w;
          dir_blacklist := dir_blacklist w;
          dir_super_columns := false |};
     fetch_roles := fun w => (Return (["postgres"], ∅, ∅), w);
     filter_roles := fun all managed w => (Return (all, managed), w);
     resolve_membership := fun rs => Return rs;
     roles_diff := role_lines;
     expandqueries := fun _ qs _ => qs;
     run_queries := run_lines;
     dry := fun _ => false;
     fetch_schemas := fun dbs _ w =>
       (Return (map (fun d => (d, ["public"])) dbs), w);
     fetch_grants := fun _ _ w => (Return [], w);
     expandgrants := fun acl _ _ _ => gen_of_list acl;
     acl_diff := grant_lines |}.

(** ** Vocabulary of the statements *)

(** The raw results the fetcher keeps: those with a DN. *)
Fixpoint retained (raw_entries : list raw_entry)
  : list (bytes * pydict (list bytes)) :=
  match raw_entries with
  | [] => []
  | (dn, attributes) :: rest =>
      match has_dn dn with
      | Some dn => (dn, attributes) :: retained rest
      | None => retained rest
      end
  end.

(** What the fetcher makes of a retained result: the [dn] attribute added,
    then decoding, then lower-casing of the attribute names. *)
Definition normalize `{!Codec} (re : bytes * pydict (list bytes))
  : string + Entry :=
  match decode_value (fst re, dict_set "dn" [fst re] (snd re)) with
  | inl e => inl e
  | inr entry => inr (lower_attributes entry)
  end.

(** The values of a list of outcomes when none is an error. *)
Fixpoint all_right {E A} (l : list (E + A)) : option (list A) :=
  match l with
  | [] => Some []
  | inl _ :: _ => None
  | inr a :: r => option_map (cons a) (all_right r)
  end.

(** A raw attribute map is well named when its keys are unique, as in any
    dictionary, and none but ["dn"] itself lower-cases to ["dn"]. *)
Definition well_named {V} (attributes : pydict V) : Prop :=
  List.NoDup (dict_keys attributes) /\
  forall k, In k (dict_keys attributes) -> str_lower k = "dn" -> k = "dn".

(** How the sub-attributes attached to a value [v] of the attribute [a]
    come about: empty without a join; the value itself as [dn] for a join
    without attributes; otherwise updated with the attributes of the first
    entry of a nested fetch based at [v], issued in a world that satisfies
    [Inv]. *)
Inductive attached {W} `{!LdapConn W} `{!Codec} (Inv : W -> Prop)
    (joins : pydict Join) : string -> string -> subattrs -> Prop :=
| attached_plain a v :
    dict_get a joins = None -> attached Inv joins a v []
| attached_short a v j :
    dict_get a joins = Some j -> j_attributes j = [] ->
    attached Inv joins a v [("dn", [v])]
| attached_fetched a v j w w' evs first others :
    dict_get a joins = Some j -> j_attributes j <> [] -> Inv w ->
    _query_ldap v (j_filter j) (j_attributes j) (j_scope j) w
      = (Return (first :: others), w', evs) ->
    attached Inv joins a v (dict_update [("dn", [v])] (snd first)).

(** No nested fetch for a pair follows a resolved one. *)
Fixpoint no_refetch (evs : list event) : Prop :=
  match evs with
  | [] => True
  | EvJoin a v JoinResolved :: r => nested_fetches a v r = 0%nat /\ no_refetch r
  | _ :: r => no_refetch r
  end.

(** ** Sample data *)

Definition b (s : string) : bytes := list_byte_of_string s.

(** A search under [ou=people] answers a referral and one entry. *)
Definition people_dir : Directory :=
  {| dir_tree :=
       [("ou=people",
         inr [(None, []);
              (Some (b "cn=alice,ou=people"), [("CN", [b "alice"])])])];
     dir_blacklist := [];
     dir_super_columns := true |}.

(** The invariant of worlds that holds of every world. *)
Definition any_world {W} : W -> Prop := fun _ => True.

(** The cache holds nothing but what [attached] explains, and no empty
    dictionary. *)
Definition cache_good {W} `{!LdapConn W} `{!Codec} (Inv : W -> Prop)
    (joins : pydict Join) (c : join_cache) : Prop :=
  forall a v sub,
    c !! (a, v) = Some sub -> sub <> [] /\ attached Inv joins a v sub.

(** What a stretch of the join resolver that starts with the cache [c],
    causes the events [evs] and ends with the cache [c'] guarantees. *)
Record join_run {W} `{!LdapConn W} `{!Codec} (Inv : W -> Prop)
    (joins : pydict Join) (c : join_cache) (evs : list event)
    (c' : join_cache) : Prop := {
  run_good : cache_good Inv joins c';
  run_mono : forall k, is_Some (c !! k) -> is_Some (c' !! k);
  run_cached : forall a v,
    is_Some (c !! (a, v)) -> nested_fetches a v evs = 0%nat;
  run_resolved : forall a v,
    (0 < resolved_fetches a v evs)%nat -> is_Some (c' !! (a, v));
  run_order : no_refetch evs;
  run_joined : forall a v,
    (0 < nested_fetches a v evs)%nat ->
    exists j, dict_get a joins = Some j /\ j_attributes j <> [];
}.

(** The result of the join resolver read against its input: each value
    kept for the attribute [a] is one of the values fetched and its
    sub-attributes are [attached]; under a join without attributes no value
    is dropped and each carries only [dn]; without a join no value is
    dropped and each carries nothing. *)
Definition values_attached {W} `{!LdapConn W} `{!Codec} (Inv : W -> Prop)
    (joins : pydict Join) (a : string) (values : list string)
    (vals : list (string * subattrs)) : Prop :=
  Forall (fun p => In (fst p) values /\ attached Inv joins a (fst p) (snd p))
         vals
  /\ (forall j, dict_get a joins = Some j -> j_attributes j = [] ->
        vals = map (fun v => (v, [("dn", [v])])) values)
  /\ (dict_get a joins = None -> vals = map (fun v => (v, [])) values).

Definition attrs_attached {W} `{!LdapConn W} `{!Codec} (Inv : W -> Prop)
    (joins : pydict Join) (items : pydict (list string))
    (d : pydict (list (string * subattrs))) : Prop :=
  Forall2 (fun item out =>
             fst out = fst item
             /\ values_attached Inv joins (fst item) (snd item) (snd out))
          items d.

Definition entries_attached {W} `{!LdapConn W} `{!Codec} (Inv : W -> Prop)
    (joins : pydict Join) (entries : list Entry) (jentries : list JEntry)
  : Prop :=
  Forall2 (fun e je =>
             fst je = fst e /\ attrs_attached Inv joins (snd e) (snd je))
          entries jentries.

(** Two groups share their members: [alice] has an entry, a search based
    at [ghost] answers nothing, one based at [gone] fails. *)
Definition groups_dir : Directory :=
  {| dir_tree :=
       [("ou=groups",
         inr [(Some (b "cn=dba,ou=groups"),
               [("member", [b "cn=alice,ou=people"; b "cn=ghost,ou=people";
                            b "cn=gone,ou=people"])]);
              (Some (b "cn=ops,ou=groups"),
               [("member", [b "cn=alice,ou=people"; b "cn=ghost,ou=people";
                            b "cn=gone,ou=people"])])]);
        ("cn=alice,ou=people",
         inr [(Some (b "cn=alice,ou=people"),
               [("sAMAccountName", [b "alice"])])]);
        ("cn=ghost,ou=people", inr [])];
     dir_blacklist := [];
     dir_super_columns := true |}.

Definition member_join : pydict Join :=
  [("member", {| j_filter := "(objectClass=*)";
                 j_attributes := ["sAMAccountName"];
                 j_scope := 0 |})].

(** A join that names no attribute to fetch. *)
Definition bare_member_join : pydict Join :=
  [("member", {| j_filter := "(objectClass=*)";
                 j_attributes := [];
                 j_scope := 0 |})].

(** The groups fetched with their members joined. *)
Definition groups_run : result (list JEntry) * Directory * list event :=
  @query_ldap Directory directory_conn codec_7bit
    "ou=groups" "(objectClass=*)" ["member"] member_join 2 groups_dir.

(** The same fetch under the join that names no attribute. *)
Definition bare_groups_run : result (list JEntry) * Directory * list event :=
  @query_ldap Directory directory_conn codec_7bit
    "ou=groups" "(objectClass=*)" ["member"] bare_member_join 2 groups_dir.

(** ** Vocabulary for the rule engines *)

(** What a generator yields and logs before it ends, without its end. *)
Definition gen_prefix {A} (g : gen A) : gen A := gen_catch g (fun _ => GDone).

(** What [apply_role_rules] still has to do once it is done with the first
    entry under the first rule: the other entries under that rule, then the
    other rules over all entries. *)
Definition remaining_run `{!Templates} (rule : RoleRule) (rules : list RoleRule)
    (entry : option JEntry) (rest : list (option JEntry)) : gen Role :=
  gen_app (apply_role_rules [rule] rest) (apply_role_rules rules (entry :: rest)).

(** A stored declaration [r'] retains the declaration [r]. *)
Definition retains (r' r : Role) : Prop :=
  name r' = name r /\ members r ⊆ members r' /\ parents r ⊆ parents r'
  /\ options r' = options r.

(** A team whose second member is not named by a [cn]. *)
Definition team : JEntry :=
  ("cn=team,ou=groups",
   [("member", [("cn=alice,ou=people", []); ("uid=bob,ou=people", []);
                ("cn=carol,ou=people", [])]);
    ("dn", [("cn=team,ou=groups", [])])]).

Definition crew : JEntry :=
  ("cn=crew,ou=groups",
   [("member", [("cn=dave,ou=people", [])]);
    ("dn", [("cn=crew,ou=groups", [])])]).

(** One role per member, named by the member's [cn]. *)
Definition member_rule (policy : option string) : RoleRule :=
  {| rule_names := ["{member.cn}"];
     rule_members := [];
     rule_parents := ["staff"];
     rule_options := {["LOGIN" := OBool true]};
     rule_comment := None;
     rule_on_unexpected_dn := policy |}.

(** A rule that reads an attribute the entries do not have. *)
Definition mail_rule : RoleRule :=
  {| rule_names := ["{mail}"];
     rule_members := [];
     rule_parents := [];
     rule_options := ∅;
     rule_comment := None;
     rule_on_unexpected_dn := None |}.

(** The table of aggregated roles files each role under its name. *)
Definition keyed_by_name (m : RoleSet) : Prop :=
  forall n r, m !! n = Some r -> name r = n.

(** Two declarations of the role [readers]. *)
Definition readers_of (ms : list string) (os : gmap string opt_value) : Role :=
  mkRole "readers" ms os [] None.

(** The role names a grant rule expands to over the entries, lower-cased,
    in the order of expansion. *)
Definition expanded_roles `{!Templates} (rule : GrantRule)
    (entries : list (option JEntry)) : list string :=
  map str_lower
    (flat_map (fun entry => yields (expand_attributes entry (grant_roles rule)))
       entries).

(** The grant a rule declares for a role name. *)
Definition grant_for `{!Templates} `{!Glob} (rule : GrantRule) (n : string)
  : Grant :=
  {| privilege := grant_privilege rule;
     databases := resolve_databases rule;
     schemas := resolve_schemas rule;
     role := n |}.

(** The rule of the scenario: [role_match] is ["app_*"]. *)
Definition app_rule : GrantRule :=
  {| grant_privilege := Some "ro";
     grant_databases := None;
     grant_schemas := Some (PStr "__any__");
     grant_role_match := Some "app_*";
     grant_roles := ["app_ro"; "admin"] |}.

(** A rule whose [role_match] is the empty pattern. *)
Definition empty_match_rule : GrantRule :=
  {| grant_privilege := Some "ro";
     grant_databases := Some (PList ["appdb"]);
     grant_schemas := Some (PList ["public"]);
     grant_role_match := Some "";
     grant_roles := ["admin"] |}.

(** ** Vocabulary for the orchestrator *)

(** Events none of which belongs to the privilege phase. *)
Definition before_grants (evs : list event) : Prop :=
  Forall (fun ev => is_grant_event ev = false) evs.

(** A computation that causes no event of the privilege phase. *)
Definition calm {W A} (m : M W A) : Prop :=
  forall w r w' evs, m w = (r, w', evs) -> before_grants evs.

(** A sync map with one mapping: the groups of the directory, a role per
    member, the privilege [ro] for the application roles. *)
Definition groups_syncmap : list Mapping :=
  [{| map_ldap := Some {| q_base := "ou=groups"; q_filter := "(objectClass=*)";
                          q_attributes := ["member"]; q_joins := [];
                          q_scope := 2 |};
      map_roles := [member_rule (Some "ignore")];
      map_grant := [app_rule] |}].

Definition no_privileges : @Config Directory list_cluster :=
  @Build_Config Directory list_cluster [] [].

Definition ro_privilege : @Config Directory list_cluster :=
  @Build_Config Directory list_cluster [("ro", tt)] [].

(** The runs of [sync] on the groups, without and with a privilege. *)
Definition plain_sync_run : result Z * Directory * list event :=
  @sync Directory directory_conn codec_7bit small_templates small_glob
    list_cluster no_privileges groups_syncmap groups_dir.

Definition grants_sync_run : result Z * Directory * list event :=
  @sync Directory directory_conn codec_7bit small_templates small_glob
    list_cluster ro_privilege groups_syncmap groups_dir.

(** ** Sample data for the failures of the fetcher *)

(** A search under [ou=staff] answers a referral, an entry that decodes,
    an entry with a byte that is not 7-bit text, and one more entry. *)
Definition staff_dir : Directory :=
  {| dir_tree :=
       [("ou=staff",
         inr [(None, []);
              (Some (b "cn=alice,ou=staff"), [("cn", [b "alice"])]);
              (Some (b "cn=zoe,ou=staff"), [("cn", [[Byte.xe9]])]);
              (Some (b "cn=bob,ou=staff"), [("cn", [b "bob"])])])];
     dir_blacklist := [];
     dir_super_columns := true |}.
(** ** Vocabulary for the runs of the join resolver *)

(** The ways one round of the innermost loop of [query_ldap] goes, for the
    value [value] of the attribute [attr], from the cache [c] in the world
    [w]: the attribute has no join; the pair is cached; the join names no
    attribute to fetch; the nested fetch returns entries, returns none, or
    fails. *)
Inductive value_step {W} `{!LdapConn W} `{!Codec} (joins : pydict Join)
    (attr value : string) (c : join_cache) (w : W)
  : result (option (string * subattrs)) -> join_cache -> W -> list event
    -> Prop :=
| step_plain :
    dict_get attr joins = None ->
    value_step joins attr value c w (Return (Some (value, []))) c w []
| step_cached j sub :
    dict_get attr joins = Some j ->
    c !! (attr, value) = Some sub -> sub <> [] ->
    value_step joins attr value c w (Return (Some (value, sub))) c w []
| step_short j :
    dict_get attr joins = Some j ->
    c !! (attr, value) = None \/ c !! (attr, value) = Some [] ->
    j_attributes j = [] ->
    value_step joins attr value c w
      (Return (Some (value, [("dn", [value])])))
      (<[(attr, value) := [("dn", [value])]]> c) w []
| step_resolved j first others w' evs :
    dict_get attr joins = Some j ->
    c !! (attr, value) = None \/ c !! (attr, value) = Some [] ->
    j_attributes j <> [] ->
    _query_ldap value (j_filter j) (j_attributes j) (j_scope j) w
      = (Return (first :: others), w', evs) ->
    value_step joins attr value c w
      (Return (Some (value, dict_update [("dn", [value])] (snd first))))
      (<[(attr, value) := dict_update [("dn", [value])] (snd first)]> c) w'
      (EvJoin attr value JoinResolved :: evs)
| step_empty j w' evs :
    dict_get attr joins = Some j ->
    c !! (attr, value) = None \/ c !! (attr, value) = Some [] ->
    j_attributes j <> [] ->
    _query_ldap value (j_filter j) (j_attributes j) (j_scope j) w
      = (Return [], w', evs) ->
    value_step joins attr value c w (Return None) c w'
      (EvJoin attr value JoinEmpty :: evs)
| step_failed j m w' evs :
    dict_get attr joins = Some j ->
    c !! (attr, value) = None \/ c !! (attr, value) = Some [] ->
    j_attributes j <> [] ->
    _query_ldap value (j_filter j) (j_attributes j) (j_scope j) w
      = (Raise (UserError m), w', evs) ->
    value_step joins attr value c w (Return None) c w'
      (EvJoin attr value JoinFailed
         :: evs ++ [EvLog Warning (IgnoringJoin value m)]).

(** What [values_with_attrs] gains in one round. *)
Definition kept {A} (o : option A) : list A :=
  match o with Some p => [p] | None => [] end.

(** The number of values an attribute map carries, and a list of entries. *)
Definition count_values {V} (d : pydict (list V)) : nat :=
  fold_right (fun kv n => (length (snd kv) + n)%nat) 0%nat d.

Definition total_values {V} (entries : list (string * pydict (list V))) : nat :=
  fold_right (fun e n => (count_values (snd e) + n)%nat) 0%nat entries.

(** An entry none of whose attributes is joined, after join resolution:
    every value carries the empty mapping. *)
Definition plain_attrs (d : pydict (list string))
  : pydict (list (string * subattrs)) :=
  map (fun kv => (fst kv, map (fun v => (v, [] : subattrs)) (snd kv))) d.

Definition plain_entry (e : Entry) : JEntry := (fst e, plain_attrs (snd e)).

(** The calls of the transport among the events. *)
Definition is_search (ev : event) : bool :=
  match ev with EvSearch _ _ _ _ => true | _ => false end.

Definition searches (evs : list event) : list event :=
  List.filter is_search evs.

(** The search of the nested fetch for some value of some entry under its
    join. *)
Definition join_search_of (joins : pydict Join) (entries : list Entry)
    (ev : event) : Prop :=
  exists e a vs v j,
    In e entries /\ In (a, vs) (snd e) /\ In v vs
    /\ dict_get a joins = Some j /\ j_attributes j <> []
    /\ ev = EvSearch v (j_scope j) (j_filter j) (j_attributes j).

(** Nested fetches that attached nothing, those that failed, and the
    warnings of the join resolver. *)
Definition is_unresolved_join (ev : event) : bool :=
  match ev with
  | EvJoin _ _ JoinEmpty | EvJoin _ _ JoinFailed => true
  | _ => false
  end.

Definition is_failed_join (ev : event) : bool :=
  match ev with EvJoin _ _ JoinFailed => true | _ => false end.

Definition is_ignoring_warning (ev : event) : bool :=
  match ev with EvLog Warning (IgnoringJoin _ _) => true | _ => false end.

(** The cache holds no empty mapping. *)
Definition cache_nonempty (c : join_cache) : Prop :=
  forall k sub, c !! k = Some sub -> sub <> [].

(** What the cache holds, it goes on holding. *)
Definition cache_extends (c c' : join_cache) : Prop :=
  forall k sub, c !! k = Some sub -> c' !! k = Some sub.

(** The mappings attached to the values kept for the attribute [a] are
    empty when [a] has no join, and otherwise the ones the cache holds. *)
Definition recorded (joins : pydict Join) (c : join_cache) (a : string)
    (vals : list (string * subattrs)) : Prop :=
  Forall (fun p => match dict_get a joins with
                   | None => snd p = []
                   | Some _ => c !! (a, fst p) = Some (snd p)
                   end) vals.
(** ** Sample runs of the join resolver *)

(** What the first fetch of [groups_run] returns, and what the run
    returns. *)
Definition groups_entries : list Entry :=
  [("cn=dba,ou=groups",
    [("member", ["cn=alice,ou=people"; "cn=ghost,ou=people";
                 "cn=gone,ou=people"]);
     ("dn", ["cn=dba,ou=groups"])]);
   ("cn=ops,ou=groups",
    [("member", ["cn=alice,ou=people"; "cn=ghost,ou=people";
                 "cn=gone,ou=people"]);
     ("dn", ["cn=ops,ou=groups"])])].

Definition alice_attrs : subattrs :=
  [("dn", ["cn=alice,ou=people"]); ("samaccountname", ["alice"])].

Definition dba_joined : JEntry :=
  ("cn=dba,ou=groups",
   [("member", [("cn=alice,ou=people", alice_attrs)]);
    ("dn", [("cn=dba,ou=groups", [])])]).

Definition ops_joined : JEntry :=
  ("cn=ops,ou=groups",
   [("member", [("cn=alice,ou=people", alice_attrs)]);
    ("dn", [("cn=ops,ou=groups", [])])]).

(** The search of the nested fetch for a member of the groups. *)
Definition member_search (v : string) : event :=
  EvSearch v 0 "(objectClass=*)" ["sAMAccountName"].
(** ** Vocabulary for the roles and grants of an entry *)

(** The comment the roles of an entry get: the rule's comment when it is
    absent or empty, otherwise the first expansion of it. *)
Definition comment_for `{!Templates} (entry : option JEntry) (rule : RoleRule)
  : option string :=
  match rule_comment rule with
  | Some (String a r) => head (yields (expand_attributes entry [String a r]))
  | c => c
  end.

(** The role a rule declares for an expanded name over an entry. *)
Definition role_for `{!Templates} (entry : option JEntry) (rule : RoleRule)
    (n : string) : Role :=
  mkRole (str_lower n)
    (map str_lower (yields (expand_attributes entry (rule_members rule))))
    (rule_options rule)
    (map str_lower (yields (expand_attributes entry (rule_parents rule))))
    (comment_for entry rule).

(** A grant rule that filters no role: its pattern is absent or empty. *)
Definition unfiltered (rule : GrantRule) : Prop :=
  grant_role_match rule = None \/ grant_role_match rule = Some "".

(** A rule that names the members of a group, makes them members of the
    group and documents them. *)
Definition documented_rule : RoleRule :=
  {| rule_names := ["{member.cn}"];
     rule_members := [];
     rule_parents := ["Staff"; "{cn}"];
     rule_options := {["LOGIN" := OBool true]};
     rule_comment := Some "From {dn}";
     rule_on_unexpected_dn := None |}.

Definition squad : JEntry :=
  ("cn=Squad,ou=groups",
   [("member", [("cn=Alice,ou=people", []); ("cn=carol,ou=people", [])]);
    ("cn", [("Squad", [])]);
    ("dn", [("cn=Squad,ou=groups", [])])]).

(** A grant rule whose second format reads an attribute the team does not
    have, and one that reads the members. *)
Definition mail_grant_rule : GrantRule :=
  {| grant_privilege := Some "ro";
     grant_databases := None;
     grant_schemas := None;
     grant_role_match := None;
     grant_roles := ["admin"; "{mail}"] |}.

Definition members_grant_rule : GrantRule :=
  {| grant_privilege := Some "rw";
     grant_databases := Some (PList ["appdb"]);
     grant_schemas := None;
     grant_role_match := None;
     grant_roles := ["{member.cn}"] |}.
(** ** Vocabulary for the aggregator *)

(** Events of the directory side: searches, nested fetches, log records. *)
Definition is_directory_event (ev : event) : bool :=
  match ev with
  | EvSearch _ _ _ _ | EvJoin _ _ _ | EvLog _ _ => true
  | _ => false
  end.

Definition is_log (ev : event) : bool :=
  match ev with EvLog _ _ => true | _ => false end.

(** What a table [m0] and the declarations [ds] say of the role [n]: [x] is
    among the [f] (members, or parents) of the role stored under [n] or of
    a declaration of [n]. *)
Definition declared (f : Role -> gset string) (m0 : RoleSet) (ds : list Role)
    (n x : string) : Prop :=
  (exists r0, m0 !! n = Some r0 /\ x ∈ f r0)
  \/ (exists d, In d ds /\ name d = n /\ x ∈ f d).

(** A sync map without a directory query: one static role, one grant. *)
Definition static_rule : RoleRule :=
  {| rule_names := ["Admin"];
     rule_members := [];
     rule_parents := [];
     rule_options := {["SUPERUSER" := OBool true]};
     rule_comment := None;
     rule_on_unexpected_dn := None |}.

Definition static_syncmap : list Mapping :=
  [{| map_ldap := None;
      map_roles := [static_rule];
      map_grant := [empty_match_rule] |}].

(** Two declarations of the role [readers] that agree on the options. *)
Definition readers_declarations : gen Role :=
  GYield (readers_of ["alice"] ∅)
    (GLog Debug (FoundRole "readers" " from YAML")
       (GYield (readers_of ["bob"] ∅) GDone)).

(** The inspections of the directory under the two sync maps. *)
Definition groups_inspection
  : result (RoleSet * list Grant) * Directory * list event :=
  @inspect_ldap Directory directory_conn codec_7bit small_templates small_glob
    list_cluster groups_syncmap groups_dir.

Definition static_inspection
  : result (RoleSet * list Grant) * Directory * list event :=
  @inspect_ldap Directory directory_conn codec_7bit small_templates small_glob
    list_cluster static_syncmap groups_dir.
(** ** Vocabulary for the runs of [sync] *)

(** The calls of the statement runner among the events. *)
Definition is_run (ev : event) : bool :=
  match ev with
  | EvRunRoleQueries _ | EvRunGrantQueries _ => true
  | _ => false
  end.

(** A computation none of whose events satisfies [p]. *)
Definition silent {W A} (p : event -> bool) (m : M W A) : Prop :=
  forall w r w' evs, m w = (r, w', evs) -> Forall (fun ev => p ev = false) evs.

(** A reader of events that sees nothing of the directory side. *)
Definition blind_to_directory (p : event -> bool) : Prop :=
  forall ev, is_directory_event ev = true -> p ev = false.
(** ** A cluster that knows its privileges *)

(** The expansion of the grants of an access-control list that fails on a
    privilege that is not configured. *)
Definition expand_known (acl : list Grant) (aliases : pydict (list string))
    (privileges : pydict unit) (schemas : pydict (list string)) : gen Grant :=
  gen_for_list acl (fun g =>
    match privilege g with
    | Some p =>
        match dict_get p privileges with
        | Some _ => GYield g GDone
        | None => GRaise (ValueError ("Unknown privilege " ++ p))
        end
    | None => GRaise (ValueError "Unknown privilege")
    end).

(** The cluster of lists, with that expansion. *)
Definition picky_cluster : Cluster Directory :=
  {| Acl := list Grant;
     Dbs := list string;
     Schemas := pydict (list string);
     Queries := list string;
     Privilege := unit;
     new_acl := [];
     acl_add := fun g acl => Return (acl ++ [g]);
     fill_with_defaults := fun o => o;
     fetch_me := fun w => (Return ("postgres", true), w);
     roles_blacklist := dir_blacklist;
     roles_blacklist_append := fun me w =>
       {| dir_tree := dir_tree w;
          dir_blacklist := dir_blacklist w ++ [me];
          dir_super_columns := dir_super_columns w |};
     match_ := fun me l => existsb (String.eqb me) l;
     filter_super_columns := fun w =>
       {| dir_tree := dir_tree w;
          dir_blacklist := dir_blacklist w;
          dir_super_columns := false |};
     fetch_roles := fun w => (Return (["postgres"], ∅, ∅), w);
     filter_roles := fun all managed w => (Return (all, managed), w);
     resolve_membership := fun rs => Return rs;
     roles_diff := role_lines;
     expandqueries := fun _ qs _ => qs;
     run_queries := run_lines;
     dry := fun _ => false;
     fetch_schemas := fun dbs _ w =>
       (Return (map (fun d => (d, ["public"])) dbs), w);
     fetch_grants := fun _ _ w => (Return [], w);
     expandgrants := expand_known;
     acl_diff := grant_lines |}.

Definition picky_ro : @Config Directory picky_cluster :=
  @Build_Config Directory picky_cluster [("ro", tt)] [].

(** The post-processing of a grant of a privilege that is configured and
    of one that is not. *)
Definition rw_postprocessing
  : result (list Grant) * Directory * list event :=
  @postprocess_acl Directory picky_cluster picky_ro
    [{| privilege := Some "ro"; databases := ALL_DATABASES;
        schemas := None; role := "app_ro" |};
     {| privilege := Some "rw"; databases := ALL_DATABASES;
        schemas := None; role := "app_rw" |}]
    [] groups_dir.

(** ** Sample data for the failures the claims leave out *)

(** A rule whose comment reads an attribute, and a group that has the
    attribute without a value. *)
Definition noted_rule : RoleRule :=
  {| rule_names := ["{cn}"];
     rule_members := [];
     rule_parents := [];
     rule_options := ∅;
     rule_comment := Some "{description}";
     rule_on_unexpected_dn := Some "ignore" |}.

Definition plain_group : JEntry :=
  ("cn=plain,ou=groups",
   [("cn", [("plain", [])]);
    ("description", []);
    ("dn", [("cn=plain,ou=groups", [])])]).

(** A template expansion that refuses every format with a [ValueError]. *)
Definition refusing_templates : Templates :=
  {| expand_attributes := fun _ _ => GRaise (ValueError "Unknown attribute") |}.

(** A grant rule with a pattern, whose second format reads an attribute
    the team does not have. *)
Definition prefix_rule : GrantRule :=
  {| grant_privilege := Some "ro";
     grant_databases := None;
     grant_schemas := None;
     grant_role_match := Some "a*";
     grant_roles := ["admin"; "{mail}"] |}.

(** A directory whose entry has attributes named [dn] and [DN]. *)
Definition shadow_dir : Directory :=
  {| dir_tree :=
       [("ou=people",
         inr [(Some (b "cn=eve,ou=people"),
               [("dn", [b "cn=eve,ou=people"]); ("DN", [b "cn=root"])])])];
     dir_blacklist := [];
     dir_super_columns := true |}.

(** * Properties *)

(** ** Dictionaries *)

Lemma dict_get_set_eq {V} (k : string) (v : V) (d : pydict V) :
  dict_get k (dict_set k v d) = Some v.
Proof.
  induction d as [|[k' v'] d IH]; simpl.
  - now rewrite String.eqb_refl.
  - destruct (String.eqb k k') eqn:E; simpl.
    + now rewrite String.eqb_refl.
    + now rewrite E.
Qed.

Lemma dict_get_set_ne {V} (k k' : string) (v : V) (d : pydict V) :
  k <> k' -> dict_get k (dict_set k' v d) = dict_get k d.
Proof.
  intros Hne. induction d as [|[k0 v0] d IH]; simpl.
  - destruct (String.eqb k k') eqn:E; [|reflexivity].
    apply String.eqb_eq in E. contradiction.
  - destruct (String.eqb k' k0) eqn:E; simpl.
    + apply String.eqb_eq in E. subst k0.
      destruct (String.eqb k k') eqn:E'; [|reflexivity].
      apply String.eqb_eq in E'. contradiction.
    + now rewrite IH.
Qed.

Lemma dict_set_not_nil {V} (k : string) (v : V) (d : pydict V) :
  dict_set k v d <> [].
Proof. destruct d as [|[k' v'] d]; simpl; [|destruct (String.eqb k k')]; discriminate. Qed.

Lemma dict_update_not_nil {V} (d other : pydict V) :
  d <> [] -> dict_update d other <> [].
Proof.
  unfold dict_update. revert d.
  induction other as [|[k v] other IH]; simpl; intros d Hd; [exact Hd|].
  apply IH, dict_set_not_nil.
Qed.

(** ** Directory fetcher *)

Section FetcherFacts.
Context {W : Type} `{!LdapConn W} `{!Codec}.

Lemma retained_length (raw : list raw_entry) :
  (length (retained raw) <= length raw)%nat.
Proof.
  induction raw as [|[dn attrs] raw IH]; simpl; [lia|].
  destruct (has_dn dn); simpl; lia.
Qed.

Lemma has_dn_Some (dn : option bytes) (d : bytes) :
  has_dn dn = Some d <-> dn = Some d /\ d <> [].
Proof.
  destruct dn as [[|x r]|]; simpl; split.
  - discriminate.
  - intros [[= <-] Hne]. contradiction.
  - intros [= <-]. split; [reflexivity|discriminate].
  - intros [[= <-] _]. reflexivity.
  - discriminate.
  - intros [[=] _].
Qed.

(** The retained results are exactly the raw results with a DN that is
    not empty. *)
Lemma retained_spec (raw : list raw_entry) (dn : bytes)
    (attrs : pydict (list bytes)) :
  In (dn, attrs) (retained raw) <-> In (Some dn, attrs) raw /\ dn <> [].
Proof.
  induction raw as [|[dn0 attrs0] raw IH]; simpl.
  - tauto.
  - destruct (has_dn dn0) as [d|] eqn:E.
    + apply has_dn_Some in E. destruct E as [-> Hd]. simpl.
      rewrite IH. split.
      * intros [[= <- <-]|[H1 H2]]; auto.
      * intros [[[= -> ->]|H1] H2]; auto.
    + rewrite IH. split.
      * intros [H1 H2]; auto.
      * intros [[[= -> ->]|H1] H2]; auto.
        exfalso. assert (has_dn (Some dn) = Some dn) as E'
          by (apply has_dn_Some; auto).
        congruence.
Qed.

Lemma collect_entries_ok (raw : list raw_entry) (acc es : list Entry) :
  all_right (map normalize (retained raw)) = Some es ->
  collect_entries raw acc =
    (Return (acc ++ es),
     repeat (EvLog Debug DiscardingRef) (length raw - length (retained raw))).
Proof.
  revert acc es.
  induction raw as [|[dn attrs] raw IH]; simpl; intros acc es Hes.
  - injection Hes as <-. now rewrite app_nil_r.
  - destruct (has_dn dn) as [d|] eqn:E.
    + simpl in Hes. unfold normalize in Hes at 1. simpl in Hes.
      destruct (decode_value (d, dict_set "dn" [d] attrs)) as [err|entry];
        [discriminate|].
      destruct (all_right (map normalize (retained raw))) as [es'|] eqn:E';
        [|discriminate].
      injection Hes as <-.
      rewrite (IH _ es' eq_refl). simpl.
      now rewrite <- app_assoc.
    + rewrite (IH acc es Hes).
      pose proof (retained_length raw).
      replace (S (length raw) - length (retained raw))%nat
        with (S (length raw - length (retained raw))) by lia.
      reflexivity.
Qed.

Lemma all_right_length {E A} (l : list (E + A)) (xs : list A) :
  all_right l = Some xs -> length xs = length l.
Proof.
  revert xs. induction l as [|[e|a] l IH]; simpl; intros xs Hx.
  - now injection Hx as <-.
  - discriminate.
  - destruct (all_right l) as [ys|]; [|discriminate].
    injection Hx as <-. simpl. f_equal. now apply IH.
Qed.

(** The events of the fetcher are a search and log records. *)
Lemma collect_entries_events (raw : list raw_entry) (acc : list Entry)
    (r : result (list Entry)) (evs : list event) :
  collect_entries raw acc = (r, evs) ->
  Forall (fun ev => ev = EvLog Debug DiscardingRef) evs.
Proof.
  revert acc r evs.
  induction raw as [|[dn attrs] raw IH]; simpl; intros acc r evs Hc.
  - injection Hc as <- <-. constructor.
  - destruct (has_dn dn) as [d|].
    + destruct (decode_value _) as [err|entry].
      * injection Hc as <- <-. constructor.
      * eapply IH, Hc.
    + destruct (collect_entries raw acc) as [r' evs'] eqn:E.
      injection Hc as <- <-. constructor; [reflexivity|].
      eapply IH, E.
Qed.

Lemma collect_entries_raises (raw : list raw_entry) (acc : list Entry)
    (e : exn) (evs : list event) :
  collect_entries raw acc = (Raise e, evs) -> exists m, e = UserError m.
Proof.
  revert acc evs.
  induction raw as [|[dn attrs] raw IH]; simpl; intros acc evs Hc.
  - discriminate.
  - destruct (has_dn dn) as [d|].
    + destruct (decode_value _) as [err|entry].
      * injection Hc as <- <-. eauto.
      * eapply IH, Hc.
    + destruct (collect_entries raw acc) as [r' evs'] eqn:E.
      injection Hc as -> <-. eapply IH, E.
Qed.

(** [_query_ldap] raises nothing but [UserError]. *)
Lemma _query_ldap_raises base flt attributes scope (w w' : W) e evs :
  _query_ldap base flt attributes scope w = (Raise e, w', evs) ->
  exists m, e = UserError m.
Proof.
  unfold _query_ldap.
  destruct (search_s base scope flt attributes w) as [[err|raw] w1].
  - intros [= <- <- <-]. eauto.
  - destruct (collect_entries raw []) as [r evs'] eqn:E.
    intros [= -> <- <-]. eapply collect_entries_raises, E.
Qed.

(** [_query_ldap] issues no nested fetch of its own. *)
Lemma _query_ldap_no_join base flt attributes scope (w w' : W) r evs a v :
  _query_ldap base flt attributes scope w = (r, w', evs) ->
  List.filter (is_join_of a v) evs = [].
Proof.
  unfold _query_ldap.
  destruct (search_s base scope flt attributes w) as [[err|raw] w1].
  - intros [= <- <- <-]. reflexivity.
  - destruct (collect_entries raw []) as [r' evs'] eqn:E.
    intros [= <- <- <-]. simpl.
    apply collect_entries_events in E.
    induction E as [|ev evs' -> _ IH]; simpl; auto.
Qed.

End FetcherFacts.

Section FetcherClaims.
Context {W : Type} `{!LdapConn W} `{!Codec}.

(** C7 (amended). When the search succeeds and every retained result
    decodes, [_query_ldap] returns the normalised retained results, that is
    the raw results whose DN is neither [None] nor empty, in order; the
    count it logs is the number of raw results received, referrals
    included, followed by one record per referral discarded. *)
Theorem fetcher_discards_referrals_logs_received_count
    base flt attributes scope (w w' : W) raw entries :
  search_s base scope flt attributes w = (inr raw, w') ->
  all_right (map normalize (retained raw)) = Some entries ->
  _query_ldap base flt attributes scope w =
    (Return entries, w',
     EvSearch base scope flt attributes
       :: EvLog Debug (GotEntries (length raw))
       :: repeat (EvLog Debug DiscardingRef)
            (length raw - length (retained raw)))
  /\ length entries = length (retained raw)
  /\ (forall dn attrs,
        In (dn, attrs) (retained raw) <-> In (Some dn, attrs) raw /\ dn <> []).
Proof.
  intros Hs Hd. split; [|split].
  - unfold _query_ldap. rewrite Hs.
    now rewrite (collect_entries_ok raw [] entries Hd).
  - apply all_right_length in Hd. now rewrite length_map in Hd.
  - intros dn attrs. apply retained_spec.
Qed.

End FetcherClaims.

Lemma fetcher_discards_referrals_logs_received_count_witness :
  @_query_ldap Directory directory_conn codec_7bit
     "ou=people" "(objectClass=*)" ["cn"] 2 people_dir =
    (Return [("cn=alice,ou=people",
              [("cn", ["alice"]); ("dn", ["cn=alice,ou=people"])])],
     people_dir,
     [EvSearch "ou=people" 2 "(objectClass=*)" ["cn"];
      EvLog Debug (GotEntries 2);
      EvLog Debug DiscardingRef]).
Proof.
  apply (@fetcher_discards_referrals_logs_received_count
           Directory directory_conn codec_7bit
           "ou=people" "(objectClass=*)" ["cn"] 2 people_dir people_dir
           [(None, []);
            (Some (b "cn=alice,ou=people"), [("CN", [b "alice"])])]
           [("cn=alice,ou=people",
             [("cn", ["alice"]); ("dn", ["cn=alice,ou=people"])])]);
    reflexivity.
Defined.

(** C7, as stated, fails: with a referral among the results the count
    logged is not the number of entries retained. *)
Lemma fetcher_logged_count_is_not_retained_count :
  exists entries evs,
    @_query_ldap Directory directory_conn codec_7bit
       "ou=people" "(objectClass=*)" ["cn"] 2 people_dir
      = (Return entries, people_dir, evs)
    /\ length entries = 1%nat
    /\ In (EvLog Debug (GotEntries 2)) evs
    /\ ~ In (EvLog Debug (GotEntries (length entries))) evs.
Proof.
  eexists. eexists. split; [reflexivity|]. split; [reflexivity|].
  split; [simpl; auto|].
  simpl. intros [H|[H|[H|[]]]]; discriminate.
Qed.

(** ** The [dn] attribute through decoding and lower-casing *)

Section DnAttribute.
Context `{!Codec}.

Lemma lower_fold_other (l acc : pydict (list string)) :
  (forall k, In k (dict_keys l) -> str_lower k <> "dn") ->
  dict_get "dn" (fold_left lower_step l acc) = dict_get "dn" acc.
Proof.
  revert acc. induction l as [|[k v] l IH]; simpl; intros acc Hl; [reflexivity|].
  rewrite IH by (intros k' Hk'; apply Hl; now right).
  unfold lower_step. simpl. apply dict_get_set_ne. intros Heq. apply (Hl k); [now left|now symmetry].
Qed.

Lemma lower_fold_dn (l1 l2 acc : pydict (list string)) (v : list string) :
  (forall k, In k (dict_keys l1) -> str_lower k <> "dn") ->
  (forall k, In k (dict_keys l2) -> str_lower k <> "dn") ->
  dict_get "dn" (fold_left lower_step (l1 ++ ("dn", v) :: l2) acc) = Some v.
Proof.
  intros H1 H2. rewrite fold_left_app. simpl.
  rewrite lower_fold_other by exact H2.
  unfold lower_step. simpl. apply dict_get_set_eq.
Qed.

Lemma decode_attrs_keys (d : pydict (list bytes)) (d' : pydict (list string)) :
  decode_attrs d = inr d' -> dict_keys d' = dict_keys d.
Proof.
  revert d'. induction d as [|[k vs] d IH]; simpl; intros d' Hd.
  - now injection Hd as <-.
  - destruct (decode_list vs) as [e|ss]; [discriminate|].
    destruct (decode_attrs d) as [e|d0]; [discriminate|].
    injection Hd as <-. simpl. f_equal. now apply IH.
Qed.

Lemma decode_attrs_app (l1 l2 : pydict (list bytes)) (d' : pydict (list string)) :
  decode_attrs (l1 ++ l2) = inr d' ->
  exists d1 d2, d' = d1 ++ d2 /\ decode_attrs l1 = inr d1
                /\ decode_attrs l2 = inr d2.
Proof.
  revert d'. induction l1 as [|[k vs] l1 IH]; simpl; intros d' Hd.
  - exists [], d'. auto.
  - destruct (decode_list vs) as [e|ss]; [discriminate|].
    destruct (decode_attrs (l1 ++ l2)) as [e|d0] eqn:E; [discriminate|].
    injection Hd as <-.
    destruct (IH d0 eq_refl) as (d1 & d2 & -> & E1 & E2).
    exists ((k, ss) :: d1), d2. rewrite E1. auto.
Qed.

Lemma dict_set_dn_split {V} (attrs : pydict V) (v : V) :
  well_named attrs ->
  exists l1 l2,
    dict_set "dn" v attrs = l1 ++ ("dn", v) :: l2
    /\ (forall k, In k (dict_keys l1) -> str_lower k <> "dn")
    /\ (forall k, In k (dict_keys l2) -> str_lower k <> "dn").
Proof.
  induction attrs as [|[k0 v0] attrs IH]; intros [Hnd Hdn].
  - exists [], []. simpl. tauto.
  - simpl in Hnd. apply List.NoDup_cons_iff in Hnd as [Hnotin Hnd].
    simpl. destruct (String.eqb "dn" k0) eqn:E.
    + apply String.eqb_eq in E. subst k0.
      exists [], attrs. simpl. split; [reflexivity|]. split; [tauto|].
      intros k Hk Hlow. apply Hnotin.
      rewrite <- (Hdn k); auto. now right.
    + apply String.eqb_neq in E.
      destruct IH as (l1 & l2 & Heq & H1 & H2).
      { split; [exact Hnd|]. intros k Hk. apply Hdn. now right. }
      exists ((k0, v0) :: l1), l2. rewrite Heq. split; [reflexivity|].
      split; [|exact H2].
      intros k [<-|Hk]; [|now apply H1].
      intros Hlow. apply E. symmetry. apply Hdn; [now left|exact Hlow].
Qed.

(** A normalised entry carries its own DN as the single value of [dn]. *)
Lemma normalize_carries_dn (dn : bytes) (attrs : pydict (list bytes))
    (entry : Entry) :
  well_named attrs ->
  normalize (dn, attrs) = inr entry ->
  dict_get "dn" (snd entry) = Some [fst entry].
Proof.
  intros Hwn. unfold normalize, decode_value. simpl.
  destruct (decode dn) as [e|dn'] eqn:Edn; [discriminate|].
  destruct (decode_attrs (dict_set "dn" [dn] attrs)) as [e|attrs'] eqn:Ea;
    [discriminate|].
  intros [= <-]. unfold lower_attributes. simpl.
  destruct (dict_set_dn_split attrs [dn] Hwn) as (l1 & l2 & Heq & H1 & H2).
  rewrite Heq in Ea.
  apply decode_attrs_app in Ea as (d1 & d2 & -> & E1 & E2).
  simpl in E2. rewrite Edn in E2.
  destruct (decode_attrs l2) as [e|d2'] eqn:E2'; [discriminate|].
  injection E2 as <-.
  apply lower_fold_dn.
  - rewrite (decode_attrs_keys _ _ E1). exact H1.
  - rewrite (decode_attrs_keys _ _ E2'). exact H2.
Qed.

Lemma all_right_Forall2 {E A B} (f : B -> E + A) (l : list B) (xs : list A) :
  all_right (map f l) = Some xs -> Forall2 (fun x y => f x = inr y) l xs.
Proof.
  revert xs. induction l as [|x l IH]; simpl; intros xs Hx.
  - injection Hx as <-. constructor.
  - destruct (f x) as [e|a] eqn:Ef; [discriminate|].
    destruct (all_right (map f l)) as [ys|]; [|discriminate].
    injection Hx as <-. constructor; auto.
Qed.

End DnAttribute.

Section FetcherDn.
Context {W : Type} `{!LdapConn W} `{!Codec}.

Lemma collect_entries_result (raw : list raw_entry) (acc es : list Entry)
    (evs : list event) :
  collect_entries raw acc = (Return es, evs) ->
  exists es', es = acc ++ es'
              /\ all_right (map normalize (retained raw)) = Some es'.
Proof.
  revert acc es evs.
  induction raw as [|[dn attrs] raw IH]; simpl; intros acc es evs Hc.
  - injection Hc as <- <-. exists []. now rewrite app_nil_r.
  - destruct (has_dn dn) as [d|] eqn:E.
    + simpl. unfold normalize at 1. simpl.
      destruct (decode_value (d, dict_set "dn" [d] attrs)) as [err|entry];
        [discriminate|].
      apply IH in Hc as (es' & -> & Hr). rewrite Hr. simpl.
      exists (lower_attributes entry :: es'). now rewrite <- app_assoc.
    + destruct (collect_entries raw acc) as [r' evs'] eqn:E'.
      injection Hc as -> <-. eapply IH, E'.
Qed.

(** Every entry the fetcher returns carries its own DN as [dn], when the
    transport's attribute maps are well named. *)
Lemma _query_ldap_carries_dn base flt attributes scope (w w' : W) entries evs :
  (forall raw w1, search_s base scope flt attributes w = (inr raw, w1) ->
                  Forall (fun re => well_named (snd re)) raw) ->
  _query_ldap base flt attributes scope w = (Return entries, w', evs) ->
  Forall (fun entry => dict_get "dn" (snd entry) = Some [fst entry]) entries.
Proof.
  intros Hwn. unfold _query_ldap.
  destruct (search_s base scope flt attributes w) as [[err|raw] w1] eqn:Es;
    [discriminate|].
  destruct (collect_entries raw []) as [r evs'] eqn:E.
  intros [= -> <- <-].
  apply collect_entries_result in E as (es' & -> & Hr). simpl.
  specialize (Hwn raw w1 eq_refl).
  apply all_right_Forall2 in Hr.
  assert (Forall (fun re => well_named (snd re)) (retained raw)) as Hret.
  { apply List.Forall_forall. intros [dn attrs] Hin.
    apply retained_spec in Hin as [Hin _].
    exact (proj1 (List.Forall_forall _ _) Hwn _ Hin). }
  clear Hwn Es.
  induction Hr as [|[dn attrs] entry l es Hn _ IH]; constructor.
  - inversion Hret; subst. eapply normalize_carries_dn; eauto.
  - inversion Hret; subst. auto.
Qed.

End FetcherDn.

(** ** Join resolver *)

Lemma nested_fetches_app a v (e1 e2 : list event) :
  nested_fetches a v (e1 ++ e2) = (nested_fetches a v e1 + nested_fetches a v e2)%nat.
Proof. unfold nested_fetches. now rewrite List.filter_app, length_app. Qed.

Lemma resolved_fetches_app a v (e1 e2 : list event) :
  resolved_fetches a v (e1 ++ e2)
  = (resolved_fetches a v e1 + resolved_fetches a v e2)%nat.
Proof. unfold resolved_fetches. now rewrite List.filter_app, length_app. Qed.

Lemma resolved_le_nested a v (evs : list event) :
  (resolved_fetches a v evs <= nested_fetches a v evs)%nat.
Proof.
  unfold resolved_fetches, nested_fetches.
  induction evs as [|ev evs IH]; simpl; [lia|].
  destruct ev as [| a' v' [| |] | | | | | ? | | | ? ]; simpl; try lia;
    destruct (String.eqb a' a && String.eqb v' v); simpl; lia.
Qed.

Lemma is_join_of_same a v o : is_join_of a v (EvJoin a v o) = true.
Proof. simpl. now rewrite !String.eqb_refl. Qed.

Lemma is_join_of_true a v a' v' o :
  is_join_of a v (EvJoin a' v' o) = true -> a' = a /\ v' = v.
Proof.
  simpl. intros H. apply andb_true_iff in H as [H1 H2].
  apply String.eqb_eq in H1, H2. auto.
Qed.

(** Events without nested fetches. *)
Lemma no_join_nested (evs : list event) a v :
  (forall a v, List.filter (is_join_of a v) evs = []) ->
  nested_fetches a v evs = 0%nat.
Proof. intros H. unfold nested_fetches. now rewrite H. Qed.

Lemma no_join_no_refetch (evs : list event) :
  (forall a v, List.filter (is_join_of a v) evs = []) -> no_refetch evs.
Proof.
  induction evs as [|ev evs IH]; intros H; [exact I|].
  assert (forall a v, List.filter (is_join_of a v) evs = []) as H'.
  { intros a v. specialize (H a v). simpl in H.
    destruct (is_join_of a v ev); [discriminate|exact H]. }
  destruct ev as [| a v o | | | | | ? | | | ? ]; simpl; auto.
  specialize (H a v). simpl in H. rewrite !String.eqb_refl in H. discriminate.
Qed.

Lemma no_join_app (e1 e2 : list event) :
  (forall a v, List.filter (is_join_of a v) e1 = []) ->
  (forall a v, List.filter (is_join_of a v) e2 = []) ->
  forall a v, List.filter (is_join_of a v) (e1 ++ e2) = [].
Proof. intros H1 H2 a v. now rewrite List.filter_app, H1, H2. Qed.

Lemma no_refetch_app (e1 e2 : list event) :
  no_refetch e1 -> no_refetch e2 ->
  (forall a v, (0 < resolved_fetches a v e1)%nat -> nested_fetches a v e2 = 0%nat) ->
  no_refetch (e1 ++ e2).
Proof.
  induction e1 as [|ev e1 IH]; simpl; intros H1 H2 H12; [exact H2|].
  assert (forall a v, (0 < resolved_fetches a v e1)%nat ->
                      nested_fetches a v e2 = 0%nat) as H12'.
  { intros a v Hr. apply H12. unfold resolved_fetches in *. simpl.
    destruct (is_resolved_join_of a v ev); simpl; lia. }
  destruct ev as [| a v [| |] | | | | | ? | | | ? ]; auto.
  destruct H1 as [Hn H1]. split; [|now apply IH].
  rewrite nested_fetches_app, Hn. simpl. apply H12.
  unfold resolved_fetches. simpl. rewrite !String.eqb_refl. simpl. lia.
Qed.

(** After a resolved fetch for a pair, no event is a fetch for it. *)
Lemma no_refetch_split (evs e1 e2 : list event) a v :
  no_refetch evs -> evs = e1 ++ EvJoin a v JoinResolved :: e2 ->
  nested_fetches a v e2 = 0%nat.
Proof.
  revert evs. induction e1 as [|ev e1 IH]; intros evs Hn ->; simpl in Hn.
  - tauto.
  - apply (IH (e1 ++ EvJoin a v JoinResolved :: e2)); [|reflexivity].
    destruct ev as [| a' v' [| |] | | | | | ? | | | ? ]; tauto.
Qed.

Lemma no_refetch_at_most_one (evs : list event) a v :
  no_refetch evs -> (resolved_fetches a v evs <= 1)%nat.
Proof.
  induction evs as [|ev evs IH]; intros Hn; [simpl; unfold resolved_fetches; simpl; lia|].
  unfold resolved_fetches in *. simpl.
  destruct (is_resolved_join_of a v ev) eqn:E; simpl.
  - destruct ev as [| a' v' [| |] | | | | | ? | | | ? ]; try discriminate.
    simpl in E. apply andb_true_iff in E as [E1 E2].
    apply String.eqb_eq in E1, E2. subst a' v'.
    destruct Hn as [Hz _].
    pose proof (resolved_le_nested a v evs) as Hle.
    unfold resolved_fetches in Hle. lia.
  - apply IH. destruct ev as [| a' v' [| |] | | | | | ? | | | ? ]; simpl in Hn; tauto.
Qed.

Section JoinFacts.
Context {W : Type} `{!LdapConn W} `{!Codec}.
Variable Inv : W -> Prop.
Hypothesis Inv_search : forall base scope flt attributes w r w',
  Inv w -> search_s base scope flt attributes w = (r, w') -> Inv w'.
Variable joins : pydict Join.

Lemma _query_ldap_inv base flt attributes scope (w w' : W) r evs :
  Inv w -> _query_ldap base flt attributes scope w = (r, w', evs) -> Inv w'.
Proof.
  intros Hw. unfold _query_ldap.
  destruct (search_s base scope flt attributes w) as [[err|raw] w1] eqn:Es.
  - intros [= <- <- <-]. eapply Inv_search; eauto.
  - destruct (collect_entries raw []) as [r' evs'].
    intros [= <- <- <-]. eapply Inv_search; eauto.
Qed.

Lemma join_run_nil (c : join_cache) :
  cache_good Inv joins c -> join_run Inv joins c [] c.
Proof.
  intros Hc. split; auto.
  - intros a v Hr. unfold resolved_fetches in Hr. simpl in Hr. lia.
  - exact I.
  - intros a v Hn. unfold nested_fetches in Hn. simpl in Hn. lia.
Qed.

Lemma join_run_seq (c c1 c2 : join_cache) (e1 e2 : list event) :
  join_run Inv joins c e1 c1 -> join_run Inv joins c1 e2 c2 ->
  join_run Inv joins c (e1 ++ e2) c2.
Proof.
  intros R1 R2. split.
  - apply R2.
  - intros k Hk. apply (run_mono _ _ _ _ _ R2), (run_mono _ _ _ _ _ R1), Hk.
  - intros a v Hk. rewrite nested_fetches_app.
    rewrite (run_cached _ _ _ _ _ R1 a v Hk).
    rewrite (run_cached _ _ _ _ _ R2 a v); [reflexivity|].
    apply (run_mono _ _ _ _ _ R1), Hk.
  - intros a v Hr. rewrite resolved_fetches_app in Hr.
    destruct (Nat.eq_dec (resolved_fetches a v e1) 0) as [Hz|Hnz].
    + apply (run_resolved _ _ _ _ _ R2). lia.
    + apply (run_mono _ _ _ _ _ R2), (run_resolved _ _ _ _ _ R1). lia.
  - apply no_refetch_app; [apply R1|apply R2|].
    intros a v Hr.
    apply (run_cached _ _ _ _ _ R2), (run_resolved _ _ _ _ _ R1), Hr.
  - intros a v Hn. rewrite nested_fetches_app in Hn.
    destruct (Nat.eq_dec (nested_fetches a v e1) 0) as [Hz|Hnz].
    + apply (run_joined _ _ _ _ _ R2 a v). lia.
    + apply (run_joined _ _ _ _ _ R1 a v). lia.
Qed.

Lemma cache_good_insert (c : join_cache) (a v : string) (sub : subattrs) :
  cache_good Inv joins c -> sub <> [] -> attached Inv joins a v sub ->
  cache_good Inv joins (<[(a, v) := sub]> c).
Proof.
  intros Hc Hne Hat a' v' sub' Hl.
  destruct (decide ((a, v) = (a', v'))) as [Heq|Hneq].
  - injection Heq as <- <-. rewrite lookup_insert_eq in Hl.
    injection Hl as <-. auto.
  - rewrite lookup_insert_ne in Hl by exact Hneq. eapply Hc, Hl.
Qed.

Lemma insert_mono (c : join_cache) (k0 : string * string) (sub : subattrs) (k : string * string) :
  is_Some (c !! k) -> is_Some (<[k0 := sub]> c !! k).
Proof.
  intros Hk. destruct (decide (k0 = k)) as [->|Hne].
  - rewrite lookup_insert_eq. eauto.
  - now rewrite lookup_insert_ne.
Qed.

(** One nested fetch for a pair that was not cached. *)
Lemma fetch_run (c c' : join_cache) (attr value : string) o rest j :
  c !! (attr, value) = None ->
  dict_get attr joins = Some j -> j_attributes j <> [] ->
  (forall a v, List.filter (is_join_of a v) rest = []) ->
  cache_good Inv joins c' ->
  (forall k, is_Some (c !! k) -> is_Some (c' !! k)) ->
  (o = JoinResolved -> is_Some (c' !! (attr, value))) ->
  join_run Inv joins c (EvJoin attr value o :: rest) c'.
Proof.
  intros Hnone Hj Hattrs Hrest Hgood Hmono Hres. split; auto.
  - intros a v Hk. unfold nested_fetches. simpl. rewrite Hrest.
    destruct (String.eqb attr a && String.eqb value v) eqn:E; [|reflexivity].
    apply andb_true_iff in E as [E1 E2]. apply String.eqb_eq in E1, E2.
    subst a v. rewrite Hnone in Hk. destruct Hk as [x Hx]. discriminate.
  - intros a v Hr.
    pose proof (resolved_le_nested a v rest) as Hle.
    rewrite (no_join_nested rest a v Hrest) in Hle.
    unfold resolved_fetches in Hr, Hle. simpl in Hr.
    destruct o; simpl in Hr; try lia.
    destruct (String.eqb attr a && String.eqb value v) eqn:E;
      simpl in Hr; [|lia].
    apply andb_true_iff in E as [E1 E2]. apply String.eqb_eq in E1, E2.
    subst a v. now apply Hres.
  - assert (no_refetch rest) as Hnr by now apply no_join_no_refetch.
    destruct o; simpl; auto. split; [|exact Hnr].
    now apply no_join_nested.
  - intros a v Hn. unfold nested_fetches in Hn. simpl in Hn.
    rewrite Hrest in Hn.
    destruct (String.eqb attr a && String.eqb value v) eqn:E;
      simpl in Hn; [|lia].
    apply andb_true_iff in E as [E1 _]. apply String.eqb_eq in E1.
    subst a. eauto.
Qed.

Lemma log_no_join lvl m a v : List.filter (is_join_of a v) [EvLog lvl m] = [].
Proof. reflexivity. Qed.

Lemma resolve_value_inv (attr value : string) (c c' : join_cache) (w w' : W)
    r evs :
  Inv w -> resolve_value joins attr value c w = (r, c', w', evs) -> Inv w'.
Proof.
  intros Hw. unfold resolve_value.
  destruct (dict_get attr joins) as [j|]; [|now intros [= <- <- <- <-]].
  assert (forall r0 c0 w0 evs0,
             match j_attributes j with
             | [] =>
                 (Return (Some (value, [("dn", [value])])),
                  <[(attr, value) := [("dn", [value])]]> c, w, [])
             | _ :: _ =>
                 match _query_ldap value (j_filter j) (j_attributes j)
                         (j_scope j) w with
                 | (Return (first :: _), w', evs) =>
                     (Return (Some (value,
                                    dict_update [("dn", [value])] (snd first))),
                      <[(attr, value) :=
                          dict_update [("dn", [value])] (snd first)]> c, w',
                      EvJoin attr value JoinResolved :: evs)
                 | (Return [], w', evs) =>
                     (Return None, c, w', EvJoin attr value JoinEmpty :: evs)
                 | (Raise (UserError e), w', evs) =>
                     (Return None, c, w',
                      EvJoin attr value JoinFailed
                        :: evs ++ [EvLog Warning (IgnoringJoin value e)])
                 | (Raise e, w', evs) =>
                     (Raise e, c, w', EvJoin attr value JoinFailed :: evs)
                 end
             end = (r0, c0, w0, evs0) -> Inv w0) as Hfetch.
  { intros r0 c0 w0 evs0.
    destruct (j_attributes j) as [|x xs] eqn:Ea; [now intros [= <- <- <- <-]|].
    rewrite <- Ea.
    destruct (_query_ldap value (j_filter j) (j_attributes j) (j_scope j) w)
      as [[res w1] evs1] eqn:Eq.
    pose proof (_query_ldap_inv _ _ _ _ _ _ _ _ Hw Eq) as Hw1.
    destruct res as [[|first others]|e]; [| |destruct e];
      now intros [= <- <- <- <-]. }
  destruct (c !! (attr, value)) as [[|kv more]|].
  - apply Hfetch.
  - now intros [= <- <- <- <-].
  - apply Hfetch.
Qed.

Lemma resolve_value_run (attr value : string) (c c' : join_cache) (w w' : W) r evs :
  Inv w -> cache_good Inv joins c ->
  resolve_value joins attr value c w = (r, c', w', evs) ->
  join_run Inv joins c evs c'.
Proof.
  intros Hw Hc. unfold resolve_value.
  destruct (dict_get attr joins) as [j|] eqn:Ej.
  2:{ intros [= <- <- <- <-]. now apply join_run_nil. }
  destruct (c !! (attr, value)) as [[|kv more]|] eqn:Ec.
  { destruct (Hc _ _ _ Ec) as [Hne _]. contradiction. }
  { intros [= <- <- <- <-]. now apply join_run_nil. }
  destruct (j_attributes j) as [|x xs] eqn:Ea.
  { intros [= <- <- <- <-]. split.
    - apply cache_good_insert; [exact Hc|discriminate|].
      eapply attached_short; eauto.
    - intros k. apply insert_mono.
    - reflexivity.
    - intros a v Hr. unfold resolved_fetches in Hr. simpl in Hr. lia.
    - exact I.
    - intros a v Hn. unfold nested_fetches in Hn. simpl in Hn. lia. }
  assert (j_attributes j <> []) as Hattrs by (rewrite Ea; discriminate).
  rewrite <- Ea.
  destruct (_query_ldap value (j_filter j) (j_attributes j) (j_scope j) w)
    as [[res w1] evs0] eqn:Eq.
  assert (forall a v, List.filter (is_join_of a v) evs0 = []) as Hfree
    by (intros a v; eapply _query_ldap_no_join, Eq).
  destruct res as [[|first others]|e].
  - intros [= <- <- <- <-]. eapply fetch_run; eauto. discriminate.
  - intros [= <- <- <- <-]. eapply fetch_run; eauto.
    + apply cache_good_insert; [exact Hc| |].
      * apply dict_update_not_nil. discriminate.
      * eapply attached_fetched; eauto.
    + intros k. apply insert_mono.
    + intros _. rewrite lookup_insert_eq. eauto.
  - destruct e; intros [= <- <- <- <-]; eapply fetch_run; eauto;
      try discriminate.
    apply no_join_app; [exact Hfree|]. intros a v. reflexivity.
Qed.

Lemma resolve_value_attached (attr value : string) (c c' : join_cache) (w w' : W) p evs :
  Inv w -> cache_good Inv joins c ->
  resolve_value joins attr value c w = (Return (Some p), c', w', evs) ->
  fst p = value /\ attached Inv joins attr value (snd p).
Proof.
  intros Hw Hc. unfold resolve_value.
  destruct (dict_get attr joins) as [j|] eqn:Ej.
  2:{ intros [= <- <- <- <-]. split; [reflexivity|]. now apply attached_plain. }
  destruct (c !! (attr, value)) as [[|kv more]|] eqn:Ec.
  { destruct (Hc _ _ _ Ec) as [Hne _]. contradiction. }
  { intros [= <- <- <- <-]. split; [reflexivity|]. now apply (Hc _ _ _ Ec). }
  destruct (j_attributes j) as [|x xs] eqn:Ea.
  { intros [= <- <- <- <-]. split; [reflexivity|].
    eapply attached_short; eauto. }
  assert (j_attributes j <> []) as Hattrs by (rewrite Ea; discriminate).
  rewrite <- Ea.
  destruct (_query_ldap value (j_filter j) (j_attributes j) (j_scope j) w)
    as [[res w1] evs0] eqn:Eq.
  destruct res as [[|first others]|e].
  - discriminate.
  - intros [= <- <- <- <-]. split; [reflexivity|].
    eapply attached_fetched; eauto.
  - destruct e; discriminate.
Qed.

(** Under a join without attributes nothing is dropped, nothing fetched. *)
Lemma resolve_value_short (attr value : string) (j : Join) (c c' : join_cache)
    (w w' : W) r evs :
  cache_good Inv joins c ->
  dict_get attr joins = Some j -> j_attributes j = [] ->
  resolve_value joins attr value c w = (r, c', w', evs) ->
  r = Return (Some (value, [("dn", [value])])) /\ w' = w /\ evs = [].
Proof.
  intros Hc Hj Ha. unfold resolve_value. rewrite Hj.
  destruct (c !! (attr, value)) as [[|kv more]|] eqn:Ec.
  - destruct (Hc _ _ _ Ec) as [Hne _]. contradiction.
  - intros [= <- <- <- <-]. split; [|auto].
    destruct (Hc _ _ _ Ec) as [_ Hat].
    inversion Hat
      as [a v Hn | a v j' Hj' Ha' | a v j' w0 w1 evs0 f o Hj' Ha' Hw0];
      subst; congruence.
  - rewrite Ha. intros [= <- <- <- <-]. auto.
Qed.

(** Without a join the value is kept as it is. *)
Lemma resolve_value_plain (attr value : string) (c c' : join_cache)
    (w w' : W) r evs :
  dict_get attr joins = None ->
  resolve_value joins attr value c w = (r, c', w', evs) ->
  r = Return (Some (value, [])) /\ w' = w /\ evs = [].
Proof.
  intros Hj. unfold resolve_value. rewrite Hj.
  intros [= <- <- <- <-]. auto.
Qed.

(** The join resolver raises nothing. *)
Lemma resolve_value_returns (attr value : string) (c : join_cache) (w : W) :
  exists o c' w' evs,
    resolve_value joins attr value c w = (Return o, c', w', evs).
Proof.
  unfold resolve_value.
  destruct (dict_get attr joins) as [j|]; [|eauto 10].
  destruct (c !! (attr, value)) as [[|kv more]|];
    (destruct (j_attributes j) as [|x xs] eqn:Ea; [eauto 10|]); eauto 10;
    rewrite <- Ea;
    (destruct (_query_ldap value (j_filter j) (j_attributes j) (j_scope j) w)
       as [[res w1] evs0] eqn:Eq);
    (destruct res as [[|first others]|e]; [eauto 10|eauto 10|]);
    (destruct (_query_ldap_raises _ _ _ _ _ _ _ _ Eq) as [m ->]);
    eauto 10.
Qed.

End JoinFacts.

Section JoinLoops.
Context {W : Type} `{!LdapConn W} `{!Codec}.
Variable Inv : W -> Prop.
Hypothesis Inv_search : forall base scope flt attributes w r w',
  Inv w -> search_s base scope flt attributes w = (r, w') -> Inv w'.
Variable joins : pydict Join.

Lemma resolve_values_spec (attr : string) (values : list string)
    (c : join_cache) (w : W) :
  Inv w -> cache_good Inv joins c ->
  exists vs c' w' evs,
    resolve_values joins attr values c w = (Return vs, c', w', evs)
    /\ join_run Inv joins c evs c'
    /\ Inv w'
    /\ values_attached Inv joins attr values vs.
Proof.
  revert c w. induction values as [|value rest IH]; intros c w Hw Hc.
  - exists [], c, w, []. split; [reflexivity|]. split; [|split; [exact Hw|]].
    + now apply join_run_nil.
    + split; [constructor|]. split; reflexivity.
  - destruct (resolve_value_returns joins attr value c w)
      as (o & c1 & w1 & e1 & E1).
    pose proof (resolve_value_run Inv joins _ _ _ _ _ _ _ _ Hw Hc E1) as R1.
    pose proof (resolve_value_inv Inv Inv_search joins _ _ _ _ _ _ _ _ Hw E1)
      as Hw1.
    destruct (IH c1 w1 Hw1 (run_good _ _ _ _ _ R1))
      as (vs & c2 & w2 & e2 & E2 & R2 & Hw2 & (Hall & Hshort & Hplain)).
    exists (match o with Some p => p :: vs | None => vs end), c2, w2, (e1 ++ e2).
    split; [simpl; now rewrite E1, E2|].
    split; [eapply join_run_seq; eauto|].
    split; [exact Hw2|].
    split.
    + assert (Forall (fun p => In (fst p) (value :: rest)
                               /\ attached Inv joins attr (fst p) (snd p)) vs) as Hvs.
      { eapply List.Forall_impl; [|exact Hall].
        intros p [Hin Hat]. split; [now right|exact Hat]. }
      destruct o as [p|]; [|exact Hvs].
      constructor; [|exact Hvs].
      destruct (resolve_value_attached Inv joins _ _ _ _ _ _ _ _ Hw Hc E1)
        as [Hf Hat].
      rewrite Hf. split; [now left|exact Hat].
    + split.
      * intros j Hj Ha.
        destruct (resolve_value_short Inv joins _ _ _ _ _ _ _ _ _ Hc Hj Ha E1)
          as ([= ->] & _ & _).
        simpl. f_equal. eapply Hshort; eauto.
      * intros Hj.
        destruct (resolve_value_plain joins _ _ _ _ _ _ _ _ Hj E1)
          as ([= ->] & _ & _).
        simpl. f_equal. now apply Hplain.
Qed.

Lemma resolve_attrs_spec (items : pydict (list string)) (c : join_cache) (w : W) :
  Inv w -> cache_good Inv joins c ->
  exists d c' w' evs,
    resolve_attrs joins items c w = (Return d, c', w', evs)
    /\ join_run Inv joins c evs c'
    /\ Inv w'
    /\ attrs_attached Inv joins items d.
Proof.
  revert c w. induction items as [|[attr values] rest IH]; intros c w Hw Hc.
  - exists [], c, w, []. split; [reflexivity|]. split; [|split; [exact Hw|]].
    + now apply join_run_nil.
    + constructor.
  - destruct (resolve_values_spec attr values c w Hw Hc)
      as (vs & c1 & w1 & e1 & E1 & R1 & Hw1 & Hvs).
    destruct (IH c1 w1 Hw1 (run_good _ _ _ _ _ R1))
      as (d & c2 & w2 & e2 & E2 & R2 & Hw2 & Hd).
    exists ((attr, vs) :: d), c2, w2, (e1 ++ e2).
    split; [simpl; now rewrite E1, E2|].
    split; [eapply join_run_seq; eauto|].
    split; [exact Hw2|].
    constructor; [|exact Hd]. split; [reflexivity|exact Hvs].
Qed.

Lemma resolve_entries_spec (entries : list Entry) (c : join_cache) (w : W) :
  Inv w -> cache_good Inv joins c ->
  exists jentries c' w' evs,
    resolve_entries joins entries c w = (Return jentries, c', w', evs)
    /\ join_run Inv joins c evs c'
    /\ Inv w'
    /\ entries_attached Inv joins entries jentries.
Proof.
  revert c w. induction entries as [|entry rest IH]; intros c w Hw Hc.
  - exists [], c, w, []. split; [reflexivity|]. split; [|split; [exact Hw|]].
    + now apply join_run_nil.
    + constructor.
  - destruct (resolve_attrs_spec (snd entry) c w Hw Hc)
      as (d & c1 & w1 & e1 & E1 & R1 & Hw1 & Hd).
    destruct (IH c1 w1 Hw1 (run_good _ _ _ _ _ R1))
      as (es & c2 & w2 & e2 & E2 & R2 & Hw2 & Hes).
    exists ((fst entry, d) :: es), c2, w2, (e1 ++ e2).
    split; [simpl; now rewrite E1, E2|].
    split; [eapply join_run_seq; eauto|].
    split; [exact Hw2|].
    constructor; [|exact Hes]. split; [reflexivity|exact Hd].
Qed.

Lemma cache_good_empty : cache_good Inv joins (∅ : join_cache).
Proof. intros a v sub Hl. rewrite lookup_empty in Hl. discriminate. Qed.

(** [query_ldap] in terms of its two stages: it fails exactly when the
    first fetch fails; otherwise it returns the fetched entries with their
    values resolved, and the events of the resolution are a [join_run] from
    the empty cache. *)
Lemma query_ldap_spec base flt attributes scope (w : W) :
  Inv w ->
  match _query_ldap base flt attributes scope w with
  | (Raise e, w1, evs1) =>
      query_ldap base flt attributes joins scope w = (Raise e, w1, evs1)
  | (Return entries, w1, evs1) =>
      exists jentries c' w' evs2,
        query_ldap base flt attributes joins scope w
          = (Return jentries, w', evs1 ++ evs2)
        /\ join_run Inv joins ∅ evs2 c'
        /\ entries_attached Inv joins entries jentries
  end.
Proof.
  intros Hw. unfold query_ldap.
  destruct (_query_ldap base flt attributes scope w)
    as [[[entries|e] w1] evs1] eqn:Eq; [|reflexivity].
  pose proof (_query_ldap_inv Inv Inv_search _ _ _ _ _ _ _ _ Hw Eq) as Hw1.
  destruct (resolve_entries_spec entries ∅ w1 Hw1 cache_good_empty)
    as (jentries & c' & w' & evs2 & E & R & _ & Hes).
  exists jentries, c', w', evs2. rewrite E. auto.
Qed.

End JoinLoops.

(** ** Claims on the join resolver *)

Section JoinClaims.
Context {W : Type} `{!LdapConn W} `{!Codec}.

Lemma any_world_search : forall base scope flt attributes w
    (r : string + list raw_entry) w',
  any_world w -> search_s base scope flt attributes w = (r, w') -> any_world w'.
Proof. intros. exact I. Qed.

Lemma query_ldap_no_refetch base flt attributes joins scope (w w' : W) r evs :
  query_ldap base flt attributes joins scope w = (r, w', evs) ->
  no_refetch evs.
Proof.
  intros Hq.
  pose proof (query_ldap_spec any_world any_world_search joins
                base flt attributes scope w I) as Hs.
  destruct (_query_ldap base flt attributes scope w)
    as [[[entries|e] w1] evs1] eqn:Eq.
  - destruct Hs as (jentries & c' & w2 & evs2 & Hq' & R & _).
    rewrite Hq in Hq'. injection Hq' as -> -> ->.
    apply no_refetch_app.
    + apply no_join_no_refetch. intros a v.
      eapply _query_ldap_no_join, Eq.
    + apply R.
    + intros a v Hr. exfalso.
      pose proof (resolved_le_nested a v evs1) as Hle.
      unfold nested_fetches in Hle.
      rewrite (_query_ldap_no_join _ _ _ _ _ _ _ _ a v Eq) in Hle.
      simpl in Hle. lia.
  - rewrite Hq in Hs. injection Hs as -> -> ->.
    apply no_join_no_refetch. intros a v. eapply _query_ldap_no_join, Eq.
Qed.

(** When every nested fetch for a pair returned entries, the fetches for
    the pair are the resolved ones. *)
Lemma nested_all_resolved (evs : list event) a v :
  (forall o, In (EvJoin a v o) evs -> o = JoinResolved) ->
  nested_fetches a v evs = resolved_fetches a v evs.
Proof.
  unfold nested_fetches, resolved_fetches.
  induction evs as [|ev evs IH]; intros Hall; [reflexivity|].
  assert (forall o, In (EvJoin a v o) evs -> o = JoinResolved) as Hall'
    by (intros o Ho; apply Hall; now right).
  specialize (IH Hall'). simpl.
  destruct ev as [| a' v' o | | | | | ? | | | ? ]; simpl; auto.
  destruct (String.eqb a' a && String.eqb v' v) eqn:E.
  - apply andb_true_iff in E as [E1 E2]. apply String.eqb_eq in E1, E2.
    subst a' v'. rewrite (Hall o (or_introl eq_refl)). simpl.
    now rewrite IH.
  - destruct o; simpl; rewrite ?E; exact IH.
Qed.

(** C1 (amended). Over one run of [query_ldap], for every pair
    [(attr, value)]: once a nested fetch for the pair has returned entries,
    no further nested fetch is issued for it; at most one nested fetch per
    pair returns entries; and when the nested fetches for the pair all
    return entries there is at most one of them. *)
Theorem join_cache_stops_fetching_resolved_pairs
    base flt attributes joins scope (w w' : W) r evs a v :
  query_ldap base flt attributes joins scope w = (r, w', evs) ->
  (resolved_fetches a v evs <= 1)%nat
  /\ (forall before after,
        evs = before ++ EvJoin a v JoinResolved :: after ->
        nested_fetches a v after = 0%nat)
  /\ ((forall o, In (EvJoin a v o) evs -> o = JoinResolved) ->
      (nested_fetches a v evs <= 1)%nat).
Proof.
  intros Hq. apply query_ldap_no_refetch in Hq. split; [|split].
  - now apply no_refetch_at_most_one.
  - intros before after Heq. eapply no_refetch_split; eauto.
  - intros Hall. rewrite (nested_all_resolved evs a v Hall).
    now apply no_refetch_at_most_one.
Qed.

(** C8 (amended). Under a join that names no attribute to fetch, when the
    first fetch returns entries, [query_ldap] returns them with their
    values resolved, issues no nested fetch for the attribute, keeps every
    value of it, and attaches to each value [v] the mapping
    [{'dn': [v]}]. *)
Theorem join_without_attributes_attaches_dn_only
    base flt attributes joins scope (w w1 : W) entries evs1 a j :
  _query_ldap base flt attributes scope w = (Return entries, w1, evs1) ->
  dict_get a joins = Some j -> j_attributes j = [] ->
  exists jentries w' evs2,
    query_ldap base flt attributes joins scope w
      = (Return jentries, w', evs1 ++ evs2)
    /\ (forall v, nested_fetches a v (evs1 ++ evs2) = 0%nat)
    /\ Forall2
         (fun e je =>
            fst je = fst e
            /\ Forall2
                 (fun item out =>
                    fst out = fst item
                    /\ (fst item = a ->
                        snd out = map (fun v => (v, [("dn", [v])]))
                                      (snd item)))
                 (snd e) (snd je))
         entries jentries.
Proof.
  intros Eq Hj Ha.
  pose proof (query_ldap_spec any_world any_world_search joins
                base flt attributes scope w I) as Hs.
  rewrite Eq in Hs. destruct Hs as (jentries & c' & w' & evs2 & Hq & R & Hat).
  exists jentries, w', evs2. split; [exact Hq|]. split.
  - intros v. rewrite nested_fetches_app.
    unfold nested_fetches at 1.
    rewrite (_query_ldap_no_join _ _ _ _ _ _ _ _ a v Eq). simpl.
    destruct (Nat.eq_dec (nested_fetches a v evs2) 0) as [Hz|Hnz]; [exact Hz|].
    destruct (run_joined _ _ _ _ _ R a v) as (j' & Hj' & Ha'); [lia|].
    rewrite Hj in Hj'. injection Hj' as <-. contradiction.
  - eapply Forall2_impl; [exact Hat|].
    intros e je [Hdn Hattrs]. split; [exact Hdn|].
    eapply Forall2_impl; [exact Hattrs|].
    intros item out (Hk & _ & Hshort & _). split; [exact Hk|].
    intros Heq. apply (Hshort j); [now rewrite Heq|exact Ha].
Qed.

End JoinClaims.

Lemma join_cache_stops_fetching_resolved_pairs_witness :
  (resolved_fetches "member" "cn=alice,ou=people" (snd groups_run) <= 1)%nat
  /\ nested_fetches "member" "cn=alice,ou=people" (skipn 3 (snd groups_run))
     = 0%nat
  /\ (nested_fetches "member" "cn=alice,ou=people" (snd groups_run) <= 1)%nat.
Proof.
  destruct (@join_cache_stops_fetching_resolved_pairs
              Directory directory_conn codec_7bit
              "ou=groups" "(objectClass=*)" ["member"] member_join 2
              groups_dir (snd (fst groups_run)) (fst (fst groups_run))
              (snd groups_run) "member" "cn=alice,ou=people" eq_refl)
    as (Hone & Hafter & Honly).
  split; [exact Hone|]. split.
  - apply (Hafter (firstn 2 (snd groups_run))). reflexivity.
  - apply Honly. intros o Hin. vm_compute in Hin.
    repeat (destruct Hin as [Hin|Hin]; [try discriminate; congruence|]).
    destruct Hin.
Defined.

(** C1, as stated, fails: a pair whose nested fetch returns nothing, or
    fails, is fetched again at its next occurrence. *)
Lemma join_cache_refetches_unresolved_pairs :
  nested_fetches "member" "cn=ghost,ou=people" (snd groups_run) = 2%nat
  /\ In (EvJoin "member" "cn=ghost,ou=people" JoinEmpty) (snd groups_run)
  /\ nested_fetches "member" "cn=gone,ou=people" (snd groups_run) = 2%nat
  /\ In (EvJoin "member" "cn=gone,ou=people" JoinFailed) (snd groups_run).
Proof.
  split; [reflexivity|]. split; [vm_compute; tauto|].
  split; [reflexivity|]. vm_compute; tauto.
Qed.

Lemma join_without_attributes_attaches_dn_only_witness :
  exists jentries w' evs2,
    bare_groups_run
      = (Return jentries, w',
         [EvSearch "ou=groups" 2 "(objectClass=*)" ["member"];
          EvLog Debug (GotEntries 2)] ++ evs2)
    /\ (forall v,
          nested_fetches "member" v
            ([EvSearch "ou=groups" 2 "(objectClass=*)" ["member"];
              EvLog Debug (GotEntries 2)] ++ evs2) = 0%nat)
    /\ Forall2
         (fun (e : Entry) (je : JEntry) =>
            fst je = fst e
            /\ Forall2
                 (fun item out =>
                    fst out = fst item
                    /\ (fst item = "member" ->
                        snd out = map (fun v => (v, [("dn", [v])]))
                                      (snd item)))
                 (snd e) (snd je))
         [("cn=dba,ou=groups",
           [("member", ["cn=alice,ou=people"; "cn=ghost,ou=people";
                        "cn=gone,ou=people"]);
            ("dn", ["cn=dba,ou=groups"])]);
          ("cn=ops,ou=groups",
           [("member", ["cn=alice,ou=people"; "cn=ghost,ou=people";
                        "cn=gone,ou=people"]);
            ("dn", ["cn=ops,ou=groups"])])]
         jentries.
Proof.
  apply (@join_without_attributes_attaches_dn_only
           Directory directory_conn codec_7bit
           "ou=groups" "(objectClass=*)" ["member"] bare_member_join 2
           groups_dir groups_dir _ _ "member"
           {| j_filter := "(objectClass=*)"; j_attributes := [];
              j_scope := 0 |});
    reflexivity.
Defined.

(** C8, as stated, fails: the mapping attached under a join without
    attributes is not empty, it holds the value as [dn]. *)
Lemma join_without_attributes_mapping_is_not_empty :
  exists jentries d vals sub,
    fst (fst bare_groups_run) = Return jentries
    /\ In ("cn=dba,ou=groups", d) jentries
    /\ dict_get "member" d = Some vals
    /\ In ("cn=alice,ou=people", sub) vals
    /\ sub <> []
    /\ nested_fetches "member" "cn=alice,ou=people" (snd bare_groups_run)
       = 0%nat.
Proof.
  eexists. eexists. eexists. eexists.
  split; [reflexivity|].
  split; [left; reflexivity|].
  split; [reflexivity|].
  split; [left; reflexivity|].
  split; [discriminate|reflexivity].
Qed.

(** ** The [dn] attribute of entries and of joined values *)

Lemma dict_set_keys_in {V} (k : string) (v : V) (d : pydict V) (x : string) :
  In x (dict_keys (dict_set k v d)) -> x = k \/ In x (dict_keys d).
Proof.
  induction d as [|[k' v'] d IH]; simpl.
  - intros [<-|[]]. now left.
  - destruct (String.eqb k k') eqn:E; simpl.
    + apply String.eqb_eq in E. subst k'. tauto.
    + intros [<-|Hin]; [tauto|]. destruct (IH Hin); tauto.
Qed.

Lemma dict_set_NoDup {V} (k : string) (v : V) (d : pydict V) :
  List.NoDup (dict_keys d) -> List.NoDup (dict_keys (dict_set k v d)).
Proof.
  induction d as [|[k' v'] d IH]; simpl; intros Hnd.
  - constructor; [intros []|constructor].
  - apply List.NoDup_cons_iff in Hnd as [Hnotin Hnd].
    destruct (String.eqb k k') eqn:E; simpl.
    + apply String.eqb_eq in E. subst k'. now constructor.
    + constructor; [|now apply IH].
      intros Hin. apply dict_set_keys_in in Hin as [->|Hin]; [|tauto].
      now rewrite String.eqb_refl in E.
Qed.

Lemma lower_attributes_NoDup (e : Entry) :
  List.NoDup (dict_keys (snd (lower_attributes e))).
Proof.
  unfold lower_attributes. simpl.
  assert (forall l acc, List.NoDup (dict_keys acc) ->
            List.NoDup (dict_keys (fold_left lower_step l acc)))
    as Hfold.
  { induction l as [|[k v] l IH]; simpl; intros acc Hacc; [exact Hacc|].
    apply IH, dict_set_NoDup, Hacc. }
  apply Hfold. constructor.
Qed.

Lemma dict_get_In {V} (k : string) (x : V) (d : pydict V) :
  dict_get k d = Some x -> In k (dict_keys d).
Proof.
  induction d as [|[k' v'] d IH]; simpl; [discriminate|].
  destruct (String.eqb k k') eqn:E.
  - apply String.eqb_eq in E. now left.
  - intros Hg. right. now apply IH.
Qed.

Lemma dict_update_get_other {V} (k : string) (d other : pydict V) :
  ~ In k (dict_keys other) ->
  dict_get k (dict_update d other) = dict_get k d.
Proof.
  unfold dict_update. revert d.
  induction other as [|[k' v'] other IH]; simpl; intros d Hnotin;
    [reflexivity|].
  rewrite IH by tauto. apply dict_get_set_ne. intros ->. tauto.
Qed.

Lemma dict_update_get {V} (k : string) (x : V) (d other : pydict V) :
  List.NoDup (dict_keys other) -> dict_get k other = Some x ->
  dict_get k (dict_update d other) = Some x.
Proof.
  revert d. induction other as [|[k' v'] other IH]; simpl; intros d Hnd Hg;
    [discriminate|].
  apply List.NoDup_cons_iff in Hnd as [Hnotin Hnd].
  destruct (String.eqb k k') eqn:E.
  - apply String.eqb_eq in E. subst k'. injection Hg as <-.
    change (dict_get k (dict_update (dict_set k v' d) other) = Some v').
    rewrite dict_update_get_other by exact Hnotin.
    apply dict_get_set_eq.
  - change (dict_get k (dict_update (dict_set k' v' d) other) = Some x).
    now apply IH.
Qed.

Lemma dict_get_Forall2 {A B} (R : string * A -> string * B -> Prop)
    (k : string) (d : pydict A) (d' : pydict B) (x : A) :
  Forall2 R d d' -> (forall p q, R p q -> fst q = fst p) ->
  dict_get k d = Some x ->
  exists y, dict_get k d' = Some y /\ R (k, x) (k, y).
Proof.
  intros HF Hkey. induction HF as [|[k1 a] [k2 y] d d' HR HF IH]; simpl;
    [discriminate|].
  pose proof (Hkey _ _ HR) as Hk. simpl in Hk. subst k2.
  destruct (String.eqb k k1) eqn:E.
  - apply String.eqb_eq in E. subst k1. intros [= <-]. eauto.
  - exact IH.
Qed.

Section DnClaim.
Context {W : Type} `{!LdapConn W} `{!Codec}.
Variable Inv : W -> Prop.
Hypothesis Inv_search : forall base scope flt attributes w r w',
  Inv w -> search_s base scope flt attributes w = (r, w') -> Inv w'.
Hypothesis Inv_named : forall base scope flt attributes w raw w',
  Inv w -> search_s base scope flt attributes w = (inr raw, w') ->
  Forall (fun re => well_named (snd re)) raw.

Lemma _query_ldap_unique_keys base flt attributes scope (w w' : W) entries evs :
  _query_ldap base flt attributes scope w = (Return entries, w', evs) ->
  Forall (fun entry => List.NoDup (dict_keys (snd entry))) entries.
Proof.
  unfold _query_ldap.
  destruct (search_s base scope flt attributes w) as [[err|raw] w1];
    [discriminate|].
  destruct (collect_entries raw []) as [r evs'] eqn:E.
  intros [= -> <- <-].
  apply collect_entries_result in E as (es' & -> & Hr). simpl.
  apply all_right_Forall2 in Hr.
  induction Hr as [|re entry l es Hn _ IH]; constructor; [|exact IH].
  unfold normalize in Hn.
  destruct (decode_value _) as [err|en]; [discriminate|].
  injection Hn as <-. apply lower_attributes_NoDup.
Qed.


End DnClaim.

Lemma groups_dir_stays : forall base scope flt attributes w
    (r : string + list raw_entry) w',
  w = groups_dir ->
  @search_s Directory directory_conn base scope flt attributes w = (r, w') ->
  w' = groups_dir.
Proof. intros base scope flt attributes w r w' -> [= _ <-]. reflexivity. Qed.

Lemma well_named_single {V} (k : string) (v : V) :
  str_lower k <> "dn" -> well_named [(k, v)].
Proof.
  intros Hk. split.
  - constructor; [intros []|constructor].
  - intros k' [<-|[]] Hl. contradiction.
Qed.

Lemma groups_dir_named : forall base scope flt attributes w raw w',
  w = groups_dir ->
  @search_s Directory directory_conn base scope flt attributes w
    = (inr raw, w') ->
  Forall (fun re => well_named (snd re)) raw.
Proof.
  intros base scope flt attributes w raw w' ->.
  simpl. unfold directory_search, groups_dir. simpl.
  destruct (String.eqb base "ou=groups").
  { intros [= <- _].
    constructor; [apply well_named_single; discriminate|].
    constructor; [apply well_named_single; discriminate|constructor]. }
  destruct (String.eqb base "cn=alice,ou=people").
  { intros [= <- _].
    constructor; [apply well_named_single; discriminate|constructor]. }
  destruct (String.eqb base "cn=ghost,ou=people").
  { intros [= <- _]. constructor. }
  discriminate.
Qed.



(** ** Generators *)

Lemma gen_app_done {A} (g : gen A) : gen_app g GDone = g.
Proof. induction g; simpl; congruence. Qed.

Lemma gen_app_assoc {A} (g h k : gen A) :
  gen_app (gen_app g h) k = gen_app g (gen_app h k).
Proof. induction g; simpl; congruence. Qed.

(** A protected generator is its prefix followed by the handler of its
    exception, if it raises. *)
Lemma gen_catch_end {A} (g : gen A) (handler : exn -> gen A) :
  gen_catch g handler =
    gen_app (gen_prefix g)
      (match gen_end g with Some e => handler e | None => GDone end).
Proof. unfold gen_prefix. induction g; simpl; congruence. Qed.

Lemma gen_end_prefix {A} (g : gen A) : gen_end (gen_prefix g) = None.
Proof. unfold gen_prefix. induction g; simpl; congruence. Qed.

Lemma yields_prefix {A} (g : gen A) : yields (gen_prefix g) = yields g.
Proof. unfold gen_prefix. induction g; simpl; congruence. Qed.

Lemma yields_app {A} (g k : gen A) :
  yields (gen_app g k) =
    yields g ++ (match gen_end g with None => yields k | Some _ => [] end).
Proof. induction g; simpl; congruence. Qed.

Lemma gen_end_app {A} (g k : gen A) :
  gen_end (gen_app g k) =
    match gen_end g with None => gen_end k | Some e => Some e end.
Proof. induction g; simpl; congruence. Qed.

(** A stream of roles that ends with a [UserError] ends the aggregation
    with a [UserError]: its own, or that of an earlier conflict. *)
Lemma aggregate_of_failed_run (g : gen Role) (m : RoleSet) (u : user_msg) :
  gen_end g = Some (UserError u) ->
  exists u' evs, aggregate_roles g m = (Raise (UserError u'), evs).
Proof.
  revert m. induction g as [|r k IH|l msg k IH|e]; simpl; intros m Hend.
  - discriminate.
  - destruct (m !! name r) as [known|]; [|now apply IH].
    unfold merge. destruct (decide (options r = options known)); [|eauto].
    now apply IH.
  - destruct (IH m Hend) as (u' & evs & ->). eauto.
  - injection Hend as ->. eauto.
Qed.

(** ** Role rule engine *)

Section RoleRuleFacts.
Context `{!Templates}.

Lemma apply_role_rules_single (rule : RoleRule) (entries : list (option JEntry)) :
  apply_role_rules [rule] entries =
    gen_for_list entries (fun entry =>
      gen_catch (process_ldap_entry entry rule)
        (on_expansion_error
           (match rule_on_unexpected_dn rule with Some p => p | None => "fail" end)
           entry)).
Proof. unfold apply_role_rules. simpl. apply gen_app_done. Qed.

(** The run of [apply_role_rules] starts with the first entry under the
    first rule. *)
Lemma apply_role_rules_first (rule : RoleRule) (rules : list RoleRule)
    (entry : option JEntry) (rest : list (option JEntry)) :
  apply_role_rules (rule :: rules) (entry :: rest) =
    gen_app
      (gen_catch (process_ldap_entry entry rule)
         (on_expansion_error
            (match rule_on_unexpected_dn rule with Some p => p | None => "fail" end)
            entry))
      (remaining_run rule rules entry rest).
Proof.
  unfold remaining_run. rewrite apply_role_rules_single.
  unfold apply_role_rules. simpl. now rewrite gen_app_assoc.
Qed.

(** The run in three parts: what the first entry yields and logs under the
    first rule, the handler of the exception that ended it, the rest. *)
Lemma apply_role_rules_parts (rule : RoleRule) (rules : list RoleRule)
    (entry : option JEntry) (rest : list (option JEntry)) :
  apply_role_rules (rule :: rules) (entry :: rest) =
    gen_app (gen_prefix (process_ldap_entry entry rule))
      (gen_app
         (match gen_end (process_ldap_entry entry rule) with
          | Some e =>
              on_expansion_error
                (match rule_on_unexpected_dn rule with
                 | Some p => p | None => "fail" end) entry e
          | None => GDone
          end)
         (remaining_run rule rules entry rest)).
Proof. now rewrite apply_role_rules_first, gen_catch_end, gen_app_assoc. Qed.


End RoleRuleFacts.



(** ** Aggregation of roles *)

Lemma retains_refl (r : Role) : retains r r.
Proof. unfold retains. set_solver. Qed.

Lemma retains_trans (r'' r' r : Role) :
  retains r'' r' -> retains r' r -> retains r'' r.
Proof.
  unfold retains. intros (H1 & H2 & H3 & H4) (H5 & H6 & H7 & H8).
  repeat split; try congruence; set_solver.
Qed.

Lemma merge_Return (self other r : Role) :
  merge self other = Return r ->
  options self = options other
  /\ name r = name self
  /\ members r = members self ∪ members other
  /\ parents r = parents self ∪ parents other
  /\ options r = options self.
Proof.
  unfold merge. destruct (decide (options self = options other)) as [He|Hne];
    [|discriminate].
  intros [= <-]. simpl. auto.
Qed.

Lemma merge_Raise (self other : Role) (e : exn) :
  merge self other = Raise e ->
  options self <> options other /\ exists msg, e = ValueError msg.
Proof.
  unfold merge. destruct (decide (options self = options other)) as [He|Hne];
    [discriminate|].
  intros [= <-]. eauto.
Qed.

Lemma merge_same_options (self other : Role) :
  options self = options other -> exists r, merge self other = Return r.
Proof.
  intros He. unfold merge.
  destruct (decide (options self = options other)); [eauto|contradiction].
Qed.

Lemma merge_retains (self other r : Role) :
  merge self other = Return r -> name other = name self ->
  retains r self /\ retains r other.
Proof.
  intros Hm Hn. apply merge_Return in Hm as (Ho & Hname & Hms & Hps & Hos).
  unfold retains. repeat split; try congruence.
  - rewrite Hms. apply union_subseteq_l.
  - rewrite Hps. apply union_subseteq_l.
  - rewrite Hms. apply union_subseteq_r.
  - rewrite Hps. apply union_subseteq_r.
Qed.

Lemma keyed_insert (m : RoleSet) (r : Role) :
  keyed_by_name m -> keyed_by_name (<[name r := r]> m).
Proof.
  intros Hk n r0 Hl. destruct (decide (name r = n)) as [<-|Hne].
  - rewrite lookup_insert_eq in Hl. now injection Hl as <-.
  - rewrite lookup_insert_ne in Hl by exact Hne. now apply Hk.
Qed.

(** One round of the loop over the roles: the table after a role is
    consumed retains the role and what it held. *)
Lemma aggregate_step (m : RoleSet) (r : Role) (k : gen Role)
    (m' : RoleSet) (evs : list event) :
  keyed_by_name m ->
  aggregate_roles (GYield r k) m = (Return m', evs) ->
  exists r1,
    aggregate_roles k (<[name r := r1]> m) = (Return m', evs)
    /\ name r1 = name r /\ retains r1 r
    /\ (forall known, m !! name r = Some known -> retains r1 known).
Proof.
  intros Hk. simpl. destruct (m !! name r) as [known|] eqn:El.
  - destruct (merge r known) as [r1|e] eqn:Em.
    + intros Ha. pose proof (Hk _ _ El) as Hn.
      destruct (merge_retains _ _ _ Em Hn) as [H1 H2].
      exists r1. destruct H1 as (Hname & _).
      rewrite Hname in Ha. split; [exact Ha|].
      split; [exact Hname|]. split.
      * apply (merge_retains _ _ _ Em Hn).
      * intros known' [= <-]. exact H2.
    + destruct e; discriminate.
  - intros Ha. exists r. split; [exact Ha|]. split; [reflexivity|].
    split; [apply retains_refl|]. discriminate.
Qed.

Lemma aggregate_retains (g : gen Role) (m m' : RoleSet) (evs : list event) :
  keyed_by_name m ->
  aggregate_roles g m = (Return m', evs) ->
  (forall n r0, m !! n = Some r0 ->
                exists r', m' !! n = Some r' /\ retains r' r0)
  /\ (forall r, In r (yields g) ->
                exists r', m' !! name r = Some r' /\ retains r' r).
Proof.
  revert m evs. induction g as [|r k IH|l msg k IH|e]; intros m evs Hk Ha.
  - simpl in Ha. injection Ha as <- <-. split.
    + intros n r0 Hl. exists r0. split; [exact Hl|apply retains_refl].
    + intros r [].
  - destruct (aggregate_step m r k m' evs Hk Ha)
      as (r1 & Ha1 & Hname & Hr1 & Hknown).
    assert (keyed_by_name (<[name r := r1]> m)) as Hk1.
    { rewrite <- Hname. now apply keyed_insert. }
    destruct (IH _ _ Hk1 Ha1) as [Hstored Hyield].
    assert (exists r', m' !! name r = Some r' /\ retains r' r1)
      as (r2 & Hl2 & Hr2).
    { apply Hstored. apply lookup_insert_eq. }
    split.
    + intros n r0 Hl. destruct (decide (name r = n)) as [<-|Hne].
      * exists r2. split; [exact Hl2|].
        eapply retains_trans; [exact Hr2|]. now apply Hknown.
      * apply Hstored. now rewrite lookup_insert_ne.
    + intros x [<-|Hin].
      * exists r2. split; [exact Hl2|].
        eapply retains_trans; eauto.
      * now apply Hyield.
  - simpl in Ha. destruct (aggregate_roles k m) as [res evs'] eqn:E.
    injection Ha as -> <-. eapply IH; eauto.
  - discriminate.
Qed.

Section SkipClaim.
Context `{!Templates}.

(** C10. When the expansion of a rule against an entry ends with an
    unexpected-DN error under the [ignore] or [warn] policy, the roles the
    entry yielded before the error stay in the output of
    [apply_role_rules], followed by those of the rest of the run, and
    every one of them is retained by the table of aggregated roles once
    the aggregation ends. *)
Theorem skipped_entry_keeps_roles_already_yielded
    (rule : RoleRule) (rules : list RoleRule)
    (entry : option JEntry) (rest : list (option JEntry)) (dn : string) :
  gen_end (process_ldap_entry entry rule) = Some (RDNError dn) ->
  rule_on_unexpected_dn rule = Some "ignore"
  \/ rule_on_unexpected_dn rule = Some "warn" ->
  yields (apply_role_rules (rule :: rules) (entry :: rest))
  = yields (process_ldap_entry entry rule)
      ++ yields (remaining_run rule rules entry rest)
  /\ forall (m m' : RoleSet) evs,
       keyed_by_name m ->
       aggregate_roles (apply_role_rules (rule :: rules) (entry :: rest)) m
         = (Return m', evs) ->
       forall r, In r (yields (process_ldap_entry entry rule)) ->
                 exists r', m' !! name r = Some r' /\ retains r' r.
Proof.
  intros Hend Hpolicy.
  assert (yields (apply_role_rules (rule :: rules) (entry :: rest))
          = yields (process_ldap_entry entry rule)
              ++ yields (remaining_run rule rules entry rest)) as Hy.
  { rewrite apply_role_rules_parts, Hend, yields_app, gen_end_prefix,
      yields_prefix.
    destruct Hpolicy as [-> | ->]; reflexivity. }
  split; [exact Hy|].
  intros m m' evs Hk Ha r Hin.
  destruct (aggregate_retains _ _ _ _ Hk Ha) as [_ Hyield].
  apply Hyield. rewrite Hy. apply in_or_app. now left.
Qed.

End SkipClaim.

Lemma empty_keyed : keyed_by_name ∅.
Proof. intros n r Hl. rewrite lookup_empty in Hl. discriminate. Qed.

Lemma skipped_entry_keeps_roles_already_yielded_witness :
  yields (@apply_role_rules small_templates [member_rule (Some "ignore")]
            [Some team; Some crew])
  = yields (@process_ldap_entry small_templates (Some team)
              (member_rule (Some "ignore")))
      ++ yields (@remaining_run small_templates (member_rule (Some "ignore"))
                   [] (Some team) [Some crew])
  /\ exists m' r',
       fst (aggregate_roles
              (@apply_role_rules small_templates [member_rule (Some "ignore")]
                 [Some team; Some crew]) ∅) = Return m'
       /\ m' !! "alice" = Some r'
       /\ retains r' (mkRole "alice" [] {["LOGIN" := OBool true]} ["staff"] None).
Proof.
  destruct (@skipped_entry_keeps_roles_already_yielded small_templates
              (member_rule (Some "ignore")) [] (Some team) [Some crew]
              "uid=bob,ou=people" eq_refl (or_introl eq_refl))
    as [Hyields Hkept].
  split; [exact Hyields|].
  destruct (aggregate_roles
              (@apply_role_rules small_templates [member_rule (Some "ignore")]
                 [Some team; Some crew]) ∅) as [[m'|e] evs] eqn:Ea;
    [|vm_compute in Ea; discriminate].
  destruct (Hkept ∅ m' evs empty_keyed Ea
              (mkRole "alice" [] {["LOGIN" := OBool true]} ["staff"] None)
              (or_introl eq_refl)) as (r' & Hl & Hr).
  exists m', r'. auto.
Defined.

(** A declaration at odds with the stored one of its name ends the
    aggregation with the conflict error. *)
Lemma aggregate_conflict (g : gen Role) (m : RoleSet) :
  (exists a known, In a (yields g) /\ m !! name a = Some known
                   /\ options known <> options a) ->
  exists n evs,
    aggregate_roles g m = (Raise (UserError (RoleRedefined n)), evs)
    /\ exists c, In c (yields g) /\ name c = n.
Proof.
  revert m. induction g as [|r k IH|l msg k IH|e];
    intros m (a & known & Hin & Hl & Hne).
  - destruct Hin.
  - simpl. destruct (m !! name r) as [known0|] eqn:El.
    + destruct (merge r known0) as [r1|e] eqn:Em.
      * apply merge_Return in Em as (Ho & Hname & _ & _ & Hos).
        destruct (IH (<[name r1 := r1]> m)) as (n & evs & Ha & c & Hc & Hn).
        { destruct Hin as [<-|Hin].
          - rewrite El in Hl. injection Hl as <-. congruence.
          - exists a. destruct (decide (name r1 = name a)) as [He|Hd].
            + exists r1. split; [exact Hin|].
              rewrite He, lookup_insert_eq. split; [reflexivity|].
              assert (known = known0) by congruence. subst known0.
              congruence.
            + exists known. split; [exact Hin|].
              now rewrite lookup_insert_ne. }
        exists n, evs. split; [exact Ha|]. exists c. simpl. auto.
      * apply merge_Raise in Em as (_ & msg & ->).
        exists (name r), []. split; [reflexivity|]. exists r. simpl. auto.
    + destruct (IH (<[name r := r]> m)) as (n & evs & Ha & c & Hc & Hn).
      { destruct Hin as [<-|Hin]; [congruence|].
        exists a, known. split; [exact Hin|].
        rewrite lookup_insert_ne; [auto|]. intros He. congruence. }
      exists n, evs. split; [exact Ha|]. exists c. simpl. auto.
  - simpl. destruct (IH m) as (n & evs & Ha & c & Hc & Hn).
    { exists a, known. auto. }
    rewrite Ha. exists n, (EvLog l msg :: evs). eauto.
  - destruct Hin.
Qed.



(** ** Grant rule engine *)

Lemma yields_for_list {A B} (l : list A) (body : A -> gen B) :
  (forall x, In x l -> gen_end (body x) = None) ->
  yields (gen_for_list l body) = flat_map (fun x => yields (body x)) l
  /\ gen_end (gen_for_list l body) = None.
Proof.
  induction l as [|x l IH]; simpl; intros Hl; [auto|].
  destruct IH as [IH1 IH2]; [intros y Hy; apply Hl; now right|].
  rewrite yields_app, gen_end_app, (Hl x) by now left. now rewrite IH1.
Qed.

Lemma yields_for_list_in {A B} (l : list A) (body : A -> gen B) (y : B) :
  In y (yields (gen_for_list l body)) ->
  exists x, In x l /\ In y (yields (body x)).
Proof.
  induction l as [|x l IH]; simpl; [intros []|].
  rewrite yields_app. intros Hin. apply in_app_or in Hin as [Hin|Hin].
  - exists x. auto.
  - destruct (gen_end (body x)); [destruct Hin|].
    destruct (IH Hin) as (x' & Hx' & Hy). exists x'. auto.
Qed.

Lemma gen_collect_try_ok {A B C} (g : gen A) (f : A -> B) (acc : list B)
    (handler : exn -> gen C) (k : list B -> gen C) :
  gen_end g = None ->
  yields (gen_collect_try g f acc handler k)
  = yields (k (acc ++ map f (yields g)))
  /\ gen_end (gen_collect_try g f acc handler k)
     = gen_end (k (acc ++ map f (yields g))).
Proof.
  revert acc. induction g as [|a g IH|l m g IH|e]; simpl; intros acc Hend.
  - now rewrite app_nil_r.
  - destruct (IH (acc ++ [f a]) Hend) as [H1 H2].
    rewrite <- app_assoc in H1, H2. auto.
  - now apply IH.
  - discriminate.
Qed.

Lemma gen_collect_try_in {A B C} (g : gen A) (f : A -> B) (acc : list B)
    (handler : exn -> gen C) (k : list B -> gen C) (y : C) :
  In y (yields (gen_collect_try g f acc handler k)) ->
  (exists xs, In y (yields (k xs))) \/ (exists e, In y (yields (handler e))).
Proof.
  revert acc. induction g as [|a g IH|l m g IH|e]; simpl; intros acc Hin;
    eauto.
Qed.

Section GrantRuleFacts.
Context `{!Templates} `{!Glob}.

Lemma yield_grant_spec (rule : GrantRule) (r : string) :
  gen_end (yield_grant rule r) = None
  /\ yields (yield_grant rule r)
     = match skipped_by (grant_role_match rule) (str_lower r) with
       | Some _ => []
       | None => [grant_for rule (str_lower r)]
       end.
Proof.
  unfold yield_grant.
  destruct (skipped_by (grant_role_match rule) (str_lower r)); simpl; auto.
Qed.

Lemma skipped_by_pattern (p : string) (n : string) :
  p <> "" ->
  skipped_by (Some p) n = if fnmatch n p then None else Some p.
Proof. intros Hp. destruct p; [contradiction|reflexivity]. Qed.

Lemma yields_grants_of_roles (rule : GrantRule) (p : string)
    (roles : list string) :
  grant_role_match rule = Some p -> p <> "" ->
  yields (gen_for_list roles (yield_grant rule))
  = map (grant_for rule)
        (List.filter (fun n => fnmatch n p) (map str_lower roles))
  /\ gen_end (gen_for_list roles (yield_grant rule)) = None.
Proof.
  intros Hm Hp.
  destruct (yields_for_list roles (yield_grant rule)) as [Hy He].
  { intros r _. apply yield_grant_spec. }
  split; [|exact He]. rewrite Hy. clear Hy He.
  induction roles as [|r roles IH]; simpl; [reflexivity|].
  rewrite IH. destruct (yield_grant_spec rule r) as [_ ->].
  rewrite Hm, (skipped_by_pattern p _ Hp).
  destruct (fnmatch (str_lower r) p); reflexivity.
Qed.

(** C5 (amended). For a grant rule whose [role_match] is a pattern that
    is not empty, over entries whose expansion ends normally, the run of
    [apply_grant_rules] ends normally and yields, in order, the grant of
    the rule for each expanded, lower-cased role name that matches the
    pattern and for no other: a name has a grant if and only if it
    matches. *)
Theorem role_match_filters_roles (rule : GrantRule) (p : string)
    (entries : list (option JEntry)) :
  grant_role_match rule = Some p -> p <> "" ->
  (forall entry, In entry entries ->
     gen_end (expand_attributes entry (grant_roles rule)) = None) ->
  gen_end (apply_grant_rules [rule] entries) = None
  /\ yields (apply_grant_rules [rule] entries)
     = map (grant_for rule)
           (List.filter (fun n => fnmatch n p) (expanded_roles rule entries))
  /\ forall n, In n (expanded_roles rule entries) ->
       ((exists g, In g (yields (apply_grant_rules [rule] entries))
                   /\ role g = n)
        <-> fnmatch n p = true).
Proof.
  intros Hm Hp Hok.
  assert (gen_end (apply_grant_rules [rule] entries) = None
          /\ yields (apply_grant_rules [rule] entries)
             = map (grant_for rule)
                 (List.filter (fun n => fnmatch n p)
                    (expanded_roles rule entries))) as [Hend Hy].
  { unfold apply_grant_rules. simpl. rewrite gen_app_done.
    unfold expanded_roles.
    induction entries as [|entry entries IH]; simpl; [auto|].
    destruct IH as [IH1 IH2]; [intros e He; apply Hok; now right|].
    destruct (gen_collect_try_ok
                (expand_attributes entry (grant_roles rule)) (fun x => x) []
                on_grant_expansion_error
                (fun roles => gen_for_list roles (yield_grant rule))
                (Hok entry (or_introl eq_refl))) as [Hc1 Hc2].
    simpl in Hc1, Hc2. rewrite map_id in Hc1, Hc2.
    destruct (yields_grants_of_roles rule p
                (yields (expand_attributes entry (grant_roles rule))) Hm Hp)
      as [Hr1 Hr2].
    rewrite gen_end_app, yields_app, Hc2, Hr2, Hc1, Hr1, IH1, IH2.
    split; [reflexivity|].
    now rewrite map_app, List.filter_app, map_app. }
  split; [exact Hend|]. split; [exact Hy|].
  intros n Hn. rewrite Hy. split.
  - intros (g & Hg & <-).
    apply in_map_iff in Hg as (n' & <- & Hn').
    apply List.filter_In in Hn' as [_ Hf]. exact Hf.
  - intros Hf. exists (grant_for rule n). split; [|reflexivity].
    apply in_map. apply List.filter_In. auto.
Qed.

(** C6. Every grant yielded by [apply_grant_rules] is the grant of one of
    the rules: its privilege is the rule's; its databases are the sentinel
    [ALL_DATABASES] when the rule leaves [databases] out or gives
    ['__all__']; its schemas are [None] when the rule leaves [schemas] out
    or gives [None], ['__all__'] or ['__any__']. *)
Theorem grant_wildcards_resolve (grant : list GrantRule)
    (entries : list (option JEntry)) (g : Grant) :
  In g (yields (apply_grant_rules grant entries)) ->
  exists rule,
    In rule grant
    /\ g = grant_for rule (role g)
    /\ (grant_databases rule = None
        \/ grant_databases rule = Some (PStr "__all__") ->
        databases g = ALL_DATABASES)
    /\ (grant_schemas rule = None \/ grant_schemas rule = Some PNone
        \/ grant_schemas rule = Some (PStr "__all__")
        \/ grant_schemas rule = Some (PStr "__any__") ->
        schemas g = None).
Proof.
  intros Hin. unfold apply_grant_rules in Hin.
  apply yields_for_list_in in Hin as (rule & Hrule & Hin).
  apply yields_for_list_in in Hin as (entry & _ & Hin).
  apply gen_collect_try_in in Hin as [(roles & Hin)|(e & Hin)].
  2:{ destruct e; destruct Hin. }
  apply yields_for_list_in in Hin as (r & _ & Hin).
  destruct (yield_grant_spec rule r) as [_ Hy]. rewrite Hy in Hin.
  destruct (skipped_by (grant_role_match rule) (str_lower r));
    [destruct Hin|].
  destruct Hin as [<-|[]].
  exists rule. split; [exact Hrule|]. split; [reflexivity|].
  simpl. split.
  - unfold resolve_databases. intros [->| ->]; reflexivity.
  - unfold resolve_schemas. intros [->|[->|[->| ->]]]; reflexivity.
Qed.

End GrantRuleFacts.

Lemma role_match_filters_roles_witness :
  gen_end (@apply_grant_rules small_templates small_glob [app_rule] [None])
  = None
  /\ yields (@apply_grant_rules small_templates small_glob [app_rule] [None])
     = [{| privilege := Some "ro"; databases := ALL_DATABASES;
           schemas := None; role := "app_ro" |}].
Proof.
  destruct (@role_match_filters_roles small_templates small_glob
              app_rule "app_*" [None] eq_refl) as (Hend & Hyields & _).
  - discriminate.
  - intros entry [<-|[]]. reflexivity.
  - split; [exact Hend|]. rewrite Hyields. reflexivity.
Defined.

(** C5, as stated, fails in two ways. A rule that carries the empty
    pattern yields a grant for a role that does not match it. And a rule
    whose expansion against an entry fails yields no grant for a role
    expanded before the failure, although the role matches the pattern. *)
Lemma role_match_does_not_decide_every_role :
  (grant_role_match empty_match_rule = Some ""
   /\ @fnmatch small_glob "admin" "" = false
   /\ yields (@apply_grant_rules small_templates small_glob
                [empty_match_rule] [None])
      = [{| privilege := Some "ro"; databases := Databases (PList ["appdb"]);
            schemas := Some (PList ["public"]); role := "admin" |}])
  /\ (grant_role_match prefix_rule = Some "a*"
      /\ @expanded_roles small_templates prefix_rule [Some team] = ["admin"]
      /\ @fnmatch small_glob "admin" "a*" = true
      /\ yields (@apply_grant_rules small_templates small_glob
                   [prefix_rule] [Some team]) = []
      /\ gen_end (@apply_grant_rules small_templates small_glob
                    [prefix_rule] [Some team])
         = Some (UserError (FailedProcessGrant "Unknown attribute mail"))).
Proof. repeat split; reflexivity. Qed.

Lemma grant_wildcards_resolve_witness :
  exists rule,
    In rule [app_rule]
    /\ {| privilege := Some "ro"; databases := ALL_DATABASES;
          schemas := None; role := "app_ro" |}
       = @grant_for small_templates small_glob rule "app_ro"
    /\ (grant_databases rule = None
        \/ grant_databases rule = Some (PStr "__all__") ->
        ALL_DATABASES = ALL_DATABASES)
    /\ (grant_schemas rule = None \/ grant_schemas rule = Some PNone
        \/ grant_schemas rule = Some (PStr "__all__")
        \/ grant_schemas rule = Some (PStr "__any__") ->
        @None pyval = None).
Proof.
  apply (@grant_wildcards_resolve small_templates small_glob
           [app_rule] [None]
           {| privilege := Some "ro"; databases := ALL_DATABASES;
              schemas := None; role := "app_ro" |}).
  left. reflexivity.
Defined.

(** ** Orchestrator *)

Lemma before_grants_app (e1 e2 : list event) :
  before_grants e1 -> before_grants e2 -> before_grants (e1 ++ e2).
Proof. unfold before_grants. intros H1 H2. apply Forall_app. auto. Qed.

Lemma before_grants_cons (ev : event) (evs : list event) :
  is_grant_event ev = false -> before_grants evs -> before_grants (ev :: evs).
Proof. intros H1 H2. constructor; assumption. Qed.

Lemma before_grants_nil : before_grants [].
Proof. constructor. Qed.

Create HintDb grants.
#[local] Hint Resolve before_grants_app before_grants_cons before_grants_nil
  : grants.

Section DirectoryEvents.
Context {W : Type} `{!LdapConn W} `{!Codec}.

Lemma _query_ldap_before_grants base flt attributes scope (w w' : W) r evs :
  _query_ldap base flt attributes scope w = (r, w', evs) -> before_grants evs.
Proof.
  unfold _query_ldap.
  destruct (search_s base scope flt attributes w) as [[err|raw] w1].
  - intros [= <- <- <-]. auto with grants.
  - destruct (collect_entries raw []) as [r' evs'] eqn:E.
    intros [= <- <- <-].
    apply collect_entries_events in E.
    repeat (apply before_grants_cons; [reflexivity|]).
    eapply List.Forall_impl; [|exact E]. intros ev ->. reflexivity.
Qed.

Lemma resolve_value_before_grants joins (attr value : string)
    (c c' : join_cache) (w w' : W) r evs :
  resolve_value joins attr value c w = (r, c', w', evs) -> before_grants evs.
Proof.
  unfold resolve_value.
  destruct (dict_get attr joins) as [j|];
    [|intros [= <- <- <- <-]; auto with grants].
  assert (forall r0 c0 w0 evs0,
             match j_attributes j with
             | [] =>
                 (Return (Some (value, [("dn", [value])])),
                  <[(attr, value) := [("dn", [value])]]> c, w, [])
             | _ :: _ =>
                 match _query_ldap value (j_filter j) (j_attributes j)
                         (j_scope j) w with
                 | (Return (first :: _), w', evs) =>
                     (Return (Some (value,
                                    dict_update [("dn", [value])] (snd first))),
                      <[(attr, value) :=
                          dict_update [("dn", [value])] (snd first)]> c, w',
                      EvJoin attr value JoinResolved :: evs)
                 | (Return [], w', evs) =>
                     (Return None, c, w', EvJoin attr value JoinEmpty :: evs)
                 | (Raise (UserError e), w', evs) =>
                     (Return None, c, w',
                      EvJoin attr value JoinFailed
                        :: evs ++ [EvLog Warning (IgnoringJoin value e)])
                 | (Raise e, w', evs) =>
                     (Raise e, c, w', EvJoin attr value JoinFailed :: evs)
                 end
             end = (r0, c0, w0, evs0) -> before_grants evs0) as Hfetch.
  { intros r0 c0 w0 evs0.
    destruct (j_attributes j) as [|x xs] eqn:Ea;
      [intros [= <- <- <- <-]; auto with grants|].
    rewrite <- Ea.
    destruct (_query_ldap value (j_filter j) (j_attributes j) (j_scope j) w)
      as [[res w1] evs1] eqn:Eq.
    apply _query_ldap_before_grants in Eq.
    destruct res as [[|first others]|e]; [| |destruct e];
      intros [= <- <- <- <-]; auto with grants. }
  destruct (c !! (attr, value)) as [[|kv more]|].
  - apply Hfetch.
  - intros [= <- <- <- <-]. auto with grants.
  - apply Hfetch.
Qed.

Lemma resolve_values_before_grants joins (attr : string) (values : list string)
    (c c' : join_cache) (w w' : W) r evs :
  resolve_values joins attr values c w = (r, c', w', evs) -> before_grants evs.
Proof.
  revert c w r c' w' evs.
  induction values as [|value rest IH]; simpl; intros c w r c' w' evs.
  - intros [= <- <- <- <-]. auto with grants.
  - destruct (resolve_value joins attr value c w) as [[[r1 c1] w1] e1] eqn:E1.
    apply resolve_value_before_grants in E1.
    destruct r1 as [o|e]; [|intros [= <- <- <- <-]; exact E1].
    destruct (resolve_values joins attr rest c1 w1) as [[[r2 c2] w2] e2] eqn:E2.
    apply IH in E2.
    destruct r2; intros [= <- <- <- <-]; auto with grants.
Qed.

Lemma resolve_attrs_before_grants joins (items : pydict (list string))
    (c c' : join_cache) (w w' : W) r evs :
  resolve_attrs joins items c w = (r, c', w', evs) -> before_grants evs.
Proof.
  revert c w r c' w' evs.
  induction items as [|[attr values] rest IH]; simpl; intros c w r c' w' evs.
  - intros [= <- <- <- <-]. auto with grants.
  - destruct (resolve_values joins attr values c w)
      as [[[r1 c1] w1] e1] eqn:E1.
    apply resolve_values_before_grants in E1.
    destruct r1 as [o|e]; [|intros [= <- <- <- <-]; exact E1].
    destruct (resolve_attrs joins rest c1 w1) as [[[r2 c2] w2] e2] eqn:E2.
    apply IH in E2.
    destruct r2; intros [= <- <- <- <-]; auto with grants.
Qed.

Lemma resolve_entries_before_grants joins (entries : list Entry)
    (c c' : join_cache) (w w' : W) r evs :
  resolve_entries joins entries c w = (r, c', w', evs) -> before_grants evs.
Proof.
  revert c w r c' w' evs.
  induction entries as [|entry rest IH]; simpl; intros c w r c' w' evs.
  - intros [= <- <- <- <-]. auto with grants.
  - destruct (resolve_attrs joins (snd entry) c w)
      as [[[r1 c1] w1] e1] eqn:E1.
    apply resolve_attrs_before_grants in E1.
    destruct r1 as [o|e]; [|intros [= <- <- <- <-]; exact E1].
    destruct (resolve_entries joins rest c1 w1) as [[[r2 c2] w2] e2] eqn:E2.
    apply IH in E2.
    destruct r2; intros [= <- <- <- <-]; auto with grants.
Qed.

Lemma query_ldap_before_grants base flt attributes joins scope (w w' : W) r evs :
  query_ldap base flt attributes joins scope w = (r, w', evs) ->
  before_grants evs.
Proof.
  unfold query_ldap.
  destruct (_query_ldap base flt attributes scope w)
    as [[[entries|e] w1] evs1] eqn:Eq;
    apply _query_ldap_before_grants in Eq.
  - destruct (resolve_entries joins entries ∅ w1) as [[[r2 c2] w2] e2] eqn:E2.
    apply resolve_entries_before_grants in E2.
    intros [= <- <- <-]. auto with grants.
  - intros [= <- <- <-]. exact Eq.
Qed.

End DirectoryEvents.

Lemma aggregate_roles_before_grants (g : gen Role) (m : RoleSet) r evs :
  aggregate_roles g m = (r, evs) -> before_grants evs.
Proof.
  revert m r evs. induction g as [|x k IH|l msg k IH|e]; simpl; intros m r evs.
  - intros [= <- <-]. auto with grants.
  - destruct (m !! name x) as [known|]; [|apply IH].
    destruct (merge x known) as [r1|e]; [apply IH|].
    destruct e; intros [= <- <-]; auto with grants.
  - destruct (aggregate_roles k m) as [r' evs'] eqn:E. apply IH in E.
    intros [= <- <-]. auto with grants.
  - intros [= <- <-]. auto with grants.
Qed.

Section OrchestratorFacts.
Context {W : Type} `{!LdapConn W} `{!Codec} `{!Templates} `{!Glob} `{!Cluster W}.

Lemma aggregate_grants_before_grants (g : gen Grant) (source : string)
    (acl : Acl) r evs :
  aggregate_grants g source acl = (r, evs) -> before_grants evs.
Proof.
  revert acl r evs. induction g as [|x k IH|l msg k IH|e]; simpl;
    intros acl r evs.
  - intros [= <- <-]. auto with grants.
  - destruct (acl_add x acl) as [acl'|e].
    + destruct (aggregate_grants k source acl') as [r' evs'] eqn:E.
      apply IH in E. intros [= <- <-]. auto with grants.
    + intros [= <- <-]. auto with grants.
  - destruct (aggregate_grants k source acl) as [r' evs'] eqn:E. apply IH in E.
    intros [= <- <-]. auto with grants.
  - intros [= <- <-]. auto with grants.
Qed.

Lemma add_grants_before_grants (g : gen Grant) (acl : Acl) r evs :
  add_grants g acl = (r, evs) -> before_grants evs.
Proof.
  revert acl r evs. induction g as [|x k IH|l msg k IH|e]; simpl;
    intros acl r evs.
  - intros [= <- <-]. auto with grants.
  - destruct (acl_add x acl) as [acl'|e]; [apply IH|].
    intros [= <- <-]. auto with grants.
  - destruct (add_grants k acl) as [r' evs'] eqn:E. apply IH in E.
    intros [= <- <-]. auto with grants.
  - intros [= <- <-]. auto with grants.
Qed.

Lemma mapping_entries_before_grants (mapping : Mapping) (w w' : W) r evs :
  mapping_entries mapping w = (r, w', evs) -> before_grants evs.
Proof.
  unfold mapping_entries. destruct (map_ldap mapping) as [q|].
  - destruct (query_ldap (q_base q) (q_filter q) (q_attributes q) (q_joins q)
                (q_scope q) w) as [[[entries|e] w1] evs1] eqn:Eq;
      apply query_ldap_before_grants in Eq;
      intros [= <- <- <-]; auto with grants.
  - intros [= <- <- <-]. auto with grants.
Qed.

Lemma inspect_mappings_before_grants (syncmap : list Mapping)
    (ldaproles : RoleSet) (ldapacl : Acl) (w w' : W) r evs :
  inspect_mappings syncmap ldaproles ldapacl w = (r, w', evs) ->
  before_grants evs.
Proof.
  revert ldaproles ldapacl w r w' evs.
  induction syncmap as [|mapping rest IH]; simpl;
    intros ldaproles ldapacl w r w' evs.
  - intros [= <- <- <-]. auto with grants.
  - destruct (mapping_entries mapping w) as [[[[entries source]|e] w1] evs1] eqn:E1;
      apply mapping_entries_before_grants in E1;
      [|intros [= <- <- <-]; exact E1].
    destruct (aggregate_roles (apply_role_rules (map_roles mapping) entries)
                ldaproles) as [[ldaproles'|e] evs2] eqn:E2;
      apply aggregate_roles_before_grants in E2;
      [|intros [= <- <- <-]; auto with grants].
    destruct (aggregate_grants (apply_grant_rules (map_grant mapping) entries)
                source ldapacl) as [[ldapacl'|e] evs3] eqn:E3;
      apply aggregate_grants_before_grants in E3;
      [|intros [= <- <- <-]; auto with grants].
    destruct (inspect_mappings rest ldaproles' ldapacl' w1)
      as [[r4 w4] evs4] eqn:E4.
    apply IH in E4. intros [= <- <- <-]. auto with grants.
Qed.

Lemma inspect_ldap_calm (syncmap : list Mapping) : calm (inspect_ldap syncmap).
Proof.
  intros w r w' evs. unfold inspect_ldap.
  destruct (inspect_mappings syncmap ∅ new_acl w)
    as [[[[ldaproles ldapacl]|e] w1] evs1] eqn:E;
    apply inspect_mappings_before_grants in E;
    intros [= <- <- <-]; exact E.
Qed.

(** *** The monad of the orchestrator *)

Lemma bind_inv {A B} (m : M W A) (f : A -> M W B) (w w' : W) r evs :
  bind m f w = (r, w', evs) ->
  (exists e, m w = (Raise e, w', evs) /\ r = Raise e)
  \/ (exists a w1 e1 e2,
        m w = (Return a, w1, e1) /\ f a w1 = (r, w', e2) /\ evs = e1 ++ e2).
Proof.
  unfold bind. destruct (m w) as [[[a|e] w1] e1].
  - destruct (f a w1) as [[r2 w2] e2] eqn:E.
    intros [= <- <- <-]. right. exists a, w1, e1, e2. auto.
  - intros [= <- <- <-]. left. eauto.
Qed.

Lemma bind_Return_inv {A B} (m : M W A) (f : A -> M W B) (w w' : W) b evs :
  bind m f w = (Return b, w', evs) ->
  exists a w1 e1 e2,
    m w = (Return a, w1, e1) /\ f a w1 = (Return b, w', e2) /\ evs = e1 ++ e2.
Proof.
  intros Hb. apply bind_inv in Hb as [(e & _ & He)|Hb]; [discriminate|exact Hb].
Qed.

Lemma calm_bind {A B} (m : M W A) (f : A -> M W B) :
  calm m -> (forall a, calm (f a)) -> calm (bind m f).
Proof.
  intros Hm Hf w r w' evs Hb.
  apply bind_inv in Hb as [(e & Hb & _)|(a & w1 & e1 & e2 & Hb1 & Hb2 & ->)].
  - eapply Hm, Hb.
  - apply before_grants_app; [eapply Hm, Hb1|eapply Hf, Hb2].
Qed.

Lemma calm_ret {A} (a : A) : calm (ret a : M W A).
Proof. intros w r w' evs [= <- <- <-]. constructor. Qed.

Lemma calm_log (lvl : level) (m : logmsg) : calm (log lvl m : M W unit).
Proof. intros w r w' evs [= <- <- <-]. repeat constructor. Qed.

Lemma calm_call {A} (ev : event) (f : W -> result A * W) :
  is_grant_event ev = false -> calm (call ev f).
Proof.
  intros Hev w r w' evs. unfold call. destruct (f w) as [r1 w1].
  intros [= <- <- <-]. repeat constructor. exact Hev.
Qed.

Lemma calm_ran (ev : result Z -> event) (f : W -> result Z * W) :
  (forall r, is_grant_event (ev r) = false) -> calm (ran ev f).
Proof.
  intros Hev w r w' evs. unfold ran. destruct (f w) as [r1 w1].
  intros [= <- <- <-]. repeat constructor. apply Hev.
Qed.

Lemma calm_modify (f : W -> W) : calm (modify f).
Proof. intros w r w' evs [= <- <- <-]. constructor. Qed.

Lemma calm_read {A} (f : W -> A) : calm (read f).
Proof. intros w r w' evs [= <- <- <-]. constructor. Qed.

Lemma calm_lift {A} (r : result A) : calm (lift r : M W A).
Proof. intros w r' w' evs [= <- <- <-]. constructor. Qed.

Lemma calm_value_error {A} (m : M W A) :
  calm m -> calm (value_error_is_user_error m).
Proof.
  intros Hm w r w' evs. unfold value_error_is_user_error.
  destruct (m w) as [[r1 w1] e1] eqn:E. apply Hm in E.
  destruct r1 as [a|[]]; intros [= <- <- <-]; exact E.
Qed.

Lemma calm_report (count : Z) : calm (report count : M W Z).
Proof.
  unfold report. apply calm_bind; [|intros _; apply calm_ret].
  destruct (negb (count =? 0)%Z); apply calm_log.
Qed.

Variable self : Config W.

Lemma sync_roles_calm (syncmap : list Mapping) : calm (sync_roles syncmap).
Proof.
  unfold sync_roles, downgrade_options.
  repeat first
    [ match goal with |- calm (if ?c then _ else _) => destruct c end
    | apply calm_ret | apply calm_log | apply calm_modify | apply calm_read
    | apply calm_lift | apply calm_value_error | apply inspect_ldap_calm
    | apply calm_call; reflexivity
    | apply calm_ran; reflexivity
    | apply calm_bind
    | match goal with
      | |- forall _ : (_ * _ * _)%type, _ => intros [[? ?] ?]
      | |- forall _ : (_ * _)%type, _ => intros [? ?]
      | |- forall _, calm _ => intro
      end ].
Qed.

(** The role phase ends with the queries of the roles: what it returns as
    the count is what they returned. *)
Lemma sync_roles_ran (syncmap : list Mapping) (w w' : W)
    databases pgmanagedroles ldaproles ldapacl count evs :
  sync_roles syncmap w
    = (Return (databases, pgmanagedroles, ldaproles, ldapacl, count), w', evs) ->
  exists evs0, evs = evs0 ++ [EvRunRoleQueries (Return count)].
Proof.
  unfold sync_roles. intros Hs.
  repeat (let H' := fresh "Hs" in
          apply bind_Return_inv in Hs as (? & ? & ? & ? & ? & H' & ->);
          rename H' into Hs;
          repeat match goal with
                 | x : (_ * _)%type |- _ => destruct x
                 | x : unit |- _ => destruct x
                 end;
          cbv beta iota in Hs).
  match goal with
  | Hr : ran _ _ _ = _ |- _ =>
      unfold ran in Hr;
      match type of Hr with
      | context [run_queries ?q ?w0] => destruct (run_queries q w0)
      end;
      injection Hr as -> <- <-
  end.
  unfold ret in Hs. injection Hs as <- <- <- <- <- <- <-.
  eexists. rewrite app_nil_r. repeat rewrite app_assoc. reflexivity.
Qed.

Lemma before_grants_In (evs : list event) (ev : event) :
  before_grants evs -> In ev evs -> is_grant_event ev = false.
Proof. intros Hq Hin. exact (proj1 (List.Forall_forall _ _) Hq _ Hin). Qed.

(** C4. In every run of [sync]: when no privilege is configured, no
    event of the run belongs to the privilege phase (no fetch of the
    schemas, no fetch of the grants, no queries of a grant diff) and the
    count returned is the count that the queries of the roles returned;
    and whenever an event of the privilege phase occurs, privileges are
    configured and the queries of the roles have run and returned before
    it. *)
Theorem privileges_gate_the_grant_phase (syncmap : list Mapping)
    (w w' : W) (r : result Z) (evs : list event) :
  sync self syncmap w = (r, w', evs) ->
  (privileges self = [] ->
     before_grants evs
     /\ forall count, r = Return count ->
          In (EvRunRoleQueries (Return count)) evs)
  /\ (forall before ev after,
        evs = before ++ ev :: after -> is_grant_event ev = true ->
        privileges self <> []
        /\ exists n, In (EvRunRoleQueries (Return n)) before).
Proof.
  intros Hs.
  assert (privileges self = [] ->
          before_grants evs
          /\ forall count, r = Return count ->
               In (EvRunRoleQueries (Return count)) evs) as Hnone.
  { intros Hp. unfold sync in Hs.
    apply bind_inv in Hs
      as [(e & Hs & ->)|([[[[dbs pgm] ldr] acl] n] & w1 & e1 & e2 & Hs1 & Hs2 & ->)].
    - split; [eapply sync_roles_calm, Hs|discriminate].
    - cbv beta iota in Hs2. rewrite Hp in Hs2.
      pose proof (sync_roles_calm _ _ _ _ _ Hs1) as Hc1.
      destruct (sync_roles_ran _ _ _ _ _ _ _ _ _ Hs1) as (e0 & ->).
      split.
      + apply before_grants_app; [exact Hc1|].
        revert Hs2. apply calm_bind; [|intro; apply calm_report].
        apply calm_bind; [apply calm_log|intro; apply calm_ret].
      + intros count ->.
        apply bind_Return_inv in Hs2 as (a & w2 & e3 & e4 & Hb1 & Hb2 & _).
        apply bind_Return_inv in Hb1 as (? & ? & ? & ? & _ & Hb1 & _).
        unfold ret in Hb1. injection Hb1 as <- _ _.
        unfold report in Hb2.
        apply bind_Return_inv in Hb2 as (? & ? & ? & ? & _ & Hb2 & _).
        unfold ret in Hb2. injection Hb2 as <- _ _.
        apply in_or_app. left. apply in_or_app. right. now left. }
  split; [exact Hnone|].
  intros before ev after Heq Hev.
  assert (privileges self <> []) as Hp.
  { intros Hp. destruct (Hnone Hp) as [Hq _].
    assert (is_grant_event ev = false) as Hf.
    { apply (before_grants_In evs); [exact Hq|].
      rewrite Heq. apply in_or_app. right. now left. }
    congruence. }
  split; [exact Hp|].
  unfold sync in Hs.
  apply bind_inv in Hs
    as [(e & Hs & ->)|([[[[dbs pgm] ldr] acl] n] & w1 & e1 & e2 & Hs1 & Hs2 & Hevs)].
  - exfalso. apply sync_roles_calm in Hs.
    assert (is_grant_event ev = false) as Hf.
    { apply (before_grants_In evs); [exact Hs|].
      rewrite Heq. apply in_or_app. right. now left. }
    congruence.
  - pose proof (sync_roles_calm _ _ _ _ _ Hs1) as Hc1.
    destruct (sync_roles_ran _ _ _ _ _ _ _ _ _ Hs1) as (e0 & He1).
    exists n. rewrite Hevs in Heq.
    apply List.app_eq_app in Heq as (l & [[Hl1 Hl2]|[Hl1 Hl2]]).
    + destruct l as [|x l].
      * rewrite app_nil_r in Hl1. rewrite <- Hl1, He1.
        apply in_or_app. right. now left.
      * exfalso. simpl in Hl2. injection Hl2 as <- _.
        assert (is_grant_event ev = false) as Hf.
        { apply (before_grants_In e1); [exact Hc1|].
          rewrite Hl1. apply in_or_app. right. now left. }
        congruence.
    + rewrite Hl1, He1. apply in_or_app. left.
      apply in_or_app. right. now left.
Qed.

End OrchestratorFacts.

Lemma privileges_gate_the_grant_phase_witness :
  (before_grants (snd plain_sync_run)
   /\ fst (fst plain_sync_run) = Return 3%Z
   /\ In (EvRunRoleQueries (Return 3%Z)) (snd plain_sync_run))
  /\ nth 27 (snd grants_sync_run) EvFetchMe = EvFetchSchemas
  /\ exists n,
       In (EvRunRoleQueries (Return n)) (firstn 27 (snd grants_sync_run)).
Proof.
  split.
  - destruct (@privileges_gate_the_grant_phase
                Directory directory_conn codec_7bit small_templates small_glob
                list_cluster no_privileges groups_syncmap groups_dir
                (snd (fst plain_sync_run)) (fst (fst plain_sync_run))
                (snd plain_sync_run) eq_refl) as [Hnone _].
    destruct (Hnone eq_refl) as [Hquiet Hcount].
    split; [exact Hquiet|]. split; [reflexivity|].
    apply Hcount. reflexivity.
  - split; [reflexivity|].
    destruct (@privileges_gate_the_grant_phase
                Directory directory_conn codec_7bit small_templates small_glob
                list_cluster ro_privilege groups_syncmap groups_dir
                (snd (fst grants_sync_run)) (fst (fst grants_sync_run))
                (snd grants_sync_run) eq_refl) as [_ Hafter].
    destruct (Hafter (firstn 27 (snd grants_sync_run)) EvFetchSchemas
                (skipn 28 (snd grants_sync_run)) eq_refl eq_refl)
      as [_ Hran].
    exact Hran.
Defined.

(** * Further properties of the manager *)

(** ** Failures of the directory fetcher *)

Section FetcherFailures.
Context {W : Type} `{!LdapConn W} `{!Codec}.

Lemma has_dn_nonempty (dn : bytes) : dn <> [] -> has_dn (Some dn) = Some dn.
Proof. destruct dn; [contradiction|reflexivity]. Qed.

(** The loop over a list of raw results in two parts: once every retained
    result of the first part has decoded, the loop goes on with the second
    part. *)
Lemma collect_entries_app (pre rest : list raw_entry) (acc es : list Entry) :
  all_right (map normalize (retained pre)) = Some es ->
  collect_entries (pre ++ rest) acc =
    (fst (collect_entries rest (acc ++ es)),
     repeat (EvLog Debug DiscardingRef) (length pre - length (retained pre))
       ++ snd (collect_entries rest (acc ++ es))).
Proof.
  revert acc es.
  induction pre as [|[dn attrs] pre IH]; simpl; intros acc es Hes.
  - injection Hes as <-. rewrite app_nil_r.
    now destruct (collect_entries rest acc).
  - destruct (has_dn dn) as [d|] eqn:E.
    + simpl in Hes. unfold normalize in Hes at 1. simpl in Hes.
      destruct (decode_value (d, dict_set "dn" [d] attrs)) as [err|entry];
        [discriminate|].
      destruct (all_right (map normalize (retained pre))) as [es'|] eqn:E';
        [|discriminate].
      injection Hes as <-.
      rewrite (IH _ es' eq_refl). simpl. now rewrite <- app_assoc.
    + rewrite (IH acc es Hes). simpl.
      pose proof (retained_length pre).
      replace (S (length pre) - length (retained pre))%nat
        with (S (length pre - length (retained pre))) by lia.
      reflexivity.
Qed.

Lemma collect_entries_raises_at (raw : list raw_entry) (acc : list Entry)
    (e : exn) (evs : list event) :
  collect_entries raw acc = (Raise e, evs) ->
  exists dn attrs err,
    In (Some dn, attrs) raw /\ dn <> []
    /\ normalize (dn, attrs) = inl err
    /\ e = UserError (FailedDecode dn err).
Proof.
  revert acc evs.
  induction raw as [|[dn attrs] raw IH]; simpl; intros acc evs Hc.
  - discriminate.
  - destruct (has_dn dn) as [d|] eqn:E.
    + apply has_dn_Some in E as [-> Hd].
      destruct (decode_value (d, dict_set "dn" [d] attrs)) as [err|entry] eqn:Ed.
      * injection Hc as <- <-. exists d, attrs, err.
        split; [now left|]. split; [exact Hd|]. split; [|reflexivity].
        unfold normalize. simpl. now rewrite Ed.
      * destruct (IH _ _ Hc) as (dn' & attrs' & err & Hin & H').
        exists dn', attrs', err. split; [now right|exact H'].
    + destruct (collect_entries raw acc) as [r' evs'] eqn:E'.
      injection Hc as -> <-.
      destruct (IH _ _ E') as (dn' & attrs' & err & Hin & H').
      exists dn', attrs', err. split; [now right|exact H'].
Qed.

(** X1. [_query_ldap] fails in two ways only, both a [UserError]: the
    search itself failed, and the error is "Failed to query LDAP" with the
    text of the transport, after the search and before any log record; or
    one of the results received, with a DN that is not empty, did not
    decode, and the error is "Failed to decode data from" that DN. *)
Theorem fetcher_fails_with_query_or_decode_error
    base flt attributes scope (w w' : W) e evs :
  _query_ldap base flt attributes scope w = (Raise e, w', evs) ->
  (exists err,
      search_s base scope flt attributes w = (inl err, w')
      /\ e = UserError (FailedQuery err)
      /\ evs = [EvSearch base scope flt attributes])
  \/ (exists raw dn attrs err,
        search_s base scope flt attributes w = (inr raw, w')
        /\ In (Some dn, attrs) raw /\ dn <> []
        /\ normalize (dn, attrs) = inl err
        /\ e = UserError (FailedDecode dn err)).
Proof.
  unfold _query_ldap.
  destruct (search_s base scope flt attributes w) as [[err|raw] w1].
  - intros [= <- <- <-]. left. eauto.
  - destruct (collect_entries raw []) as [r evs'] eqn:E.
    intros [= -> <- <-]. right.
    destruct (collect_entries_raises_at _ _ _ _ E)
      as (dn & attrs & err & H1 & H2 & H3 & H4).
    exists raw, dn, attrs, err. auto.
Qed.

(** X2. The fetcher stops at the first result that does not decode: when
    the results before it decode, it raises "Failed to decode data from"
    the DN of that result, whatever follows it; the entries decoded so far
    are lost, and the records logged are the count of the results received
    and one record per referral discarded before the failure. *)
Theorem fetcher_stops_at_first_undecodable_entry
    base flt attributes scope (w w' : W) pre dn attrs post es err :
  search_s base scope flt attributes w
    = (inr (pre ++ (Some dn, attrs) :: post), w') ->
  all_right (map normalize (retained pre)) = Some es ->
  dn <> [] ->
  normalize (dn, attrs) = inl err ->
  _query_ldap base flt attributes scope w =
    (Raise (UserError (FailedDecode dn err)), w',
     EvSearch base scope flt attributes
       :: EvLog Debug (GotEntries (length pre + S (length post)))
       :: repeat (EvLog Debug DiscardingRef)
            (length pre - length (retained pre))).
Proof.
  intros Hs Hpre Hdn Herr. unfold _query_ldap. rewrite Hs.
  rewrite (collect_entries_app pre _ [] es Hpre).
  destruct dn as [|x dn]; [contradiction|].
  unfold normalize in Herr. simpl in Herr. simpl collect_entries.
  destruct (decode_value (x :: dn, dict_set "dn" [x :: dn] attrs))
    as [err'|entry]; [|discriminate].
  injection Herr as ->. simpl.
  rewrite app_nil_r, length_app. reflexivity.
Qed.

End FetcherFailures.

Lemma fetcher_fails_with_query_or_decode_error_witness :
  (exists err,
      @search_s Directory directory_conn "ou=staff" 2 "(cn=*)" ["cn"] staff_dir
        = (inl err, staff_dir)
      /\ UserError (FailedDecode (b "cn=zoe,ou=staff") "invalid start byte")
         = UserError (FailedQuery err)
      /\ [EvSearch "ou=staff" 2 "(cn=*)" ["cn"];
          EvLog Debug (GotEntries 4); EvLog Debug DiscardingRef]
         = [EvSearch "ou=staff" 2 "(cn=*)" ["cn"]])
  \/ (exists raw dn attrs err,
        @search_s Directory directory_conn "ou=staff" 2 "(cn=*)" ["cn"] staff_dir
          = (inr raw, staff_dir)
        /\ In (Some dn, attrs) raw /\ dn <> []
        /\ @normalize codec_7bit (dn, attrs) = inl err
        /\ UserError (FailedDecode (b "cn=zoe,ou=staff") "invalid start byte")
           = UserError (FailedDecode dn err)).
Proof.
  apply (@fetcher_fails_with_query_or_decode_error
           Directory directory_conn codec_7bit
           "ou=staff" "(cn=*)" ["cn"] 2 staff_dir staff_dir).
  reflexivity.
Defined.

Lemma fetcher_stops_at_first_undecodable_entry_witness :
  @_query_ldap Directory directory_conn codec_7bit
     "ou=staff" "(cn=*)" ["cn"] 2 staff_dir =
    (Raise (UserError (FailedDecode (b "cn=zoe,ou=staff") "invalid start byte")),
     staff_dir,
     [EvSearch "ou=staff" 2 "(cn=*)" ["cn"];
      EvLog Debug (GotEntries 4); EvLog Debug DiscardingRef]).
Proof.
  apply (@fetcher_stops_at_first_undecodable_entry
           Directory directory_conn codec_7bit
           "ou=staff" "(cn=*)" ["cn"] 2 staff_dir staff_dir
           [(None, []);
            (Some (b "cn=alice,ou=staff"), [("cn", [b "alice"])])]
           (b "cn=zoe,ou=staff") [("cn", [[Byte.xe9]])]
           [(Some (b "cn=bob,ou=staff"), [("cn", [b "bob"])])]
           [("cn=alice,ou=staff",
             [("cn", ["alice"]); ("dn", ["cn=alice,ou=staff"])])]
           "invalid start byte");
    [reflexivity|reflexivity|discriminate|reflexivity].
Defined.

(** ** The runs of the join resolver *)

Section JoinSteps.
Context {W : Type} `{!LdapConn W} `{!Codec}.
Variable joins : pydict Join.

(** Every round of the innermost loop goes one of the six ways. *)
Lemma resolve_value_step (attr value : string) (c c' : join_cache)
    (w w' : W) r evs :
  resolve_value joins attr value c w = (r, c', w', evs) ->
  value_step joins attr value c w r c' w' evs.
Proof.
  unfold resolve_value.
  destruct (dict_get attr joins) as [j|] eqn:Ej.
  2:{ intros [= <- <- <- <-]. now constructor. }
  destruct (j_attributes j) as [|x xs] eqn:Ea.
  - destruct (c !! (attr, value)) as [[|kv more]|] eqn:Ec;
      intros [= <- <- <- <-].
    + eapply step_short; eauto.
    + eapply step_cached; eauto; discriminate.
    + eapply step_short; eauto.
  - destruct (_query_ldap value (j_filter j) (x :: xs) (j_scope j) w)
      as [[res w1] evs0] eqn:Eq.
    rewrite <- Ea in Eq.
    assert (j_attributes j <> []) as Hattrs by (rewrite Ea; discriminate).
    assert (forall e, res = Raise e -> exists m, e = UserError m) as Hraise.
    { intros e ->. eapply _query_ldap_raises, Eq. }
    destruct (c !! (attr, value)) as [[|kv more]|] eqn:Ec.
    2:{ intros [= <- <- <- <-]. eapply step_cached; eauto; discriminate. }
    all: destruct res as [[|first others]|e];
      [ intros [= <- <- <- <-]; eapply step_empty; eauto
      | intros [= <- <- <- <-]; eapply step_resolved; eauto
      | destruct (Hraise e eq_refl) as [m ->];
        intros [= <- <- <- <-]; eapply step_failed; eauto ].
Qed.

Lemma value_step_kept (attr value : string) (c c' : join_cache) (w w' : W)
    r evs :
  value_step joins attr value c w r c' w' evs ->
  exists o, r = Return o /\ forall p, o = Some p -> fst p = value.
Proof.
  intros Hs. destruct Hs; eexists; (split; [reflexivity|]);
    intros p [= <-]; reflexivity.
Qed.

(** The values kept for an attribute are, in order, some of its values. *)
Lemma resolve_values_sublist (attr : string) (values : list string)
    (c c' : join_cache) (w w' : W) vs evs :
  resolve_values joins attr values c w = (Return vs, c', w', evs) ->
  map fst vs `sublist_of` values.
Proof.
  revert c w c' w' vs evs.
  induction values as [|value rest IH]; simpl; intros c w c' w' vs evs.
  - intros [= <- <- <- <-]. constructor.
  - destruct (resolve_value joins attr value c w) as [[[r1 c1] w1] e1] eqn:E1.
    apply resolve_value_step, value_step_kept in E1 as (o & -> & Ho).
    destruct (resolve_values joins attr rest c1 w1)
      as [[[[vs2|e] c2] w2] e2] eqn:E2; [|discriminate].
    intros [= <- <- <- <-]. apply IH in E2.
    destruct o as [p|]; simpl.
    + rewrite (Ho p eq_refl). now constructor.
    + now constructor.
Qed.

Lemma resolve_attrs_shape (items : pydict (list string))
    (c c' : join_cache) (w w' : W) d evs :
  resolve_attrs joins items c w = (Return d, c', w', evs) ->
  Forall2 (fun item out =>
             fst out = fst item /\ map fst (snd out) `sublist_of` snd item)
          items d.
Proof.
  revert c w c' w' d evs.
  induction items as [|[attr values] rest IH]; simpl; intros c w c' w' d evs.
  - intros [= <- <- <- <-]. constructor.
  - destruct (resolve_values joins attr values c w)
      as [[[[vs|e] c1] w1] e1] eqn:E1; [|discriminate].
    destruct (resolve_attrs joins rest c1 w1)
      as [[[[d2|e] c2] w2] e2] eqn:E2; [|discriminate].
    intros [= <- <- <- <-]. constructor; [|eapply IH, E2].
    split; [reflexivity|]. eapply resolve_values_sublist, E1.
Qed.

Lemma resolve_entries_shape (entries : list Entry)
    (c c' : join_cache) (w w' : W) jentries evs :
  resolve_entries joins entries c w = (Return jentries, c', w', evs) ->
  Forall2 (fun e je =>
             fst je = fst e
             /\ Forall2 (fun item out =>
                           fst out = fst item
                           /\ map fst (snd out) `sublist_of` snd item)
                        (snd e) (snd je))
          entries jentries.
Proof.
  revert c w c' w' jentries evs.
  induction entries as [|entry rest IH]; simpl; intros c w c' w' jentries evs.
  - intros [= <- <- <- <-]. constructor.
  - destruct (resolve_attrs joins (snd entry) c w)
      as [[[[d|e] c1] w1] e1] eqn:E1; [|discriminate].
    destruct (resolve_entries joins rest c1 w1)
      as [[[[es|e] c2] w2] e2] eqn:E2; [|discriminate].
    intros [= <- <- <- <-]. constructor; [|eapply IH, E2].
    split; [reflexivity|]. eapply resolve_attrs_shape, E1.
Qed.

(** X3. [query_ldap] fails when the first fetch fails, with its error and
    nothing more done, and in no other case: a nested fetch that fails does
    not end the run. When the first fetch returns, [query_ldap] returns as
    many entries, with the same DNs and the same attribute names in the
    same order, and for each attribute some of its values, in their
    order. *)
Theorem join_resolver_fails_only_with_the_first_fetch
    base flt attributes scope (w : W) :
  match _query_ldap base flt attributes scope w with
  | (Raise e, w1, evs1) =>
      query_ldap base flt attributes joins scope w = (Raise e, w1, evs1)
  | (Return entries, w1, evs1) =>
      exists jentries w' evs2,
        query_ldap base flt attributes joins scope w
          = (Return jentries, w', evs1 ++ evs2)
        /\ Forall2 (fun e je =>
                      fst je = fst e
                      /\ Forall2 (fun item out =>
                                    fst out = fst item
                                    /\ map fst (snd out) `sublist_of` snd item)
                                 (snd e) (snd je))
                   entries jentries
  end.
Proof.
  pose proof (query_ldap_spec any_world any_world_search joins
                base flt attributes scope w I) as Hs.
  destruct (_query_ldap base flt attributes scope w)
    as [[[entries|e] w1] evs1] eqn:Eq; [|exact Hs].
  destruct Hs as (jentries & c' & w2 & evs2 & Hq & _).
  exists jentries, w2, evs2. split; [exact Hq|].
  unfold query_ldap in Hq. rewrite Eq in Hq.
  destruct (resolve_entries joins entries ∅ w1) as [[[r c1] w3] e3] eqn:Er.
  injection Hq as -> _ _.
  eapply resolve_entries_shape, Er.
Qed.

(** *** Attributes without a join *)

Lemma resolve_values_plain (attr : string) (values : list string)
    (c : join_cache) (w : W) :
  dict_get attr joins = None ->
  resolve_values joins attr values c w
    = (Return (map (fun v => (v, [] : subattrs)) values), c, w, []).
Proof.
  intros Hj. induction values as [|value rest IH]; simpl; [reflexivity|].
  unfold resolve_value. rewrite Hj, IH. reflexivity.
Qed.

Lemma resolve_attrs_plain (items : pydict (list string))
    (c : join_cache) (w : W) :
  (forall a vs, In (a, vs) items -> dict_get a joins = None) ->
  resolve_attrs joins items c w = (Return (plain_attrs items), c, w, []).
Proof.
  induction items as [|[attr values] rest IH]; simpl; intros Hj;
    [reflexivity|].
  rewrite resolve_values_plain by (eapply Hj; now left).
  rewrite IH by (intros a vs Hin; eapply Hj; right; exact Hin).
  reflexivity.
Qed.

Lemma resolve_entries_plain (entries : list Entry) (c : join_cache) (w : W) :
  (forall e a vs, In e entries -> In (a, vs) (snd e) ->
                  dict_get a joins = None) ->
  resolve_entries joins entries c w
    = (Return (map plain_entry entries), c, w, []).
Proof.
  induction entries as [|entry rest IH]; simpl; intros Hj; [reflexivity|].
  rewrite resolve_attrs_plain by (intros a vs; apply Hj; now left).
  rewrite IH by (intros e a vs Hin; apply Hj; now right).
  reflexivity.
Qed.

(** X4. When no attribute of the fetched entries has a join, as when
    the mapping configures no join at all, [query_ldap] does what
    [_query_ldap] does and nothing more: the same world and events, and the
    same entries with every value paired with the empty mapping. *)
Theorem query_ldap_without_joined_attribute
    base flt attributes scope (w w1 : W) entries evs1 :
  _query_ldap base flt attributes scope w = (Return entries, w1, evs1) ->
  (forall e a vs, In e entries -> In (a, vs) (snd e) ->
                  dict_get a joins = None) ->
  query_ldap base flt attributes joins scope w
    = (Return (map plain_entry entries), w1, evs1).
Proof.
  intros Hq Hj. unfold query_ldap. rewrite Hq.
  rewrite (resolve_entries_plain entries ∅ w1 Hj).
  now rewrite app_nil_r.
Qed.

End JoinSteps.

(** *** The cache and the mappings attached *)

Section JoinCache.
Context {W : Type} `{!LdapConn W} `{!Codec}.
Variable joins : pydict Join.

Lemma cache_extends_refl (c : join_cache) : cache_extends c c.
Proof. intros k sub Hl. exact Hl. Qed.

Lemma cache_extends_trans (c1 c2 c3 : join_cache) :
  cache_extends c1 c2 -> cache_extends c2 c3 -> cache_extends c1 c3.
Proof. intros H1 H2 k sub Hl. apply H2, H1, Hl. Qed.

Lemma cache_miss_insert (c : join_cache) (k : string * string) (sub : subattrs) :
  cache_nonempty c -> c !! k = None \/ c !! k = Some [] -> sub <> [] ->
  cache_nonempty (<[k := sub]> c) /\ cache_extends c (<[k := sub]> c).
Proof.
  intros Hc Hmiss Hsub.
  assert (c !! k = None) as Hnone.
  { destruct Hmiss as [Hn|Hs]; [exact Hn|]. now destruct (Hc _ _ Hs). }
  split.
  - intros k' sub'. destruct (decide (k = k')) as [<-|Hne].
    + rewrite lookup_insert_eq. now intros [= <-].
    + rewrite lookup_insert_ne by exact Hne. apply Hc.
  - intros k' sub' Hl. destruct (decide (k = k')) as [<-|Hne].
    + congruence.
    + now rewrite lookup_insert_ne.
Qed.

Lemma recorded_extends (c c' : join_cache) (a : string)
    (vals : list (string * subattrs)) :
  cache_extends c c' -> recorded joins c a vals -> recorded joins c' a vals.
Proof.
  intros He. unfold recorded. apply List.Forall_impl. intros p.
  destruct (dict_get a joins); [apply He|auto].
Qed.

Lemma resolve_value_recorded (attr value : string) (c c' : join_cache)
    (w w' : W) o evs :
  cache_nonempty c ->
  resolve_value joins attr value c w = (Return o, c', w', evs) ->
  cache_nonempty c' /\ cache_extends c c'
  /\ recorded joins c' attr (kept o).
Proof.
  intros Hc Hr. apply resolve_value_step in Hr.
  inversion Hr as [Hj|j sub Hj Hl Hsub|j Hj Hmiss Ha
                   |j first others w1 evs0 Hj Hmiss Ha Hq
                   |j w1 evs0 Hj Hmiss Ha Hq|j m w1 evs0 Hj Hmiss Ha Hq];
    subst; unfold recorded; simpl.
  - split; [exact Hc|]. split; [apply cache_extends_refl|].
    constructor; [|constructor]. now rewrite Hj.
  - split; [exact Hc|]. split; [apply cache_extends_refl|].
    constructor; [|constructor]. now rewrite Hj.
  - destruct (cache_miss_insert c (attr, value) [("dn", [value])] Hc Hmiss)
      as [H1 H2]; [discriminate|].
    split; [exact H1|]. split; [exact H2|].
    constructor; [|constructor]. rewrite Hj. simpl. apply lookup_insert_eq.
  - destruct (cache_miss_insert c (attr, value)
                (dict_update [("dn", [value])] (snd first)) Hc Hmiss)
      as [H1 H2]; [apply dict_update_not_nil; discriminate|].
    split; [exact H1|]. split; [exact H2|].
    constructor; [|constructor]. rewrite Hj. simpl. apply lookup_insert_eq.
  - split; [exact Hc|]. split; [apply cache_extends_refl|constructor].
  - split; [exact Hc|]. split; [apply cache_extends_refl|constructor].
Qed.

Lemma resolve_values_recorded (attr : string) (values : list string)
    (c c' : join_cache) (w w' : W) vs evs :
  cache_nonempty c ->
  resolve_values joins attr values c w = (Return vs, c', w', evs) ->
  cache_nonempty c' /\ cache_extends c c' /\ recorded joins c' attr vs.
Proof.
  revert c w c' w' vs evs.
  induction values as [|value rest IH]; simpl; intros c w c' w' vs evs Hc.
  - intros [= <- <- <- <-]. split; [exact Hc|].
    split; [apply cache_extends_refl|constructor].
  - destruct (resolve_value joins attr value c w)
      as [[[[o|e] c1] w1] e1] eqn:E1; [|discriminate].
    destruct (resolve_value_recorded _ _ _ _ _ _ _ _ Hc E1)
      as (Hc1 & Hx1 & Hr1).
    destruct (resolve_values joins attr rest c1 w1)
      as [[[[vs2|e] c2] w2] e2] eqn:E2; [|discriminate].
    destruct (IH _ _ _ _ _ _ Hc1 E2) as (Hc2 & Hx2 & Hr2).
    intros [= <- <- <- <-]. split; [exact Hc2|].
    split; [eapply cache_extends_trans; eauto|].
    apply (recorded_extends _ _ _ _ Hx2) in Hr1.
    destruct o as [p|]; simpl in Hr1; [|exact Hr2].
    inversion Hr1; subst. now constructor.
Qed.

Lemma resolve_attrs_recorded (items : pydict (list string))
    (c c' : join_cache) (w w' : W) d evs :
  cache_nonempty c ->
  resolve_attrs joins items c w = (Return d, c', w', evs) ->
  cache_nonempty c' /\ cache_extends c c'
  /\ Forall (fun out => recorded joins c' (fst out) (snd out)) d.
Proof.
  revert c w c' w' d evs.
  induction items as [|[attr values] rest IH]; simpl;
    intros c w c' w' d evs Hc.
  - intros [= <- <- <- <-]. split; [exact Hc|].
    split; [apply cache_extends_refl|constructor].
  - destruct (resolve_values joins attr values c w)
      as [[[[vs|e] c1] w1] e1] eqn:E1; [|discriminate].
    destruct (resolve_values_recorded _ _ _ _ _ _ _ _ Hc E1)
      as (Hc1 & Hx1 & Hr1).
    destruct (resolve_attrs joins rest c1 w1)
      as [[[[d2|e] c2] w2] e2] eqn:E2; [|discriminate].
    destruct (IH _ _ _ _ _ _ Hc1 E2) as (Hc2 & Hx2 & Hr2).
    intros [= <- <- <- <-]. split; [exact Hc2|].
    split; [eapply cache_extends_trans; eauto|].
    constructor; [|exact Hr2]. simpl. eapply recorded_extends; eauto.
Qed.

Lemma resolve_entries_recorded (entries : list Entry)
    (c c' : join_cache) (w w' : W) jentries evs :
  cache_nonempty c ->
  resolve_entries joins entries c w = (Return jentries, c', w', evs) ->
  cache_nonempty c' /\ cache_extends c c'
  /\ Forall (fun je =>
               Forall (fun out => recorded joins c' (fst out) (snd out))
                      (snd je)) jentries.
Proof.
  revert c w c' w' jentries evs.
  induction entries as [|entry rest IH]; simpl;
    intros c w c' w' jentries evs Hc.
  - intros [= <- <- <- <-]. split; [exact Hc|].
    split; [apply cache_extends_refl|constructor].
  - destruct (resolve_attrs joins (snd entry) c w)
      as [[[[d|e] c1] w1] e1] eqn:E1; [|discriminate].
    destruct (resolve_attrs_recorded _ _ _ _ _ _ _ Hc E1)
      as (Hc1 & Hx1 & Hr1).
    destruct (resolve_entries joins rest c1 w1)
      as [[[[es|e] c2] w2] e2] eqn:E2; [|discriminate].
    destruct (IH _ _ _ _ _ _ Hc1 E2) as (Hc2 & Hx2 & Hr2).
    intros [= <- <- <- <-]. split; [exact Hc2|].
    split; [eapply cache_extends_trans; eauto|].
    constructor; [|exact Hr2]. simpl.
    eapply List.Forall_impl; [|exact Hr1].
    intros out. now apply recorded_extends.
Qed.

(** X5. In what [query_ldap] returns, a value of an attribute carries
    the same mapping wherever it occurs: in whatever entries the pair
    (attribute, value) is kept, the sub-attributes attached to it are
    equal. *)
Theorem joined_pair_carries_one_mapping
    base flt attributes scope (w w' : W) jentries evs
    (je1 je2 : JEntry) (a v : string) (vs1 vs2 : list (string * subattrs))
    (s1 s2 : subattrs) :
  query_ldap base flt attributes joins scope w = (Return jentries, w', evs) ->
  In je1 jentries -> In (a, vs1) (snd je1) -> In (v, s1) vs1 ->
  In je2 jentries -> In (a, vs2) (snd je2) -> In (v, s2) vs2 ->
  s1 = s2.
Proof.
  unfold query_ldap.
  destruct (_query_ldap base flt attributes scope w)
    as [[[entries|e] w1] evs1]; [|discriminate].
  destruct (resolve_entries joins entries ∅ w1) as [[[r c1] w2] e2] eqn:Er.
  intros [= -> <- <-].
  assert (cache_nonempty (∅ : join_cache)) as Hc0.
  { intros k sub Hl. rewrite lookup_empty in Hl. discriminate. }
  destruct (resolve_entries_recorded _ _ _ _ _ _ _ Hc0 Er) as (_ & _ & Hrec).
  assert (forall je vs s, In je jentries -> In (a, vs) (snd je) ->
            In (v, s) vs ->
            match dict_get a joins with
            | None => s = []
            | Some _ => c1 !! (a, v) = Some s
            end) as Hone.
  { intros je vs s Hje Hvs Hs.
    pose proof (proj1 (List.Forall_forall _ _) Hrec _ Hje) as H1.
    pose proof (proj1 (List.Forall_forall _ _) H1 _ Hvs) as H2.
    exact (proj1 (List.Forall_forall _ _) H2 _ Hs). }
  intros Hj1 Ha1 Hv1 Hj2 Ha2 Hv2.
  pose proof (Hone _ _ _ Hj1 Ha1 Hv1) as H1.
  pose proof (Hone _ _ _ Hj2 Ha2 Hv2) as H2.
  destruct (dict_get a joins); congruence.
Qed.

End JoinCache.

(** *** Searches issued and values dropped *)

Section JoinAccounting.
Context {W : Type} `{!LdapConn W} `{!Codec}.
Variable joins : pydict Join.

(** Of the events of [_query_ldap], a reader that ignores its two log
    records sees the search alone. *)
Lemma _query_ldap_filter (p : event -> bool) base flt attributes scope
    (w w' : W) r evs :
  (forall n, p (EvLog Debug (GotEntries n)) = false) ->
  p (EvLog Debug DiscardingRef) = false ->
  _query_ldap base flt attributes scope w = (r, w', evs) ->
  List.filter p evs = List.filter p [EvSearch base scope flt attributes].
Proof.
  intros Hgot Href. unfold _query_ldap.
  destruct (search_s base scope flt attributes w) as [[err|raw] w1].
  - intros [= <- <- <-]. reflexivity.
  - destruct (collect_entries raw []) as [r' evs'] eqn:E.
    intros [= <- <- <-]. apply collect_entries_events in E.
    simpl. rewrite Hgot.
    assert (List.filter p evs' = []) as ->.
    { induction E as [|ev evs' -> _ IH]; simpl; [reflexivity|].
      now rewrite Href. }
    reflexivity.
Qed.

Lemma resolve_value_accounts (attr value : string) (c c' : join_cache)
    (w w' : W) o evs :
  resolve_value joins attr value c w = (Return o, c', w', evs) ->
  (searches evs = []
   \/ exists j, dict_get attr joins = Some j /\ j_attributes j <> []
        /\ searches evs
           = [EvSearch value (j_scope j) (j_filter j) (j_attributes j)])
  /\ (length (kept o) + length (List.filter is_unresolved_join evs) = 1)%nat
  /\ length (List.filter is_failed_join evs)
     = length (List.filter is_ignoring_warning evs).
Proof.
  intros Hr. apply resolve_value_step in Hr.
  inversion Hr as [Hj|j sub Hj Hl Hsub|j Hj Hmiss Ha
                   |j first others w1 evs0 Hj Hmiss Ha Hq
                   |j w1 evs0 Hj Hmiss Ha Hq|j m w1 evs0 Hj Hmiss Ha Hq];
    subst; try (split; [now left|split; reflexivity]).
  all: pose proof (_query_ldap_filter is_search _ _ _ _ _ _ _ _
                     (fun _ => eq_refl) eq_refl Hq) as Hs;
    pose proof (_query_ldap_filter is_unresolved_join _ _ _ _ _ _ _ _
                  (fun _ => eq_refl) eq_refl Hq) as Hu;
    pose proof (_query_ldap_filter is_failed_join _ _ _ _ _ _ _ _
                  (fun _ => eq_refl) eq_refl Hq) as Hf;
    pose proof (_query_ldap_filter is_ignoring_warning _ _ _ _ _ _ _ _
                  (fun _ => eq_refl) eq_refl Hq) as Hi;
    simpl in Hs, Hu, Hf, Hi; unfold searches; simpl;
    rewrite ?List.filter_app, ?Hs, ?Hu, ?Hf, ?Hi; simpl;
    (split; [right; exists j; auto|split; reflexivity]).
Qed.

Lemma resolve_values_accounts (attr : string) (values : list string)
    (c c' : join_cache) (w w' : W) vs evs :
  resolve_values joins attr values c w = (Return vs, c', w', evs) ->
  Forall (fun ev => exists v j,
            In v values /\ dict_get attr joins = Some j
            /\ j_attributes j <> []
            /\ ev = EvSearch v (j_scope j) (j_filter j) (j_attributes j))
         (searches evs)
  /\ (length (searches evs) <= length values)%nat
  /\ (length vs + length (List.filter is_unresolved_join evs)
      = length values)%nat
  /\ length (List.filter is_failed_join evs)
     = length (List.filter is_ignoring_warning evs).
Proof.
  revert c w c' w' vs evs.
  induction values as [|value rest IH]; simpl; intros c w c' w' vs evs.
  - intros [= <- <- <- <-]. simpl. repeat split; auto.
  - destruct (resolve_value joins attr value c w)
      as [[[[o|e] c1] w1] e1] eqn:E1; [|discriminate].
    destruct (resolve_value_accounts _ _ _ _ _ _ _ _ E1) as (Hs1 & Hk1 & Hf1).
    destruct (resolve_values joins attr rest c1 w1)
      as [[[[vs2|e] c2] w2] e2] eqn:E2; [|discriminate].
    destruct (IH _ _ _ _ _ _ E2) as (Hs2 & Hl2 & Hk2 & Hf2).
    intros [= <- <- <- <-]. unfold searches in *.
    rewrite !List.filter_app, !length_app.
    split; [|split; [|split]].
    + apply Forall_app. split.
      * destruct Hs1 as [->|(j & Hj & Ha & ->)]; constructor; [|constructor].
        exists value, j. auto.
      * eapply List.Forall_impl; [|exact Hs2].
        intros ev (v & j & Hin & H'). exists v, j. auto.
    + destruct Hs1 as [->|(j & Hj & Ha & ->)]; simpl; lia.
    + destruct o as [p|]; simpl in *; lia.
    + lia.
Qed.

Lemma resolve_attrs_accounts (items : pydict (list string))
    (c c' : join_cache) (w w' : W) d evs :
  resolve_attrs joins items c w = (Return d, c', w', evs) ->
  Forall (fun ev => exists a vs v j,
            In (a, vs) items /\ In v vs /\ dict_get a joins = Some j
            /\ j_attributes j <> []
            /\ ev = EvSearch v (j_scope j) (j_filter j) (j_attributes j))
         (searches evs)
  /\ (length (searches evs) <= count_values items)%nat
  /\ (count_values d + length (List.filter is_unresolved_join evs)
      = count_values items)%nat
  /\ length (List.filter is_failed_join evs)
     = length (List.filter is_ignoring_warning evs).
Proof.
  revert c w c' w' d evs.
  induction items as [|[attr values] rest IH]; simpl; intros c w c' w' d evs.
  - intros [= <- <- <- <-]. simpl. repeat split; auto.
  - destruct (resolve_values joins attr values c w)
      as [[[[vs|e] c1] w1] e1] eqn:E1; [|discriminate].
    destruct (resolve_values_accounts _ _ _ _ _ _ _ _ E1)
      as (Hs1 & Hl1 & Hk1 & Hf1).
    destruct (resolve_attrs joins rest c1 w1)
      as [[[[d2|e] c2] w2] e2] eqn:E2; [|discriminate].
    destruct (IH _ _ _ _ _ _ E2) as (Hs2 & Hl2 & Hk2 & Hf2).
    intros [= <- <- <- <-]. unfold searches in *.
    rewrite !List.filter_app, !length_app. simpl.
    split; [|split; [|split]]; try lia.
    apply Forall_app. split.
    + eapply List.Forall_impl; [|exact Hs1].
      intros ev (v & j & Hin & H'). exists attr, values, v, j. auto.
    + eapply List.Forall_impl; [|exact Hs2].
      intros ev (a & vs0 & v & j & Hin & H'). exists a, vs0, v, j. auto.
Qed.

Lemma resolve_entries_accounts (entries : list Entry)
    (c c' : join_cache) (w w' : W) jentries evs :
  resolve_entries joins entries c w = (Return jentries, c', w', evs) ->
  Forall (join_search_of joins entries) (searches evs)
  /\ (length (searches evs) <= total_values entries)%nat
  /\ (total_values jentries + length (List.filter is_unresolved_join evs)
      = total_values entries)%nat
  /\ length (List.filter is_failed_join evs)
     = length (List.filter is_ignoring_warning evs).
Proof.
  revert c w c' w' jentries evs.
  induction entries as [|entry rest IH]; simpl; intros c w c' w' jentries evs.
  - intros [= <- <- <- <-]. simpl. repeat split; auto.
  - destruct (resolve_attrs joins (snd entry) c w)
      as [[[[d|e] c1] w1] e1] eqn:E1; [|discriminate].
    destruct (resolve_attrs_accounts _ _ _ _ _ _ _ E1)
      as (Hs1 & Hl1 & Hk1 & Hf1).
    destruct (resolve_entries joins rest c1 w1)
      as [[[[es|e] c2] w2] e2] eqn:E2; [|discriminate].
    destruct (IH _ _ _ _ _ _ E2) as (Hs2 & Hl2 & Hk2 & Hf2).
    intros [= <- <- <- <-]. unfold searches in *.
    rewrite !List.filter_app, !length_app. simpl.
    split; [|split; [|split]]; try lia.
    apply Forall_app. split.
    + eapply List.Forall_impl; [|exact Hs1].
      intros ev (a & vs0 & v & j & Hin & H').
      exists entry, a, vs0, v, j. split; [now left|auto].
    + eapply List.Forall_impl; [|exact Hs2].
      intros ev (e & a & vs0 & v & j & Hin & H').
      exists e, a, vs0, v, j. split; [now right|auto].
Qed.

(** X6. The searches [query_ldap] issues are the search of its own
    arguments, first, and after it nothing but nested fetches: each is
    based at a value of a joined attribute of a fetched entry, with the
    filter, attributes and scope of that join, and there are no more of
    them than values fetched. When the first fetch fails no other search
    is issued. *)
Theorem searches_are_the_base_and_joined_values
    base flt attributes scope (w w' : W) r evs :
  query_ldap base flt attributes joins scope w = (r, w', evs) ->
  match _query_ldap base flt attributes scope w with
  | (Raise _, _, _) => searches evs = [EvSearch base scope flt attributes]
  | (Return entries, _, _) =>
      exists nested,
        searches evs = EvSearch base scope flt attributes :: nested
        /\ Forall (join_search_of joins entries) nested
        /\ (length nested <= total_values entries)%nat
  end.
Proof.
  unfold query_ldap.
  destruct (_query_ldap base flt attributes scope w)
    as [[[entries|e] w1] evs1] eqn:Eq.
  - pose proof (_query_ldap_filter is_search _ _ _ _ _ _ _ _
                  (fun _ => eq_refl) eq_refl Eq) as Hs.
    destruct (resolve_entries joins entries ∅ w1) as [[[r1 c1] w2] e2] eqn:Er.
    intros [= <- <- <-].
    destruct (resolve_entries_spec any_world any_world_search joins
                entries ∅ w1 I (cache_good_empty any_world joins))
      as (jentries & c2 & w3 & e3 & Er' & _).
    rewrite Er in Er'. injection Er' as -> -> -> ->.
    destruct (resolve_entries_accounts _ _ _ _ _ _ _ Er) as (H1 & H2 & _).
    exists (searches e3). unfold searches in *.
    rewrite List.filter_app, Hs. auto.
  - intros [= <- <- <-].
    exact (_query_ldap_filter is_search _ _ _ _ _ _ _ _
             (fun _ => eq_refl) eq_refl Eq).
Qed.

(** X7. Every value [query_ldap] fetched and does not return was dropped
    by a nested fetch that returned no entry or failed: the values
    returned and those fetches add up to the values fetched. Each nested
    fetch that failed, and no other, is logged as a warning; one that
    returned no entry drops its value without a record. *)
Theorem dropped_values_are_unresolved_fetches
    base flt attributes scope (w w1 w' : W) entries evs1 jentries evs :
  _query_ldap base flt attributes scope w = (Return entries, w1, evs1) ->
  query_ldap base flt attributes joins scope w = (Return jentries, w', evs) ->
  (total_values jentries + length (List.filter is_unresolved_join evs)
   = total_values entries)%nat
  /\ length (List.filter is_failed_join evs)
     = length (List.filter is_ignoring_warning evs).
Proof.
  intros Eq. unfold query_ldap. rewrite Eq.
  destruct (resolve_entries joins entries ∅ w1) as [[[r1 c1] w2] e2] eqn:Er.
  intros [= -> <- <-].
  destruct (resolve_entries_accounts _ _ _ _ _ _ _ Er) as (_ & _ & H3 & H4).
  rewrite !List.filter_app, !length_app.
  rewrite (_query_ldap_filter is_unresolved_join _ _ _ _ _ _ _ _
             (fun _ => eq_refl) eq_refl Eq).
  rewrite (_query_ldap_filter is_failed_join _ _ _ _ _ _ _ _
             (fun _ => eq_refl) eq_refl Eq).
  rewrite (_query_ldap_filter is_ignoring_warning _ _ _ _ _ _ _ _
             (fun _ => eq_refl) eq_refl Eq).
  simpl. split; [exact H3|exact H4].
Qed.

End JoinAccounting.

Lemma query_ldap_without_joined_attribute_witness :
  @query_ldap Directory directory_conn codec_7bit
     "ou=people" "(objectClass=*)" ["cn"] member_join 2 people_dir
  = (Return [("cn=alice,ou=people",
              [("cn", [("alice", [])]);
               ("dn", [("cn=alice,ou=people", [])])])],
     people_dir,
     [EvSearch "ou=people" 2 "(objectClass=*)" ["cn"];
      EvLog Debug (GotEntries 2);
      EvLog Debug DiscardingRef]).
Proof.
  apply (@query_ldap_without_joined_attribute
           Directory directory_conn codec_7bit member_join
           "ou=people" "(objectClass=*)" ["cn"] 2 people_dir people_dir
           [("cn=alice,ou=people",
             [("cn", ["alice"]); ("dn", ["cn=alice,ou=people"])])]).
  - reflexivity.
  - intros e a vs [<-|[]] [[= <- <-]|[[= <- <-]|[]]]; reflexivity.
Defined.

Lemma joined_pair_carries_one_mapping_witness :
  fst (fst groups_run) = Return [dba_joined; ops_joined]
  /\ dict_get "member" (snd dba_joined)
     = Some [("cn=alice,ou=people", alice_attrs)]
  /\ dict_get "member" (snd ops_joined)
     = Some [("cn=alice,ou=people", alice_attrs)]
  /\ alice_attrs = alice_attrs.
Proof.
  split; [reflexivity|]. split; [reflexivity|]. split; [reflexivity|].
  apply (@joined_pair_carries_one_mapping
           Directory directory_conn codec_7bit member_join
           "ou=groups" "(objectClass=*)" ["member"] 2 groups_dir
           (snd (fst groups_run)) [dba_joined; ops_joined] (snd groups_run)
           dba_joined ops_joined "member" "cn=alice,ou=people"
           [("cn=alice,ou=people", alice_attrs)]
           [("cn=alice,ou=people", alice_attrs)]);
    first [reflexivity | simpl; tauto].
Defined.

Lemma searches_are_the_base_and_joined_values_witness :
  exists nested,
    searches (snd groups_run)
    = EvSearch "ou=groups" 2 "(objectClass=*)" ["member"] :: nested
    /\ Forall (join_search_of member_join groups_entries) nested
    /\ (length nested <= total_values groups_entries)%nat.
Proof.
  exact (@searches_are_the_base_and_joined_values
           Directory directory_conn codec_7bit member_join
           "ou=groups" "(objectClass=*)" ["member"] 2 groups_dir
           (snd (fst groups_run)) (fst (fst groups_run)) (snd groups_run)
           eq_refl).
Defined.

Lemma dropped_values_are_unresolved_fetches_witness :
  (total_values [dba_joined; ops_joined]
   + length (List.filter is_unresolved_join (snd groups_run))
   = total_values groups_entries)%nat
  /\ length (List.filter is_failed_join (snd groups_run))
     = length (List.filter is_ignoring_warning (snd groups_run)).
Proof.
  apply (@dropped_values_are_unresolved_fetches
           Directory directory_conn codec_7bit member_join
           "ou=groups" "(objectClass=*)" ["member"] 2 groups_dir groups_dir
           (snd (fst groups_run)) groups_entries
           [EvSearch "ou=groups" 2 "(objectClass=*)" ["member"];
            EvLog Debug (GotEntries 2)]);
    reflexivity.
Defined.

(** ** What the rule engines yield *)

Lemma gen_for_list_app {A B} (l1 l2 : list A) (body : A -> gen B) :
  gen_for_list (l1 ++ l2) body
  = gen_app (gen_for_list l1 body) (gen_for_list l2 body).
Proof.
  induction l1 as [|x l1 IH]; simpl; [reflexivity|].
  now rewrite IH, gen_app_assoc.
Qed.

Lemma gen_for_list_done {A B} (l : list A) :
  gen_for_list l (fun _ => @GDone B) = GDone.
Proof. induction l as [|x l IH]; simpl; [reflexivity|exact IH]. Qed.

(** A loop over a generator whose bodies end normally yields what the
    bodies yield and ends as the generator ends. *)
Lemma gen_for_yields {A B} (g : gen A) (body : A -> gen B) :
  (forall a, In a (yields g) -> gen_end (body a) = None) ->
  yields (gen_for g body GDone) = flat_map (fun a => yields (body a)) (yields g)
  /\ gen_end (gen_for g body GDone) = gen_end g.
Proof.
  induction g as [|a g IH|l m g IH|e]; simpl; intros Hb; auto.
  destruct IH as [IH1 IH2]; [intros x Hx; apply Hb; now right|].
  rewrite yields_app, gen_end_app, (Hb a) by now left.
  now rewrite IH1, IH2.
Qed.

Lemma gen_next_first {A C} (g : gen A) (k : A -> gen C) (x : A) :
  head (yields g) = Some x ->
  yields (gen_next g k) = yields (k x)
  /\ gen_end (gen_next g k) = gen_end (k x).
Proof.
  induction g as [|a g IH|l m g IH|e]; simpl; intros Hx;
    try discriminate; auto.
  injection Hx as ->. auto.
Qed.

Lemma gen_collect_try_failed {A B C} (g : gen A) (f : A -> B) (acc : list B)
    (handler : exn -> gen C) (k : list B -> gen C) (e : exn) :
  gen_end g = Some e ->
  yields (gen_collect_try g f acc handler k) = yields (handler e)
  /\ gen_end (gen_collect_try g f acc handler k) = gen_end (handler e).
Proof.
  revert acc. induction g as [|a g IH|l m g IH|e']; simpl; intros acc Hend.
  - discriminate.
  - now apply IH.
  - now apply IH.
  - injection Hend as ->. auto.
Qed.

Section RoleRuleYields.
Context `{!Templates}.

Lemma log_unless_empty_yields {A} (l : list string) (m : logmsg) (g : gen A) :
  yields (log_unless_empty l m g) = yields g
  /\ gen_end (log_unless_empty l m g) = gen_end g.
Proof. destruct l; auto. Qed.

Lemma yield_role_sourced (entry : option JEntry) (rule : RoleRule)
    (ms ps : list string) (c : option string) (n : string) :
  entry <> None \/ In n (rule_names rule) ->
  yields (yield_role entry rule ms ps c n)
  = [mkRole (str_lower n) ms (rule_options rule) ps c]
  /\ gen_end (yield_role entry rule ms ps c n) = None.
Proof.
  intros Hsrc. unfold yield_role.
  assert (exists source,
             (if existsb (String.eqb n) (rule_names rule) then Some "YAML"
              else option_map fst entry) = Some source) as [source ->].
  { destruct (existsb (String.eqb n) (rule_names rule)) eqn:E; [eauto|].
    destruct entry as [en|]; [simpl; eauto|].
    destruct Hsrc as [Hne|Hin]; [contradiction|].
    assert (existsb (String.eqb n) (rule_names rule) = true) as E'.
    { apply existsb_exists. exists n. split; [exact Hin|apply String.eqb_refl]. }
    congruence. }
  simpl.
  destruct (log_unless_empty_yields ms
              (RoleMembers (str_lower n) (join_comma ms))
              (log_unless_empty ps (RoleParents (str_lower n) (join_comma ps))
                 (GYield (mkRole (str_lower n) ms (rule_options rule) ps c)
                    GDone))) as [-> ->].
  destruct (log_unless_empty_yields ps
              (RoleParents (str_lower n) (join_comma ps))
              (GYield (mkRole (str_lower n) ms (rule_options rule) ps c) GDone))
    as [-> ->].
  auto.
Qed.

(** X8. The roles of an entry under a rule. When the expansions of the
    members, of the parents and of the comment of the rule go through,
    [process_ldap_entry] yields one role per expanded name, in the order of
    expansion, and ends as the expansion of the names ends: each role has
    the name lower-cased, the lower-cased members and parents, the options
    of the rule as they are, and the comment expanded once for all of
    them. Without an entry this holds when every name expanded is a
    literal of the rule. *)
Theorem roles_of_an_entry (entry : option JEntry) (rule : RoleRule) :
  gen_end (expand_attributes entry (rule_members rule)) = None ->
  gen_end (expand_attributes entry (rule_parents rule)) = None ->
  (forall a r, rule_comment rule = Some (String a r) ->
               yields (expand_attributes entry [String a r]) <> []) ->
  (forall n, In n (yields (expand_attributes entry (rule_names rule))) ->
             entry <> None \/ In n (rule_names rule)) ->
  yields (process_ldap_entry entry rule)
  = map (role_for entry rule)
        (yields (expand_attributes entry (rule_names rule)))
  /\ gen_end (process_ldap_entry entry rule)
     = gen_end (expand_attributes entry (rule_names rule)).
Proof.
  intros Hm Hp Hc Hsrc. unfold process_ldap_entry.
  set (k1 := fun ms : list string => _).
  destruct (gen_collect_try_ok (expand_attributes entry (rule_members rule))
              str_lower [] GRaise k1 Hm) as [-> ->].
  subst k1. cbv beta. simpl app.
  set (k2 := fun ps : list string => _).
  destruct (gen_collect_try_ok (expand_attributes entry (rule_parents rule))
              str_lower [] GRaise k2 Hp) as [-> ->].
  subst k2. cbv beta. simpl app.
  set (ms := map str_lower _). set (ps := map str_lower _).
  assert (forall c,
             yields (gen_for (expand_attributes entry (rule_names rule))
                       (yield_role entry rule ms ps c) GDone)
             = map (fun n => mkRole (str_lower n) ms (rule_options rule) ps c)
                   (yields (expand_attributes entry (rule_names rule)))
             /\ gen_end (gen_for (expand_attributes entry (rule_names rule))
                           (yield_role entry rule ms ps c) GDone)
                = gen_end (expand_attributes entry (rule_names rule)))
    as Hloop.
  { intros c.
    destruct (gen_for_yields (expand_attributes entry (rule_names rule))
                (yield_role entry rule ms ps c)) as [-> ->].
    { intros n Hn. apply yield_role_sourced, Hsrc, Hn. }
    split; [|reflexivity].
    revert Hsrc.
    induction (yields (expand_attributes entry (rule_names rule)))
      as [|n l IH]; simpl; intros Hsrc; [reflexivity|].
    destruct (yield_role_sourced entry rule ms ps c n) as [-> _];
      [apply Hsrc; now left|].
    simpl. f_equal. apply IH. intros x Hx. apply Hsrc. now right. }
  unfold role_for, comment_for, expand_comment. fold ms ps.
  destruct (rule_comment rule) as [[|a r]|] eqn:Ec; try apply Hloop.
  specialize (Hc a r eq_refl).
  destruct (yields (expand_attributes entry [String a r])) as [|x rest] eqn:Ey;
    [contradiction|].
  destruct (gen_next_first (expand_attributes entry [String a r])
              (fun x => gen_for (expand_attributes entry (rule_names rule))
                          (yield_role entry rule ms ps (Some x)) GDone) x)
    as [-> ->]; [now rewrite Ey|].
  apply Hloop.
Qed.

(** X9. The rule engines go rule by rule, and under a rule entry by
    entry: the run over two lists of rules is the run over the first
    followed by the run over the second, each over all the entries, and
    the run of a role rule over two lists of entries is the run over the
    first followed by the run over the second. A run without rules or
    without entries yields nothing, logs nothing and ends normally,
    whatever literal names the rules carry. *)
Theorem rule_engines_go_rule_by_rule `{!Glob}
    (entries : list (option JEntry)) :
  (forall rules1 rules2,
      apply_role_rules (rules1 ++ rules2) entries
      = gen_app (apply_role_rules rules1 entries)
          (apply_role_rules rules2 entries))
  /\ (forall rule entries1 entries2,
        apply_role_rules [rule] (entries1 ++ entries2)
        = gen_app (apply_role_rules [rule] entries1)
            (apply_role_rules [rule] entries2))
  /\ (forall grant1 grant2,
        apply_grant_rules (grant1 ++ grant2) entries
        = gen_app (apply_grant_rules grant1 entries)
            (apply_grant_rules grant2 entries))
  /\ (forall rules, apply_role_rules rules [] = GDone)
  /\ (forall grant, apply_grant_rules grant [] = GDone).
Proof.
  split; [|split; [|split; [|split]]].
  - intros rules1 rules2. apply gen_for_list_app.
  - intros rule entries1 entries2. rewrite !apply_role_rules_single.
    apply gen_for_list_app.
  - intros grant1 grant2. apply gen_for_list_app.
  - intros rules. apply gen_for_list_done.
  - intros grant. apply gen_for_list_done.
Qed.

End RoleRuleYields.

Section GrantRuleYields.
Context `{!Templates} `{!Glob}.

(** X10. An entry whose expansion of the roles of a grant rule fails gets
    no grant from it, not even for the names expanded before the failure:
    the names are collected before the first grant is made. A
    [ValueError] becomes the [UserError] "Failed to process"; any other
    error, an unexpected DN included, leaves [apply_grant_rules] as it
    is, whatever the policy of the role rules. *)
Theorem failed_grant_expansion_yields_no_grant
    (rule : GrantRule) (rules : list GrantRule)
    (entry : option JEntry) (rest : list (option JEntry)) (e : exn) :
  gen_end (expand_attributes entry (grant_roles rule)) = Some e ->
  yields (apply_grant_rules (rule :: rules) (entry :: rest)) = []
  /\ gen_end (apply_grant_rules (rule :: rules) (entry :: rest))
     = Some (match e with
             | ValueError msg => UserError (FailedProcessGrant msg)
             | _ => e
             end).
Proof.
  intros He. unfold apply_grant_rules. simpl.
  rewrite !yields_app, !gen_end_app.
  destruct (gen_collect_try_failed
              (expand_attributes entry (grant_roles rule)) (fun x => x) []
              on_grant_expansion_error
              (fun roles => gen_for_list roles (yield_grant rule)) e He)
    as [-> ->].
  destruct e; simpl; auto.
Qed.

Lemma skipped_by_unfiltered (rule : GrantRule) (n : string) :
  unfiltered rule -> skipped_by (grant_role_match rule) n = None.
Proof. intros [-> | ->]; reflexivity. Qed.

Lemma yields_unfiltered (rule : GrantRule) (roles : list string) :
  unfiltered rule ->
  yields (gen_for_list roles (yield_grant rule))
  = map (grant_for rule) (map str_lower roles)
  /\ gen_end (gen_for_list roles (yield_grant rule)) = None.
Proof.
  intros Hu.
  destruct (yields_for_list roles (yield_grant rule)) as [Hy He].
  { intros r _. apply yield_grant_spec. }
  split; [|exact He]. rewrite Hy. clear Hy He.
  induction roles as [|r roles IH]; simpl; [reflexivity|].
  rewrite IH. destruct (yield_grant_spec rule r) as [_ ->].
  now rewrite (skipped_by_unfiltered rule _ Hu).
Qed.

Lemma unfiltered_rule_run (rule : GrantRule) (entries : list (option JEntry)) :
  unfiltered rule ->
  (forall entry, In entry entries ->
     gen_end (expand_attributes entry (grant_roles rule)) = None) ->
  gen_end (apply_grant_rules [rule] entries) = None
  /\ yields (apply_grant_rules [rule] entries)
     = map (grant_for rule) (expanded_roles rule entries).
Proof.
  intros Hu Hok. unfold apply_grant_rules. simpl. rewrite gen_app_done.
  unfold expanded_roles.
  induction entries as [|entry entries IH]; simpl; [auto|].
  destruct IH as [IH1 IH2]; [intros e He; apply Hok; now right|].
  destruct (gen_collect_try_ok
              (expand_attributes entry (grant_roles rule)) (fun x => x) []
              on_grant_expansion_error
              (fun roles => gen_for_list roles (yield_grant rule))
              (Hok entry (or_introl eq_refl))) as [Hc1 Hc2].
  simpl in Hc1, Hc2. rewrite map_id in Hc1, Hc2.
  destruct (yields_unfiltered rule
              (yields (expand_attributes entry (grant_roles rule))) Hu)
    as [Hr1 Hr2].
  rewrite gen_end_app, yields_app, Hc2, Hr2, Hc1, Hr1, IH1, IH2.
  split; [reflexivity|]. now rewrite !map_app.
Qed.

(** X11. Grant rules without a pattern, or with the empty pattern, grant
    to every role: over entries whose expansions go through, the run
    ends normally and yields, rule by rule, entry by entry and in the order
    of expansion, the grant of the rule for every expanded, lower-cased
    role name. *)
Theorem rules_without_pattern_grant_every_role
    (grant : list GrantRule) (entries : list (option JEntry)) :
  Forall unfiltered grant ->
  (forall rule entry, In rule grant -> In entry entries ->
     gen_end (expand_attributes entry (grant_roles rule)) = None) ->
  gen_end (apply_grant_rules grant entries) = None
  /\ yields (apply_grant_rules grant entries)
     = flat_map (fun rule => map (grant_for rule) (expanded_roles rule entries))
         grant.
Proof.
  intros Hu Hok.
  induction Hu as [|rule grant Hrule _ IH]; [auto|].
  destruct IH as [IH1 IH2]; [intros r e Hr; apply Hok; now right|].
  destruct (unfiltered_rule_run rule entries Hrule) as [H1 H2].
  { intros e He. apply Hok; [now left|exact He]. }
  change (rule :: grant) with ([rule] ++ grant).
  unfold apply_grant_rules in *. rewrite gen_for_list_app.
  rewrite gen_end_app, yields_app, H1, H2, IH1, IH2. auto.
Qed.

End GrantRuleYields.

Lemma roles_of_an_entry_witness :
  yields (@process_ldap_entry small_templates (Some squad) documented_rule)
  = [mkRole "alice" [] {["LOGIN" := OBool true]} ["staff"; "squad"]
       (Some "From {dn}");
     mkRole "carol" [] {["LOGIN" := OBool true]} ["staff"; "squad"]
       (Some "From {dn}")]
  /\ gen_end (@process_ldap_entry small_templates (Some squad) documented_rule)
     = None.
Proof.
  apply (@roles_of_an_entry small_templates (Some squad) documented_rule).
  - reflexivity.
  - reflexivity.
  - intros a r [= <- <-]. simpl. discriminate.
  - intros n _. left. discriminate.
Defined.

Lemma failed_grant_expansion_yields_no_grant_witness :
  (yields (@apply_grant_rules small_templates small_glob
             [mail_grant_rule] [Some team; Some crew]) = []
   /\ gen_end (@apply_grant_rules small_templates small_glob
                 [mail_grant_rule] [Some team; Some crew])
      = Some (UserError (FailedProcessGrant "Unknown attribute mail")))
  /\ (yields (@apply_grant_rules small_templates small_glob
                [members_grant_rule] [Some team; Some crew]) = []
      /\ gen_end (@apply_grant_rules small_templates small_glob
                    [members_grant_rule] [Some team; Some crew])
         = Some (RDNError "uid=bob,ou=people")).
Proof.
  split.
  - apply (@failed_grant_expansion_yields_no_grant small_templates small_glob
             mail_grant_rule [] (Some team) [Some crew]
             (ValueError "Unknown attribute mail")).
    reflexivity.
  - apply (@failed_grant_expansion_yields_no_grant small_templates small_glob
             members_grant_rule [] (Some team) [Some crew]
             (RDNError "uid=bob,ou=people")).
    reflexivity.
Defined.

Lemma rules_without_pattern_grant_every_role_witness :
  gen_end (@apply_grant_rules small_templates small_glob
             [members_grant_rule; empty_match_rule] [Some crew; Some squad])
  = None
  /\ yields (@apply_grant_rules small_templates small_glob
               [members_grant_rule; empty_match_rule] [Some crew; Some squad])
     = [{| privilege := Some "rw"; databases := Databases (PList ["appdb"]);
           schemas := None; role := "dave" |};
        {| privilege := Some "rw"; databases := Databases (PList ["appdb"]);
           schemas := None; role := "alice" |};
        {| privilege := Some "rw"; databases := Databases (PList ["appdb"]);
           schemas := None; role := "carol" |};
        {| privilege := Some "ro"; databases := Databases (PList ["appdb"]);
           schemas := Some (PList ["public"]); role := "admin" |};
        {| privilege := Some "ro"; databases := Databases (PList ["appdb"]);
           schemas := Some (PList ["public"]); role := "admin" |}].
Proof.
  apply (@rules_without_pattern_grant_every_role small_templates small_glob
           [members_grant_rule; empty_match_rule] [Some crew; Some squad]).
  - constructor; [left; reflexivity|].
    constructor; [right; reflexivity|constructor].
  - intros rule entry [<-|[<-|[]]] [<-|[<-|[]]]; reflexivity.
Defined.

(** ** What the aggregator touches *)

Lemma aggregate_roles_logs (g : gen Role) (m : RoleSet) r evs :
  aggregate_roles g m = (r, evs) -> Forall (fun ev => is_log ev = true) evs.
Proof.
  revert m r evs. induction g as [|x k IH|l msg k IH|e]; simpl; intros m r evs.
  - intros [= <- <-]. constructor.
  - destruct (m !! name x) as [known|]; [|apply IH].
    destruct (merge x known) as [r1|e]; [apply IH|].
    destruct e; intros [= <- <-]; constructor.
  - destruct (aggregate_roles k m) as [r' evs'] eqn:E. apply IH in E.
    intros [= <- <-]. now constructor.
  - intros [= <- <-]. constructor.
Qed.

Lemma logs_are_directory_events (evs : list event) :
  Forall (fun ev => is_log ev = true) evs ->
  Forall (fun ev => is_directory_event ev = true) evs.
Proof.
  apply List.Forall_impl. intros [| | | | | | | | |]; simpl; congruence.
Qed.

Section AggregatorEvents.
Context {W : Type} `{!LdapConn W} `{!Codec} `{!Templates} `{!Glob} `{!Cluster W}.

Lemma aggregate_grants_logs (g : gen Grant) (source : string) (acl : Acl)
    r evs :
  aggregate_grants g source acl = (r, evs) ->
  Forall (fun ev => is_log ev = true) evs.
Proof.
  revert acl r evs. induction g as [|x k IH|l msg k IH|e]; simpl;
    intros acl r evs.
  - intros [= <- <-]. constructor.
  - destruct (acl_add x acl) as [acl'|e].
    + destruct (aggregate_grants k source acl') as [r' evs'] eqn:E.
      apply IH in E. intros [= <- <-]. now constructor.
    + intros [= <- <-]. repeat constructor.
  - destruct (aggregate_grants k source acl) as [r' evs'] eqn:E. apply IH in E.
    intros [= <- <-]. now constructor.
  - intros [= <- <-]. constructor.
Qed.

Lemma _query_ldap_directory base flt attributes scope (w w' : W) r evs :
  _query_ldap base flt attributes scope w = (r, w', evs) ->
  Forall (fun ev => is_directory_event ev = true) evs.
Proof.
  unfold _query_ldap.
  destruct (search_s base scope flt attributes w) as [[err|raw] w1].
  - intros [= <- <- <-]. repeat constructor.
  - destruct (collect_entries raw []) as [r' evs'] eqn:E.
    intros [= <- <- <-]. apply collect_entries_events in E.
    repeat constructor.
    eapply List.Forall_impl; [|exact E]. now intros ev ->.
Qed.

Lemma resolve_value_directory joins attr value (c c' : join_cache)
    (w w' : W) r evs :
  resolve_value joins attr value c w = (r, c', w', evs) ->
  Forall (fun ev => is_directory_event ev = true) evs.
Proof.
  intros Hr. apply resolve_value_step in Hr.
  destruct Hr as [Hj|j sub Hj Hl Hsub|j Hj Hmiss Ha
                  |j first others w1 evs0 Hj Hmiss Ha Hq
                  |j w1 evs0 Hj Hmiss Ha Hq|j m w1 evs0 Hj Hmiss Ha Hq];
    try constructor; try reflexivity;
    try (eapply _query_ldap_directory; exact Hq).
  apply Forall_app. split; [eapply _query_ldap_directory; exact Hq|].
  repeat constructor.
Qed.

Lemma resolve_values_directory joins attr values (c c' : join_cache)
    (w w' : W) r evs :
  resolve_values joins attr values c w = (r, c', w', evs) ->
  Forall (fun ev => is_directory_event ev = true) evs.
Proof.
  revert c w c' w' r evs.
  induction values as [|value rest IH]; simpl; intros c w c' w' r evs.
  - intros [= <- <- <- <-]. constructor.
  - destruct (resolve_value joins attr value c w)
      as [[[[o|e] c1] w1] e1] eqn:E1; apply resolve_value_directory in E1;
      [|intros [= <- <- <- <-]; exact E1].
    destruct (resolve_values joins attr rest c1 w1)
      as [[[[vs2|e] c2] w2] e2] eqn:E2; apply IH in E2;
      intros [= <- <- <- <-]; apply Forall_app; auto.
Qed.

Lemma resolve_attrs_directory joins items (c c' : join_cache)
    (w w' : W) r evs :
  resolve_attrs joins items c w = (r, c', w', evs) ->
  Forall (fun ev => is_directory_event ev = true) evs.
Proof.
  revert c w c' w' r evs.
  induction items as [|[attr values] rest IH]; simpl; intros c w c' w' r evs.
  - intros [= <- <- <- <-]. constructor.
  - destruct (resolve_values joins attr values c w)
      as [[[[vs|e] c1] w1] e1] eqn:E1; apply resolve_values_directory in E1;
      [|intros [= <- <- <- <-]; exact E1].
    destruct (resolve_attrs joins rest c1 w1)
      as [[[[d2|e] c2] w2] e2] eqn:E2; apply IH in E2;
      intros [= <- <- <- <-]; apply Forall_app; auto.
Qed.

Lemma resolve_entries_directory joins entries (c c' : join_cache)
    (w w' : W) r evs :
  resolve_entries joins entries c w = (r, c', w', evs) ->
  Forall (fun ev => is_directory_event ev = true) evs.
Proof.
  revert c w c' w' r evs.
  induction entries as [|entry rest IH]; simpl; intros c w c' w' r evs.
  - intros [= <- <- <- <-]. constructor.
  - destruct (resolve_attrs joins (snd entry) c w)
      as [[[[d|e] c1] w1] e1] eqn:E1; apply resolve_attrs_directory in E1;
      [|intros [= <- <- <- <-]; exact E1].
    destruct (resolve_entries joins rest c1 w1)
      as [[[[es|e] c2] w2] e2] eqn:E2; apply IH in E2;
      intros [= <- <- <- <-]; apply Forall_app; auto.
Qed.

Lemma query_ldap_directory base flt attributes joins scope (w w' : W) r evs :
  query_ldap base flt attributes joins scope w = (r, w', evs) ->
  Forall (fun ev => is_directory_event ev = true) evs.
Proof.
  unfold query_ldap.
  destruct (_query_ldap base flt attributes scope w)
    as [[[entries|e] w1] evs1] eqn:Eq; apply _query_ldap_directory in Eq;
    [|intros [= <- <- <-]; exact Eq].
  destruct (resolve_entries joins entries ∅ w1) as [[[r1 c1] w2] e2] eqn:Er.
  apply resolve_entries_directory in Er.
  intros [= <- <- <-]. apply Forall_app. auto.
Qed.

Lemma mapping_entries_directory (mapping : Mapping) (w w' : W) r evs :
  mapping_entries mapping w = (r, w', evs) ->
  Forall (fun ev => is_directory_event ev = true) evs
  /\ (map_ldap mapping = None -> w' = w /\ evs = []).
Proof.
  unfold mapping_entries. destruct (map_ldap mapping) as [q|].
  - destruct (query_ldap (q_base q) (q_filter q) (q_attributes q) (q_joins q)
                (q_scope q) w) as [[[entries|e] w1] evs1] eqn:Eq;
      apply query_ldap_directory in Eq;
      intros [= <- <- <-]; (split; [now constructor|discriminate]).
  - intros [= <- <- <-]. split; [constructor|auto].
Qed.

Lemma inspect_mappings_directory (syncmap : list Mapping)
    (ldaproles : RoleSet) (ldapacl : Acl) (w w' : W) r evs :
  inspect_mappings syncmap ldaproles ldapacl w = (r, w', evs) ->
  Forall (fun ev => is_directory_event ev = true) evs
  /\ (Forall (fun m => map_ldap m = None) syncmap ->
      w' = w /\ Forall (fun ev => is_log ev = true) evs).
Proof.
  revert ldaproles ldapacl w r w' evs.
  induction syncmap as [|mapping rest IH]; simpl;
    intros ldaproles ldapacl w r w' evs.
  - intros [= <- <- <-]. split; [constructor|]. intros _. split; constructor.
  - destruct (mapping_entries mapping w) as [[r1 w1] evs1] eqn:E1.
    apply mapping_entries_directory in E1 as [Hd1 Hn1].
    assert (Forall (fun m => map_ldap m = None) (mapping :: rest) ->
            w1 = w /\ evs1 = [] /\ Forall (fun m => map_ldap m = None) rest)
      as Hyaml.
    { intros Hall. inversion Hall; subst. destruct Hn1; auto. }
    destruct r1 as [[entries source]|e].
    2:{ intros [= <- <- <-]. split; [exact Hd1|].
        intros Hall. destruct (Hyaml Hall) as (-> & -> & _).
        split; [reflexivity|constructor]. }
    destruct (aggregate_roles (apply_role_rules (map_roles mapping) entries)
                ldaproles) as [[ldaproles'|e] evs2] eqn:E2;
      apply aggregate_roles_logs in E2.
    2:{ intros [= <- <- <-].
        split; [apply Forall_app; auto using logs_are_directory_events|].
        intros Hall. destruct (Hyaml Hall) as (-> & -> & _).
        split; [reflexivity|exact E2]. }
    destruct (aggregate_grants (apply_grant_rules (map_grant mapping) entries)
                source ldapacl) as [[ldapacl'|e] evs3] eqn:E3;
      apply aggregate_grants_logs in E3.
    2:{ intros [= <- <- <-].
        split; [repeat (apply Forall_app; split);
                auto using logs_are_directory_events|].
        intros Hall. destruct (Hyaml Hall) as (-> & -> & _).
        split; [reflexivity|]. simpl. apply Forall_app. auto. }
    destruct (inspect_mappings rest ldaproles' ldapacl' w1)
      as [[r4 w4] evs4] eqn:E4.
    apply IH in E4 as [Hd4 Hn4]. intros [= <- <- <-].
    split; [repeat (apply Forall_app; split);
            auto using logs_are_directory_events|].
    intros Hall. destruct (Hyaml Hall) as (-> & -> & Hrest).
    destruct (Hn4 Hrest) as [-> Hl4].
    split; [reflexivity|]. simpl. repeat (apply Forall_app; split); auto.
Qed.

(** X12. [inspect_ldap] touches nothing but the directory: every event it
    causes is a search, a nested fetch or a log record, so it calls
    neither the inspector nor the statement runner. Over a sync map none of
    whose mappings has an [ldap] key it does not search either: the world
    is left as it was and the events are log records only. *)
Theorem inspect_ldap_touches_only_the_directory (syncmap : list Mapping)
    (w w' : W) r evs :
  inspect_ldap syncmap w = (r, w', evs) ->
  Forall (fun ev => is_directory_event ev = true) evs
  /\ (Forall (fun m => map_ldap m = None) syncmap ->
      w' = w /\ Forall (fun ev => is_log ev = true) evs).
Proof.
  unfold inspect_ldap.
  destruct (inspect_mappings syncmap ∅ new_acl w)
    as [[[[ldaproles ldapacl]|e] w1] evs1] eqn:E;
    apply inspect_mappings_directory in E;
    intros [= <- <- <-]; exact E.
Qed.

End AggregatorEvents.

Lemma inspect_ldap_touches_only_the_directory_witness :
  Forall (fun ev => is_directory_event ev = true) (snd groups_inspection)
  /\ snd (fst static_inspection) = groups_dir
  /\ Forall (fun ev => is_log ev = true) (snd static_inspection).
Proof.
  split.
  - apply (@inspect_ldap_touches_only_the_directory
             Directory directory_conn codec_7bit small_templates small_glob
             list_cluster groups_syncmap groups_dir
             (snd (fst groups_inspection)) (fst (fst groups_inspection))
             (snd groups_inspection) eq_refl).
  - apply (@inspect_ldap_touches_only_the_directory
             Directory directory_conn codec_7bit small_templates small_glob
             list_cluster static_syncmap groups_dir
             (snd (fst static_inspection)) (fst (fst static_inspection))
             (snd static_inspection) eq_refl).
    repeat constructor.
Defined.

(** ** The table of aggregated roles *)

Lemma aggregate_keyed (g : gen Role) (m m' : RoleSet) (evs : list event) :
  keyed_by_name m -> aggregate_roles g m = (Return m', evs) ->
  keyed_by_name m'.
Proof.
  revert m evs. induction g as [|r k IH|l msg k IH|e]; intros m evs Hk Ha.
  - simpl in Ha. now injection Ha as <- <-.
  - destruct (aggregate_step m r k m' evs Hk Ha) as (r1 & Ha1 & Hname & _).
    eapply IH; [|exact Ha1]. rewrite <- Hname. now apply keyed_insert.
  - simpl in Ha. destruct (aggregate_roles k m) as [res evs'] eqn:E.
    injection Ha as -> <-. eapply IH; eauto.
  - discriminate.
Qed.

Section Declarations.
Variable f : Role -> gset string.
Hypothesis f_merge : forall self other r,
  merge self other = Return r -> f r = f self ∪ f other.

(** One round of the loop over the roles: what is stored under the name
    of the role has its [f] and those of the role stored before. *)
Lemma aggregate_step_union (m : RoleSet) (r : Role) (k : gen Role)
    (m' : RoleSet) (evs : list event) :
  aggregate_roles (GYield r k) m = (Return m', evs) ->
  exists r1,
    aggregate_roles k (<[name r := r1]> m) = (Return m', evs)
    /\ forall x, x ∈ f r1 <->
                 x ∈ f r \/ exists known, m !! name r = Some known /\ x ∈ f known.
Proof.
  simpl. destruct (m !! name r) as [known|] eqn:El.
  - destruct (merge r known) as [r1|e] eqn:Em; [|destruct e; discriminate].
    intros Ha. exists r1.
    destruct (merge_Return _ _ _ Em) as (_ & Hname & _).
    rewrite Hname in Ha. split; [exact Ha|].
    intros x. rewrite (f_merge _ _ _ Em), elem_of_union. split.
    + intros [Hx|Hx]; [now left|right; eauto].
    + intros [Hx|(known' & [= <-] & Hx)]; auto.
  - intros Ha. exists r. split; [exact Ha|].
    intros x. split; [now left|].
    intros [Hx|(known & Hk & _)]; [exact Hx|discriminate].
Qed.

Lemma aggregate_declared (g : gen Role) (m m' : RoleSet) (evs : list event) :
  aggregate_roles g m = (Return m', evs) ->
  forall n r, m' !! n = Some r ->
  forall x, x ∈ f r <-> declared f m (yields g) n x.
Proof.
  revert m evs. induction g as [|d k IH|l msg k IH|e]; intros m evs Ha n r Hl x.
  - simpl in Ha. injection Ha as <- <-. unfold declared. simpl. split.
    + intros Hx. left. eauto.
    + intros [(r0 & Hr0 & Hx)|(d & [] & _)]. congruence.
  - destruct (aggregate_step_union m d k m' evs Ha) as (r1 & Ha1 & Hr1).
    rewrite (IH _ _ Ha1 n r Hl x). unfold declared. simpl.
    destruct (decide (name d = n)) as [<-|Hne].
    + rewrite lookup_insert_eq. split.
      * intros [(r0 & [= <-] & Hx)|(d' & Hin & Hn & Hx)].
        -- apply Hr1 in Hx as [Hx|(known & Hk & Hx)]; [|left; eauto].
           right. exists d. auto.
        -- right. exists d'. auto.
      * intros [(r0 & Hr0 & Hx)|(d' & [<-|Hin] & Hn & Hx)].
        -- left. exists r1. split; [reflexivity|]. apply Hr1. right. eauto.
        -- left. exists r1. split; [reflexivity|]. apply Hr1. now left.
        -- right. exists d'. auto.
    + rewrite lookup_insert_ne by exact Hne. split.
      * intros [H1|(d' & Hin & Hn & Hx)]; [now left|].
        right. exists d'. auto.
      * intros [H1|(d' & [<-|Hin] & Hn & Hx)]; [now left|contradiction|].
        right. exists d'. auto.
  - simpl in Ha. destruct (aggregate_roles k m) as [res evs'] eqn:E.
    injection Ha as -> <-. eapply IH; eauto.
  - discriminate.
Qed.

End Declarations.

Lemma aggregate_names (g : gen Role) (m m' : RoleSet) (evs : list event) :
  aggregate_roles g m = (Return m', evs) ->
  forall n, is_Some (m' !! n) <->
            is_Some (m !! n) \/ exists d, In d (yields g) /\ name d = n.
Proof.
  revert m evs. induction g as [|d k IH|l msg k IH|e]; intros m evs Ha n.
  - simpl in Ha. injection Ha as <- <-. simpl. split; [now left|].
    intros [H1|(d & [] & _)]. exact H1.
  - destruct (aggregate_step_union (fun _ => ∅)
                (fun _ _ _ _ => eq_sym (union_empty_l_L ∅)) m d k m' evs Ha)
      as (r1 & Ha1 & _).
    rewrite (IH _ _ Ha1 n). simpl.
    destruct (decide (name d = n)) as [<-|Hne].
    + rewrite lookup_insert_eq. split.
      * intros _. right. exists d. auto.
      * intros _. left. eauto.
    + rewrite lookup_insert_ne by exact Hne. split.
      * intros [H1|(d' & Hin & Hn)]; [now left|]. right. exists d'. auto.
      * intros [H1|(d' & [<-|Hin] & Hn)]; [now left|contradiction|].
        right. exists d'. auto.
  - simpl in Ha. destruct (aggregate_roles k m) as [res evs'] eqn:E.
    injection Ha as -> <-. eapply IH; eauto.
  - discriminate.
Qed.

(** X13. The table the loop of [inspect_ldap] builds from a stream of
    roles holds one role per name: it files every role under its name, it
    holds the names it held and those declared by the stream and no other,
    and the members of a role, as its parents, are those of the role it
    held under that name and of the declarations of that name, and no
    other. *)
Theorem aggregated_role_is_the_union_of_its_declarations
    (g : gen Role) (m0 m : RoleSet) (evs : list event) :
  keyed_by_name m0 ->
  aggregate_roles g m0 = (Return m, evs) ->
  keyed_by_name m
  /\ (forall n, is_Some (m !! n) <->
                is_Some (m0 !! n) \/ exists d, In d (yields g) /\ name d = n)
  /\ (forall n r, m !! n = Some r ->
        forall x,
          (x ∈ members r <-> declared members m0 (yields g) n x)
          /\ (x ∈ parents r <-> declared parents m0 (yields g) n x)).
Proof.
  intros Hk Ha. split; [eapply aggregate_keyed; eauto|].
  split; [eapply aggregate_names; eauto|].
  intros n r Hl x. split.
  - eapply (aggregate_declared members); eauto.
    intros self other r' Hm. now apply merge_Return in Hm.
  - eapply (aggregate_declared parents); eauto.
    intros self other r' Hm. now apply merge_Return in Hm.
Qed.

Lemma aggregated_role_is_the_union_of_its_declarations_witness :
  exists m r,
    fst (aggregate_roles readers_declarations ∅) = Return m
    /\ m !! "readers" = Some r
    /\ name r = "readers"
    /\ ("bob" ∈ members r
        <-> declared members ∅ (yields readers_declarations) "readers" "bob")
    /\ ("carol" ∈ parents r
        <-> declared parents ∅ (yields readers_declarations) "readers" "carol").
Proof.
  destruct (aggregate_roles readers_declarations ∅) as [[m|e] evs] eqn:Ea;
    [|vm_compute in Ea; discriminate].
  destruct (aggregated_role_is_the_union_of_its_declarations
              readers_declarations ∅ m evs empty_keyed Ea)
    as (Hk & Hn & Hd).
  assert (is_Some (m !! "readers")) as [r Hr].
  { apply Hn. right. exists (readers_of ["alice"] ∅).
    split; [now left|reflexivity]. }
  exists m, r. split; [reflexivity|]. split; [exact Hr|].
  split; [exact (Hk _ _ Hr)|].
  split; apply (Hd _ _ Hr).
Defined.

Section InspectedRoles.
Context {W : Type} `{!LdapConn W} `{!Codec} `{!Templates} `{!Glob} `{!Cluster W}.

Lemma inspect_mappings_keyed (syncmap : list Mapping)
    (ldaproles : RoleSet) (ldapacl : Acl) (w w' : W) roles acl evs :
  keyed_by_name ldaproles ->
  inspect_mappings syncmap ldaproles ldapacl w = (Return (roles, acl), w', evs) ->
  keyed_by_name roles.
Proof.
  revert ldaproles ldapacl w w' evs.
  induction syncmap as [|mapping rest IH]; simpl;
    intros ldaproles ldapacl w w' evs Hk.
  - now intros [= <- <- <- <-].
  - destruct (mapping_entries mapping w) as [[[[entries source]|e] w1] evs1];
      [|discriminate].
    destruct (aggregate_roles (apply_role_rules (map_roles mapping) entries)
                ldaproles) as [[ldaproles'|e] evs2] eqn:E2; [|discriminate].
    apply (aggregate_keyed _ _ _ _ Hk) in E2.
    destruct (aggregate_grants (apply_grant_rules (map_grant mapping) entries)
                source ldapacl) as [[ldapacl'|e] evs3]; [|discriminate].
    destruct (inspect_mappings rest ldaproles' ldapacl' w1)
      as [[r4 w4] evs4] eqn:E4.
    intros [= -> <- <-]. eapply IH; eauto.
Qed.

(** X14. Every role [inspect_ldap] returns is filed under its own name,
    and its options are those of a role of the table built from the sync
    map, passed through [fill_with_defaults]: the defaults are filled in
    once the roles are merged, not before, and the name, the members, the
    parents and the comment are left as they were. *)
Theorem inspected_roles_are_keyed_and_completed (syncmap : list Mapping)
    (w w' : W) roles acl evs (n : string) (r : Role) :
  inspect_ldap syncmap w = (Return (roles, acl), w', evs) ->
  roles !! n = Some r ->
  name r = n
  /\ exists r0 table evs0,
       inspect_mappings syncmap ∅ new_acl w = (Return (table, acl), w', evs0)
       /\ table !! n = Some r0
       /\ options r = fill_with_defaults (options r0)
       /\ name r = name r0 /\ members r = members r0
       /\ parents r = parents r0 /\ comment r = comment r0.
Proof.
  unfold inspect_ldap.
  destruct (inspect_mappings syncmap ∅ new_acl w)
    as [[[[table acl']|e] w1] evs1] eqn:E; [|discriminate].
  intros [= <- <- <- <-] Hl.
  rewrite lookup_fmap in Hl.
  destruct (table !! n) as [r0|] eqn:Hr0; [|discriminate].
  injection Hl as <-.
  pose proof (inspect_mappings_keyed _ _ _ _ _ _ _ _ empty_keyed E _ _ Hr0)
    as Hname.
  split; [exact Hname|].
  exists r0, table, evs1. repeat split; auto.
Qed.

End InspectedRoles.

Lemma inspected_roles_are_keyed_and_completed_witness :
  exists roles acl r,
    fst (fst static_inspection) = Return (roles, acl)
    /\ roles !! "admin" = Some r
    /\ name r = "admin".
Proof.
  unfold static_inspection.
  destruct (@inspect_ldap Directory directory_conn codec_7bit small_templates
              small_glob list_cluster static_syncmap groups_dir)
    as [[[[roles acl]|e] w'] evs] eqn:E; [|vm_compute in E; discriminate].
  destruct (roles !! "admin") as [r|] eqn:Hr.
  - destruct (@inspected_roles_are_keyed_and_completed
                Directory directory_conn codec_7bit small_templates small_glob
                list_cluster static_syncmap groups_dir w' roles acl evs
                "admin" r E Hr) as [Hn _].
    exists roles, acl, r. auto.
  - exfalso. vm_compute in E. injection E as <- _ _ _.
    vm_compute in Hr. discriminate.
Defined.

(** ** The runs of [sync] *)

Section SyncRuns.
Context {W : Type} `{!LdapConn W} `{!Codec} `{!Templates} `{!Glob} `{!Cluster W}.

(** *** Computations that cause no event of a kind *)

Section Silent.
Variable p : event -> bool.
Hypothesis p_blind : blind_to_directory p.

Lemma silent_bind {A B} (m : M W A) (f : A -> M W B) :
  silent p m -> (forall a, silent p (f a)) -> silent p (bind m f).
Proof.
  intros Hm Hf w r w' evs Hb.
  apply bind_inv in Hb as [(e & Hb & _)|(a & w1 & e1 & e2 & Hb1 & Hb2 & ->)].
  - eapply Hm, Hb.
  - apply Forall_app. split; [eapply Hm, Hb1|eapply Hf, Hb2].
Qed.

Lemma silent_ret {A} (a : A) : silent p (ret a : M W A).
Proof. intros w r w' evs [= <- <- <-]. constructor. Qed.

Lemma silent_log (lvl : level) (m : logmsg) : silent p (log lvl m : M W unit).
Proof.
  intros w r w' evs [= <- <- <-]. constructor; [|constructor].
  now apply p_blind.
Qed.

Lemma silent_call {A} (ev : event) (f : W -> result A * W) :
  p ev = false -> silent p (call ev f).
Proof.
  intros Hev w r w' evs. unfold call. destruct (f w) as [r1 w1].
  intros [= <- <- <-]. now repeat constructor.
Qed.

Lemma silent_modify (f : W -> W) : silent p (modify f).
Proof. intros w r w' evs [= <- <- <-]. constructor. Qed.

Lemma silent_read {A} (f : W -> A) : silent p (read f).
Proof. intros w r w' evs [= <- <- <-]. constructor. Qed.

Lemma silent_lift {A} (r : result A) : silent p (lift r : M W A).
Proof. intros w r' w' evs [= <- <- <-]. constructor. Qed.

Lemma silent_value_error {A} (m : M W A) :
  silent p m -> silent p (value_error_is_user_error m).
Proof.
  intros Hm w r w' evs. unfold value_error_is_user_error.
  destruct (m w) as [[r1 w1] e1] eqn:E. apply Hm in E.
  destruct r1 as [a|[]]; intros [= <- <- <-]; exact E.
Qed.

Lemma silent_inspect_ldap (syncmap : list Mapping) :
  silent p (inspect_ldap syncmap).
Proof.
  intros w r w' evs. unfold inspect_ldap.
  destruct (inspect_mappings syncmap ∅ new_acl w)
    as [[[[ldaproles ldapacl]|e] w1] evs1] eqn:E;
    apply inspect_mappings_directory in E as [E _];
    intros [= <- <- <-];
    (eapply List.Forall_impl; [|exact E]); apply p_blind.
Qed.

End Silent.

Lemma is_run_blind : blind_to_directory is_run.
Proof. intros [| | | | | | | | |]; simpl; congruence. Qed.

End SyncRuns.

Ltac quiet :=
  repeat first
    [ match goal with |- silent _ (if ?c then _ else _) => destruct c end
    | apply silent_ret | apply silent_log; apply is_run_blind
    | apply silent_modify | apply silent_read
    | apply silent_lift | apply silent_value_error
    | apply silent_inspect_ldap; apply is_run_blind
    | apply silent_call; reflexivity
    | apply silent_bind
    | match goal with
      | |- forall _ : (_ * _ * _)%type, _ => intros [[? ?] ?]
      | |- forall _ : (_ * _)%type, _ => intros [? ?]
      | |- forall _, silent _ _ => intro
      end ].

(** The events of the computation run in [Hm] are no statements run. *)
Ltac note Hm :=
  let Q := fresh "Q" in
  match type of Hm with
  | ?m ?w = _ =>
      assert (Q : silent is_run m) by quiet;
      specialize (Q _ _ _ _ Hm)
  end.

(** One [bind] of the computation in [Hs]: it ends there with an
    exception, or goes on from the world [w1], after the events [e1], with
    what is left in [Hs]. *)
Ltac step Hs Hm w1 e1 :=
  let e := fresh "e" in
  let a := fresh "a" in
  let rest := fresh "rest" in
  apply bind_inv in Hs as [(e & Hs & ->)|(a & w1 & e1 & rest & Hm & Hs & ->)];
  [ note Hs; left; split; [repeat (apply Forall_app; split); assumption|eauto]
  | note Hm;
    repeat match goal with
           | x : (_ * _)%type |- _ => destruct x
           | x : unit |- _ => destruct x
           end;
    cbv beta iota in Hs ].

Section SyncShape.
Context {W : Type} `{!LdapConn W} `{!Codec} `{!Templates} `{!Glob} `{!Cluster W}.

(** A run of the role phase of [sync] either fails before any statement
    is run, or gets through the inspections and ends with the queries of
    the roles. *)
Lemma sync_roles_shape (syncmap : list Mapping) (w w' : W) r evs :
  sync_roles syncmap w = (r, w', evs) ->
  (Forall (fun ev => is_run ev = false) evs /\ exists e, r = Raise e)
  \/ exists pre w0 w1 roles acl evi ldaproles dbs managed c,
       inspect_ldap syncmap w0 = (Return (roles, acl), w1, evi)
       /\ resolve_membership roles = Return ldaproles
       /\ evs = pre ++ evi
                  ++ [EvLog Debug LdapInspectionDone; EvRunRoleQueries c]
       /\ Forall (fun ev => is_run ev = false) (pre ++ evi)
       /\ In EvFetchMe pre /\ In EvFetchRoles pre /\ In EvFilterRoles pre
       /\ r = match c with
              | Return n => Return (dbs, managed, ldaproles, acl, (0 + n)%Z)
              | Raise e => Raise e
              end.
Proof.
  unfold sync_roles, downgrade_options. intros Hs.
  step Hs Hm1 w1 e1. step Hs Hm2 w2 e2. step Hs Hm3 w3 e3.
  step Hs Hm4 w4 e4. step Hs Hm5 w5 e5. step Hs Hm6 w6 e6.
  step Hs Hm7 w7 e7. step Hs Hm8 w8 e8. step Hs Hm9 w9 e9.
  step Hs Hm10 w10 e10. step Hs Hm11 w11 e11.
  unfold log in Hm10. injection Hm10 as <- <-.
  assert (e2 = [EvFetchMe]) as ->.
  { unfold call in Hm2. destruct (fetch_me w1). now injection Hm2 as _ _ <-. }
  assert (e6 = [EvFetchRoles]) as ->.
  { unfold call in Hm6. destruct (fetch_roles w5).
    now injection Hm6 as _ _ <-. }
  assert (e7 = [EvFilterRoles]) as ->.
  { unfold call in Hm7.
    match type of Hm7 with
    | context [filter_roles ?x ?y ?z] => destruct (filter_roles x y z)
    end.
    now injection Hm7 as _ _ <-. }
  match type of Hm9 with
  | inspect_ldap _ _ = (Return (?roles, ?acl), _, _) =>
      match type of Hm11 with
      | _ = (Return ?ldaproles, _, _) =>
          assert (resolve_membership roles = Return ldaproles /\ e11 = [])
            as [Hres ->]
      end
  end.
  { unfold value_error_is_user_error, lift in Hm11.
    match type of Hm11 with
    | context [resolve_membership ?x] =>
        destruct (resolve_membership x) as [x'|[]]; try discriminate
    end.
    now injection Hm11 as -> _ <-. }
  unfold bind, ran, ret in Hs.
  match type of Hs with
  | context [run_queries ?q ?w0] =>
      destruct (run_queries q w0) as [c w12]
  end.
  right.
  exists (e1 ++ [EvFetchMe] ++ e3 ++ e4 ++ e5 ++ [EvFetchRoles]
            ++ [EvFilterRoles] ++ e8).
  do 8 eexists. exists c.
  split; [exact Hm9|]. split; [exact Hres|].
  assert (Forall (fun ev => is_run ev = false)
            ((e1 ++ [EvFetchMe] ++ e3 ++ e4 ++ e5 ++ [EvFetchRoles]
                ++ [EvFilterRoles] ++ e8) ++ e9)) as Hquiet
    by (repeat (apply Forall_app; split); assumption).
  destruct c as [n|e]; injection Hs as <- _ <-;
    (split; [now rewrite <- !app_assoc|]);
    (split; [exact Hquiet|]);
    rewrite !in_app_iff; simpl; tauto.
Qed.

End SyncShape.

(** The first event of a kind in a list of events is where it is. *)
Lemma first_event_of_kind (p : event -> bool) (l1 l2 l1' l2' : list event)
    (x x' : event) :
  l1 ++ x :: l2 = l1' ++ x' :: l2' ->
  Forall (fun ev => p ev = false) l1 -> p x' = true ->
  exists more, l1' = l1 ++ more.
Proof.
  intros Heq Hl1 Hx'.
  apply List.app_eq_app in Heq as (l & [[H1 H2]|[H1 H2]]).
  - destruct l as [|y l].
    + exists []. rewrite app_nil_r in H1. now rewrite app_nil_r.
    + exfalso. simpl in H2. injection H2 as <- _.
      rewrite H1 in Hl1. apply Forall_app in Hl1 as [_ Hl1].
      inversion Hl1; subst. congruence.
  - exists l. exact H1.
Qed.

Section SyncClaims.
Context {W : Type} `{!LdapConn W} `{!Codec} `{!Templates} `{!Glob} `{!Cluster W}.
Variable self : Config W.

Lemma add_grants_logs (g : gen Grant) (acl : Acl) r evs :
  add_grants g acl = (r, evs) -> Forall (fun ev => is_log ev = true) evs.
Proof.
  revert acl r evs. induction g as [|x k IH|l msg k IH|e]; simpl;
    intros acl r evs.
  - intros [= <- <-]. constructor.
  - destruct (acl_add x acl) as [acl'|e]; [apply IH|].
    intros [= <- <-]. constructor.
  - destruct (add_grants k acl) as [r' evs'] eqn:E. apply IH in E.
    intros [= <- <-]. now constructor.
  - intros [= <- <-]. constructor.
Qed.

(** X15. [postprocess_acl] lets no [ValueError] out: one raised while the
    grants are expanded or added leaves it as a [UserError] with the same
    text. It calls no collaborator: the world is left as it was, and the
    events are the log records of the expansion. *)
Theorem postprocess_acl_lets_no_value_error_out
    (acl : Acl) (schemas : Schemas) (w w' : W) r evs :
  postprocess_acl self acl schemas w = (r, w', evs) ->
  w' = w
  /\ Forall (fun ev => is_log ev = true) evs
  /\ (forall msg, r <> Raise (ValueError msg))
  /\ (forall msg,
        fst (add_grants
               (expandgrants acl (privilege_aliases self) (privileges self)
                  schemas) new_acl) = Raise (ValueError msg) ->
        r = Raise (UserError (MsgOther msg))).
Proof.
  unfold postprocess_acl, value_error_is_user_error.
  destruct (add_grants
              (expandgrants acl (privilege_aliases self) (privileges self)
                 schemas) new_acl) as [r1 evs1] eqn:E.
  apply add_grants_logs in E.
  destruct r1 as [a|[]]; intros [= <- <- <-];
    (split; [reflexivity|]); (split; [exact E|]);
    (split; [discriminate|]); simpl; congruence.
Qed.

Lemma silent_postprocess_acl (p : event -> bool) (acl : Acl)
    (schemas : Schemas) :
  blind_to_directory p -> silent p (postprocess_acl self acl schemas).
Proof.
  intros Hp w r w' evs. unfold postprocess_acl.
  apply silent_value_error. clear w r w' evs. intros w r w' evs.
  destruct (add_grants _ _) as [r1 evs1] eqn:E. apply add_grants_logs in E.
  intros [= <- <- <-]. eapply List.Forall_impl; [|exact E].
  intros ev Hev. apply Hp. now destruct ev.
Qed.

(** X16. [sync] runs no statement before the inspections are done: in
    every run, whatever precedes a call of the statement runner contains
    the fetch of the connected role, the fetch and the filtering of the
    roles of the cluster, then the events of an inspection of the
    directory that returned, followed by the record "LDAP inspection
    completed", and the membership of the roles it returned was resolved.
    When the inspection or the resolution fails, no statement is run. *)
Theorem statements_run_after_the_inspections (syncmap : list Mapping)
    (w w' : W) (r : result Z) (evs before after : list event) (ev : event) :
  sync self syncmap w = (r, w', evs) ->
  evs = before ++ ev :: after -> is_run ev = true ->
  exists pre w0 w1 roles acl evi ldaproles more,
    before = pre ++ evi ++ EvLog Debug LdapInspectionDone :: more
    /\ inspect_ldap syncmap w0 = (Return (roles, acl), w1, evi)
    /\ resolve_membership roles = Return ldaproles
    /\ Forall (fun ev => is_run ev = false) (pre ++ evi)
    /\ In EvFetchMe pre /\ In EvFetchRoles pre /\ In EvFilterRoles pre.
Proof.
  intros Hs Heq Hev.
  assert (exists pre w0 w1 roles acl evi ldaproles c tail,
             evs = (pre ++ evi ++ [EvLog Debug LdapInspectionDone])
                     ++ EvRunRoleQueries c :: tail
             /\ inspect_ldap syncmap w0 = (Return (roles, acl), w1, evi)
             /\ resolve_membership roles = Return ldaproles
             /\ Forall (fun ev => is_run ev = false) (pre ++ evi)
             /\ In EvFetchMe pre /\ In EvFetchRoles pre
             /\ In EvFilterRoles pre)
    as (pre & w0 & w1 & roles & acl & evi & ldaproles & c & tail
        & Hevs & Hi & Hm & Hq & Hi1 & Hi2 & Hi3).
  { unfold sync in Hs.
    apply bind_inv in Hs
      as [(e & Hs & ->)|(x & w1 & e1 & e2 & Hs1 & Hs2 & Hevs)].
    - apply sync_roles_shape in Hs
        as [[Hq _]|(pre & w0 & w1 & roles & acl & evi & ldaproles & dbs
                    & managed & c & Hi & Hm & -> & Hq & Hi1 & Hi2 & Hi3 & _)].
      + exfalso. rewrite Heq in Hq. apply Forall_app in Hq as [_ Hq].
        inversion Hq; subst. congruence.
      + exists pre, w0, w1, roles, acl, evi, ldaproles, c, [].
        split; [now rewrite <- !app_assoc|]. tauto.
    - apply sync_roles_shape in Hs1
        as [[_ [e He]]|(pre & w0 & w2 & roles & acl & evi & ldaproles & dbs
                        & managed & c & Hi & Hm & -> & Hq & Hi1 & Hi2 & Hi3 & _)];
        [discriminate|].
      exists pre, w0, w2, roles, acl, evi, ldaproles, c, e2.
      split; [rewrite Hevs; now rewrite <- !app_assoc|]. tauto. }
  rewrite Hevs in Heq.
  destruct (first_event_of_kind is_run _ _ _ _ _ _ Heq) as [more Hmore].
  - rewrite app_assoc. apply Forall_app. split; [exact Hq|].
    now repeat constructor.
  - exact Hev.
  - exists pre, w0, w1, roles, acl, evi, ldaproles, more.
    split; [rewrite Hmore; now rewrite <- !app_assoc|]. tauto.
Qed.

End SyncClaims.

(** One [bind] of a computation that returned. *)
Ltac stepR Hs Hm w1 e1 :=
  let a := fresh "a" in
  let rest := fresh "rest" in
  apply bind_Return_inv in Hs as (a & w1 & e1 & rest & Hm & Hs & ->);
  try note Hm;
  repeat match goal with
         | x : (_ * _)%type |- _ => destruct x
         | x : unit |- _ => destruct x
         end;
  cbv beta iota in Hs.

Section SyncCounts.
Context {W : Type} `{!LdapConn W} `{!Codec} `{!Templates} `{!Glob} `{!Cluster W}.
Variable self : Config W.

Lemma report_inv (count : Z) (w w' : W) r evs :
  report count w = (r, w', evs) ->
  r = Return count /\ w' = w
  /\ evs = [if negb (count =? 0)%Z
            then EvLog (if (count <? 20)%Z then Debug else Info)
                   (GeneratedQueries count)
            else EvLog Info NothingToDo].
Proof.
  unfold report, bind, log, ret.
  destruct (negb (count =? 0)%Z); intros [= <- <- <-]; auto.
Qed.

(** X17. With privileges configured, a run of [sync] that returns has
    run the statement runner twice, on the roles and then on the grants,
    after the fetch of the schemas and of the grants, and no other time;
    the count it returns is the sum of the two counts returned. *)
Theorem sync_counts_the_queries_of_both_phases (syncmap : list Mapping)
    (w w' : W) (n : Z) (evs : list event) :
  privileges self <> [] ->
  sync self syncmap w = (Return n, w', evs) ->
  exists a b pre mid post,
    n = (a + b)%Z
    /\ evs = pre ++ EvRunRoleQueries (Return a)
                 :: mid ++ EvRunGrantQueries (Return b) :: post
    /\ Forall (fun ev => is_run ev = false) pre
    /\ Forall (fun ev => is_run ev = false) mid
    /\ Forall (fun ev => is_run ev = false) post
    /\ In EvFetchSchemas mid /\ In EvFetchGrants mid.
Proof.
  intros Hp Hs. unfold sync in Hs.
  apply bind_Return_inv in Hs
    as ([[[[dbs pgm] ldr] acl] count] & w1 & e1 & e2 & Hs1 & Hs2 & ->).
  cbv beta iota in Hs2.
  apply sync_roles_shape in Hs1
    as [[_ [e He]]|(pre & w0 & w2 & roles & acl' & evi & ldaproles & dbs'
                    & managed & c & _ & _ & -> & Hq & _ & _ & _ & Hr)];
    [discriminate|].
  destruct c as [a|e]; [|discriminate].
  injection Hr as _ _ _ _ ->.
  destruct (privileges self) as [|p ps] eqn:Eps; [contradiction|].
  apply bind_Return_inv in Hs2 as (cnt & w3 & e3 & e4 & Hg & Hrep & ->).
  apply report_inv in Hrep as ([= <-] & _ & ->).
  unfold sync_grants in Hg.
  stepR Hg Hm1 v1 g1. stepR Hg Hm2 v2 g2. stepR Hg Hm3 v3 g3.
  stepR Hg Hm4 v4 g4. stepR Hg Hm5 v5 g5.
  apply bind_Return_inv in Hg as (acl2 & v6 & g6 & tl6 & Hm6 & Hg & ->).
  pose proof (silent_postprocess_acl self is_run _ _ is_run_blind
                _ _ _ _ Hm6) as Q6.
  apply bind_Return_inv in Hg as (b & v7 & g7 & tl7 & Hm7 & Hg & ->).
  unfold ret in Hg. injection Hg as <- _ <-.
  assert (g4 = [EvFetchSchemas]) as ->.
  { unfold call in Hm4.
    match type of Hm4 with
    | context [fetch_schemas ?x ?y ?z] => destruct (fetch_schemas x y z)
    end.
    now injection Hm4 as _ _ <-. }
  assert (g5 = [EvFetchGrants]) as ->.
  { unfold call in Hm5.
    match type of Hm5 with
    | context [fetch_grants ?x ?y ?z] => destruct (fetch_grants x y z)
    end.
    now injection Hm5 as _ _ <-. }
  assert (g7 = [EvRunGrantQueries (Return b)]) as ->.
  { unfold ran in Hm7.
    match type of Hm7 with
    | context [run_queries ?q ?w0] => destruct (run_queries q w0)
    end.
    now injection Hm7 as -> _ <-. }
  exists a, b, (pre ++ evi ++ [EvLog Debug LdapInspectionDone]),
    (g1 ++ g2 ++ g3 ++ [EvFetchSchemas] ++ [EvFetchGrants] ++ g6),
    [if negb (0 + a + b =? 0)%Z
     then EvLog (if (0 + a + b <? 20)%Z then Debug else Info)
            (GeneratedQueries (0 + a + b))
     else EvLog Info NothingToDo].
  split; [lia|].
  split; [repeat (rewrite <- !app_assoc; simpl); reflexivity|].
  split.
  { rewrite app_assoc. apply Forall_app. split; [exact Hq|].
    now repeat constructor. }
  split; [repeat (apply Forall_app; split); try assumption;
          now repeat constructor|].
  split; [destruct (negb (0 + a + b =? 0)%Z); now repeat constructor|].
  rewrite !in_app_iff. simpl. tauto.
Qed.

(** X18. A run of [sync] that returns ends with the report of the count
    it returns: "Nothing to do." at the level info when the count is zero,
    otherwise "Generated %d querie(s)." with the count, at the level debug
    when the count is below 20 and at the level info from 20 on. *)
Theorem sync_ends_with_the_report_of_the_count (syncmap : list Mapping)
    (w w' : W) (n : Z) (evs : list event) :
  sync self syncmap w = (Return n, w', evs) ->
  exists evs0 last,
    evs = evs0 ++ [last]
    /\ (n = 0%Z -> last = EvLog Info NothingToDo)
    /\ (n <> 0%Z -> (n < 20)%Z -> last = EvLog Debug (GeneratedQueries n))
    /\ ((20 <= n)%Z -> last = EvLog Info (GeneratedQueries n)).
Proof.
  intros Hs. unfold sync in Hs.
  apply bind_Return_inv in Hs
    as ([[[[dbs pgm] ldr] acl] count] & w1 & e1 & e2 & Hs1 & Hs2 & ->).
  cbv beta iota in Hs2.
  apply bind_Return_inv in Hs2 as (cnt & w3 & e3 & e4 & Hg & Hrep & ->).
  apply report_inv in Hrep as ([= <-] & _ & ->).
  eexists (e1 ++ e3), _. split; [now rewrite app_assoc|].
  split; [|split].
  - intros ->. reflexivity.
  - intros Hz Hlt.
    destruct (Z.eqb_spec n 0); [contradiction|].
    destruct (Z.ltb_spec n 20); [reflexivity|lia].
  - intros Hge.
    destruct (Z.eqb_spec n 0); [lia|].
    destruct (Z.ltb_spec n 20); [lia|reflexivity].
Qed.

End SyncCounts.

Lemma postprocess_acl_lets_no_value_error_out_witness :
  fst (fst rw_postprocessing)
  = Raise (UserError (MsgOther "Unknown privilege rw"))
  /\ snd (fst rw_postprocessing) = groups_dir
  /\ Forall (fun ev => is_log ev = true) (snd rw_postprocessing).
Proof.
  destruct (@postprocess_acl_lets_no_value_error_out
              Directory picky_cluster picky_ro
              [{| privilege := Some "ro"; databases := ALL_DATABASES;
                  schemas := None; role := "app_ro" |};
               {| privilege := Some "rw"; databases := ALL_DATABASES;
                  schemas := None; role := "app_rw" |}]
              [] groups_dir (snd (fst rw_postprocessing))
              (fst (fst rw_postprocessing)) (snd rw_postprocessing) eq_refl)
    as (Hw & Hlogs & _ & Hconv).
  split; [exact (Hconv "Unknown privilege rw" eq_refl)|].
  split; [exact Hw|exact Hlogs].
Defined.

Lemma statements_run_after_the_inspections_witness :
  exists pre w0 w1 roles acl evi ldaproles more,
    firstn 29 (snd grants_sync_run)
    = pre ++ evi ++ EvLog Debug LdapInspectionDone :: more
    /\ @inspect_ldap Directory directory_conn codec_7bit small_templates
         small_glob list_cluster groups_syncmap w0
       = (Return (roles, acl), w1, evi)
    /\ @resolve_membership Directory list_cluster roles = Return ldaproles
    /\ Forall (fun ev => is_run ev = false) (pre ++ evi)
    /\ In EvFetchMe pre /\ In EvFetchRoles pre /\ In EvFilterRoles pre.
Proof.
  apply (@statements_run_after_the_inspections
           Directory directory_conn codec_7bit small_templates small_glob
           list_cluster ro_privilege groups_syncmap groups_dir
           (snd (fst grants_sync_run)) (fst (fst grants_sync_run))
           (snd grants_sync_run) (firstn 29 (snd grants_sync_run))
           (skipn 30 (snd grants_sync_run)) (EvRunGrantQueries (Return 2%Z)));
    reflexivity.
Defined.

Lemma sync_counts_the_queries_of_both_phases_witness :
  exists a b pre mid post,
    5%Z = (a + b)%Z
    /\ snd grants_sync_run
       = pre ++ EvRunRoleQueries (Return a)
             :: mid ++ EvRunGrantQueries (Return b) :: post
    /\ Forall (fun ev => is_run ev = false) pre
    /\ Forall (fun ev => is_run ev = false) mid
    /\ Forall (fun ev => is_run ev = false) post
    /\ In EvFetchSchemas mid /\ In EvFetchGrants mid.
Proof.
  apply (@sync_counts_the_queries_of_both_phases
           Directory directory_conn codec_7bit small_templates small_glob
           list_cluster ro_privilege groups_syncmap groups_dir
           (snd (fst grants_sync_run)) 5%Z (snd grants_sync_run)).
  - discriminate.
  - reflexivity.
Defined.

Lemma sync_ends_with_the_report_of_the_count_witness :
  exists evs0 last,
    snd plain_sync_run = evs0 ++ [last]
    /\ (3%Z = 0%Z -> last = EvLog Info NothingToDo)
    /\ (3%Z <> 0%Z -> (3 < 20)%Z -> last = EvLog Debug (GeneratedQueries 3))
    /\ ((20 <= 3)%Z -> last = EvLog Info (GeneratedQueries 3)).
Proof.
  apply (@sync_ends_with_the_report_of_the_count
           Directory directory_conn codec_7bit small_templates small_glob
           list_cluster no_privileges groups_syncmap groups_dir
           (snd (fst plain_sync_run)) 3%Z (snd plain_sync_run)).
  reflexivity.
Defined.
